(** * excalidraw-mcp: the streaming render pipeline of [mcp-app.tsx]
    and the checkpoint store of [checkpoint-store.ts]

    A shallow embedding of the helpers of the diagram front end
    ([parsePartialElements], [excludeIncompleteLastItem],
    [extractViewportAndElements], [convertRawElements], the viewport
    normalisation and animation, the partial and final input paths of
    [DiagramView]) and of [MemoryCheckpointStore], with the properties the
    specification states about them.

    Conventions of the embedding.
    - A JavaScript string is the list of its UTF-16 code units ([list N]).
    - A JSON number is carried as its validated literal.  The binary64
      number it denotes ([number_value]) is what [String], [===], the
      truth test and the arithmetic see; [JSON.stringify] writes the
      literal.
    - [undefined] is [None] in [jsval := option json]; a thrown [TypeError]
      is [None] in the result of a fallible function.
    - An object is the list of its properties in insertion order, without
      duplicate keys (the numeric order that JavaScript gives to
      integer-like keys is not modelled).
    - One run of the tool-input effect is one step: its [await]s are not
      interleaved with other runs.
    - The normalisation of the viewport to 4:3 is done on exact rationals
      ([Q]), without the rounding of binary64; the animation of the
      viewport is done on binary64 numbers. *)

From Stdlib Require Import ZArith NArith List String Ascii Bool Lia QArith Qabs Qround Qpower Lqa DecimalString.
From stdpp Require Import base option list gmap strings.

Local Open Scope N_scope.

(** ** JavaScript strings *)

Abbreviation jsstring := (list N).

(** A string literal of the source, as code units. *)
Definition lit (s : string) : jsstring :=
  map N_of_ascii (list_ascii_of_string s).

(** A JSON text of an example, written with ['] for the double quote. *)
Definition text (s : string) : jsstring :=
  (λ c, if c =? 39 then 34 else c) <$> lit s.

Module Ch.
Definition tab : N := 9.
Definition lf : N := 10.
Definition ff : N := 12.
Definition cr : N := 13.
Definition bs : N := 8.
Definition space : N := 32.
Definition quote : N := 34.
Definition plus : N := 43.
Definition comma : N := 44.
Definition minus : N := 45.
Definition dot : N := 46.
Definition slash : N := 47.
Definition zero : N := 48.
Definition colon : N := 58.
Definition lbracket : N := 91.
Definition backslash : N := 92.
Definition rbracket : N := 93.
Definition lbrace : N := 123.
Definition rbrace : N := 125.
End Ch.

(** [WhiteSpace] and [LineTerminator] of ECMAScript: what [trim] strips. *)
Definition is_js_space (c : N) : bool :=
  (9 <=? c) && (c <=? 13) || (c =? 32) || (c =? 160) || (c =? 5760)
  || (8192 <=? c) && (c <=? 8202) || (c =? 8232) || (c =? 8233)
  || (c =? 8239) || (c =? 8287) || (c =? 12288) || (c =? 65279).

Fixpoint trimStart (s : jsstring) : jsstring :=
  match s with
  | c :: r => if is_js_space c then trimStart r else s
  | [] => []
  end.

Definition trimEnd (s : jsstring) : jsstring := rev (trimStart (rev s)).

Definition trim (s : jsstring) : jsstring := trimEnd (trimStart s).

Fixpoint startsWith (s p : jsstring) {struct p} : bool :=
  match p, s with
  | [], _ => true
  | c :: p', d :: s' => (c =? d) && startsWith s' p'
  | _ :: _, [] => false
  end.

(** [str.lastIndexOf(c)] for a one-unit search string: the position of the
    last occurrence, [-1] when there is none. *)
Fixpoint lastIndexFrom (c : N) (i : Z) (s : jsstring) (found : Z) : Z :=
  match s with
  | [] => found
  | d :: r => lastIndexFrom c (i + 1) r (if d =? c then i else found)
  end.

Definition lastIndexOf (s : jsstring) (c : N) : Z := lastIndexFrom c 0 s (-1).

(** [str.substring(0, n)] for [0 <= n]. *)
Definition substring0 (s : jsstring) (n : Z) : jsstring := take (Z.to_nat n) s.

(** [str.split(c)] for a one-unit separator: never the empty list. *)
Fixpoint split (c : N) (s : jsstring) : list jsstring :=
  match s with
  | [] => [[]]
  | d :: r =>
      if d =? c then [] :: split c r
      else match split c r with
           | w :: ws => (d :: w) :: ws
           | [] => [[d]]
           end
  end.

(** ** JSON values *)

#[local] Unset Elimination Schemes.

Inductive json : Type :=
| JNull
| JBool (b : bool)
| JNum (literal : jsstring)
| JStr (s : jsstring)
| JArr (elems : list json)
| JObj (props : list (jsstring * json)).

#[local] Set Elimination Schemes.

(** Induction on a value, with the property for the elements of an array
    and for the values of the properties of an object. *)
Fixpoint json_ind (P : json → Prop)
    (Hnull : P JNull) (Hbool : ∀ b, P (JBool b))
    (Hnum : ∀ l, P (JNum l)) (Hstr : ∀ s, P (JStr s))
    (Harr : ∀ l, Forall P l → P (JArr l))
    (Hobj : ∀ o, Forall (λ kv, P (snd kv)) o → P (JObj o))
    (v : json) {struct v} : P v :=
  match v with
  | JNull => Hnull
  | JBool b => Hbool b
  | JNum l => Hnum l
  | JStr s => Hstr s
  | JArr l =>
      Harr l
        ((fix go (l : list json) : Forall P l :=
            match l with
            | [] => @List.Forall_nil _ P
            | x :: l' =>
                @List.Forall_cons _ P x l'
                  (json_ind P Hnull Hbool Hnum Hstr Harr Hobj x) (go l')
            end) l)
  | JObj o =>
      Hobj o
        ((fix go (o : list (list N * json)) : Forall (λ kv, P (snd kv)) o :=
            match o with
            | [] => @List.Forall_nil _ (λ kv, P (snd kv))
            | kv :: o' =>
                @List.Forall_cons _ (λ kv, P (snd kv)) kv o'
                  (json_ind P Hnull Hbool Hnum Hstr Harr Hobj (snd kv))
                  (go o')
            end) o)
  end.

Abbreviation obj := (list (jsstring * json)).
Abbreviation jsval := (option json).

Fixpoint obj_get (o : obj) (k : jsstring) : jsval :=
  match o with
  | [] => None
  | (k', v) :: o' => if decide (k' = k) then Some v else obj_get o' k
  end.

(** [o[k] = v]: an existing property keeps its place, a new one goes last. *)
Fixpoint obj_set (k : jsstring) (v : json) (o : obj) : obj :=
  match o with
  | [] => [(k, v)]
  | (k', v') :: o' =>
      if decide (k' = k) then (k', v) :: o' else (k', v') :: obj_set k v o'
  end.

(** ** [JSON.parse]

    The grammar of ECMA-404 as a pushdown automaton that reads one code unit
    at a time.  A number is the longest run of number characters, checked
    against the number grammar when the run ends: a valid text never has a
    number character right after a number, so this accepts the same texts
    with the same values. *)

Definition is_json_space (c : N) : bool :=
  (c =? Ch.space) || (c =? Ch.tab) || (c =? Ch.lf) || (c =? Ch.cr).

Definition is_digit (c : N) : bool := (48 <=? c) && (c <=? 57).

Definition is_numchar (c : N) : bool :=
  is_digit c || (c =? Ch.minus) || (c =? Ch.plus) || (c =? Ch.dot)
  || (c =? 101) || (c =? 69).

Definition hexval (c : N) : option N :=
  if is_digit c then Some (c - 48)
  else if (97 <=? c) && (c <=? 102) then Some (c - 87)
  else if (65 <=? c) && (c <=? 70) then Some (c - 55)
  else None.

Fixpoint skip_digits (s : jsstring) : jsstring :=
  match s with
  | c :: r => if is_digit c then skip_digits r else s
  | [] => []
  end.

Definition all_digits1 (s : jsstring) : bool :=
  match s with [] => false | _ => forallb is_digit s end.

Definition valid_exp (s : jsstring) : bool :=
  match s with
  | [] => true
  | e :: r =>
      ((e =? 101) || (e =? 69))
      && match r with
         | sg :: r' =>
             if (sg =? Ch.plus) || (sg =? Ch.minus) then all_digits1 r'
             else all_digits1 r
         | [] => false
         end
  end.

Definition valid_frac (s : jsstring) : bool :=
  match s with
  | c :: r =>
      if c =? Ch.dot then
        match r with
        | d :: r' => is_digit d && valid_exp (skip_digits r')
        | [] => false
        end
      else valid_exp s
  | [] => true
  end.

Definition valid_int (s : jsstring) : bool :=
  match s with
  | c :: r =>
      if c =? Ch.zero then valid_frac r
      else is_digit c && valid_frac (skip_digits r)
  | [] => false
  end.

Definition valid_number (s : jsstring) : bool :=
  match s with
  | c :: r => if c =? Ch.minus then valid_int r else valid_int s
  | [] => false
  end.

(** An open container: the elements (or properties) read so far; an object
    also holds the key whose value is being read. *)
Inductive frame : Type :=
| FArr (done : list json)
| FObj (done : obj) (key : option jsstring).

(** What the grammar allows next, between two tokens. *)
Inductive expect : Type :=
| EValue
| EValueOrEnd
| EKeyOrEnd
| EKey
| EColon
| EAfter.

Inductive escape : Type :=
| NoEsc
| Esc
| EscU (digits : list N).

Inductive pstate : Type :=
| PExp (e : expect) (stk : list frame)
| PStr (acc : jsstring) (esc : escape) (iskey : bool) (stk : list frame)
| PNum (acc : jsstring) (stk : list frame)
| PLit (rest : jsstring) (v : json) (stk : list frame)
| PDone (v : json).

(** A value is complete: it goes into the innermost open container, or is
    the result when there is none. *)
Definition push_value (v : json) (stk : list frame) : option pstate :=
  match stk with
  | [] => Some (PDone v)
  | FArr done :: stk' => Some (PExp EAfter (FArr (done ++ [v]) :: stk'))
  | FObj done (Some k) :: stk' =>
      Some (PExp EAfter (FObj (obj_set k v done) None :: stk'))
  | FObj _ None :: _ => None
  end.

Definition close_array (stk : list frame) : option pstate :=
  match stk with
  | FArr done :: stk' => push_value (JArr done) stk'
  | _ => None
  end.

Definition close_object (stk : list frame) : option pstate :=
  match stk with
  | FObj done None :: stk' => push_value (JObj done) stk'
  | _ => None
  end.

Definition start_value (c : N) (stk : list frame) : option pstate :=
  if c =? Ch.lbracket then Some (PExp EValueOrEnd (FArr [] :: stk))
  else if c =? Ch.lbrace then Some (PExp EKeyOrEnd (FObj [] None :: stk))
  else if c =? Ch.quote then Some (PStr [] NoEsc false stk)
  else if c =? 116 then Some (PLit (lit "rue") (JBool true) stk)
  else if c =? 102 then Some (PLit (lit "alse") (JBool false) stk)
  else if c =? 110 then Some (PLit (lit "ull") JNull stk)
  else if (c =? Ch.minus) || is_digit c then Some (PNum [c] stk)
  else None.

Definition start_key (c : N) (stk : list frame) : option pstate :=
  if c =? Ch.quote then Some (PStr [] NoEsc true stk) else None.

Definition step_exp (e : expect) (stk : list frame) (c : N) : option pstate :=
  if is_json_space c then Some (PExp e stk)
  else match e with
       | EValue => start_value c stk
       | EValueOrEnd =>
           if c =? Ch.rbracket then close_array stk else start_value c stk
       | EKeyOrEnd =>
           if c =? Ch.rbrace then close_object stk else start_key c stk
       | EKey => start_key c stk
       | EColon => if c =? Ch.colon then Some (PExp EValue stk) else None
       | EAfter =>
           match stk with
           | FArr _ :: _ =>
               if c =? Ch.comma then Some (PExp EValue stk)
               else if c =? Ch.rbracket then close_array stk
               else None
           | FObj _ None :: _ =>
               if c =? Ch.comma then Some (PExp EKey stk)
               else if c =? Ch.rbrace then close_object stk
               else None
           | _ => None
           end
       end.

(** Between tokens, or after the whole value. *)
Definition step_idle (st : pstate) (c : N) : option pstate :=
  match st with
  | PExp e stk => step_exp e stk c
  | PDone v => if is_json_space c then Some (PDone v) else None
  | _ => None
  end.

Definition end_string (s : jsstring) (iskey : bool) (stk : list frame)
  : option pstate :=
  if iskey then
    match stk with
    | FObj done None :: stk' => Some (PExp EColon (FObj done (Some s) :: stk'))
    | _ => None
    end
  else push_value (JStr s) stk.

Definition unescape (c : N) : option N :=
  if (c =? Ch.quote) || (c =? Ch.backslash) || (c =? Ch.slash) then Some c
  else if c =? 98 then Some Ch.bs
  else if c =? 102 then Some Ch.ff
  else if c =? 110 then Some Ch.lf
  else if c =? 114 then Some Ch.cr
  else if c =? 116 then Some Ch.tab
  else None.

Definition hex4 (ds : list N) : N :=
  fold_left (fun a d => 16 * a + d) ds 0.

Definition step_str (acc : jsstring) (esc : escape) (iskey : bool)
    (stk : list frame) (c : N) : option pstate :=
  match esc with
  | NoEsc =>
      if c =? Ch.quote then end_string acc iskey stk
      else if c =? Ch.backslash then Some (PStr acc Esc iskey stk)
      else if c <? 32 then None
      else Some (PStr (acc ++ [c]) NoEsc iskey stk)
  | Esc =>
      if c =? 117 then Some (PStr acc (EscU []) iskey stk)
      else match unescape c with
           | Some d => Some (PStr (acc ++ [d]) NoEsc iskey stk)
           | None => None
           end
  | EscU ds =>
      match hexval c with
      | Some d =>
          if (length ds <? 3)%nat then Some (PStr acc (EscU (ds ++ [d])) iskey stk)
          else Some (PStr (acc ++ [hex4 (ds ++ [d])]) NoEsc iskey stk)
      | None => None
      end
  end.

Definition end_number (acc : jsstring) (stk : list frame) : option pstate :=
  if valid_number acc then push_value (JNum acc) stk else None.

Definition step (st : pstate) (c : N) : option pstate :=
  match st with
  | PExp _ _ | PDone _ => step_idle st c
  | PStr acc esc iskey stk => step_str acc esc iskey stk c
  | PNum acc stk =>
      if is_numchar c then Some (PNum (acc ++ [c]) stk)
      else match end_number acc stk with
           | Some st' => step_idle st' c
           | None => None
           end
  | PLit rest v stk =>
      match rest with
      | d :: rest' =>
          if c =? d then
            match rest' with
            | [] => push_value v stk
            | _ => Some (PLit rest' v stk)
            end
          else None
      | [] => None
      end
  end.

Fixpoint steps (st : pstate) (s : jsstring) : option pstate :=
  match s with
  | [] => Some st
  | c :: r =>
      match step st c with
      | Some st' => steps st' r
      | None => None
      end
  end.

(** The end of the text. *)
Definition finish (st : pstate) : option json :=
  match st with
  | PDone v => Some v
  | PNum acc [] => if valid_number acc then Some (JNum acc) else None
  | _ => None
  end.

(** [JSON.parse(text)]; [None] is the thrown [SyntaxError]. *)
Definition JSON_parse (text : jsstring) : option json :=
  match steps (PExp EValue []) text with
  | Some st => finish st
  | None => None
  end.

(** ** Numbers

    A JavaScript number is a binary64 value: [NaN], an infinity, or a
    finite number, which is carried as the rational it is equal to.  The
    two zeros are one number here: nothing below tells them apart. *)

Module Num.

Inductive t : Type := NaN | PosInf | NegInf | Fin (q : Q).

Local Open Scope Q_scope.

(** The exponent [e] with [2 ^ e <= |q| < 2 ^ (e + 1)], for [q] other
    than zero. *)
Definition binade (q : Q) : Z :=
  let e := (Z.log2 (Z.abs (Qnum q)) - Z.log2 (Zpos (Qden q)))%Z in
  if Qle_bool (2 ^ e) (Qabs q) then e else (e - 1)%Z.

(** The nearest integer, a tie going to the even one. *)
Definition nearest_even (q : Q) : Z :=
  let f := Qfloor q in
  let r := q - inject_Z f in
  if negb (Qle_bool (1 # 2) r) then f
  else if negb (Qle_bool r (1 # 2)) then (f + 1)%Z
  else if Z.even f then f else (f + 1)%Z.

(** The distance between the binary64 numbers around [q]: 53 bits in the
    binade of [q], and [2 ^ -1074] below the normal range. *)
Definition ulp (q : Q) : Q := 2 ^ Z.max (binade q - 52) (-1074).

(** The binary64 number nearest to [q], a tie going to the even
    significand; beyond the largest one, an infinity. *)
Definition of_Q (q : Q) : t :=
  if Qeq_bool q 0 then Fin 0
  else
    let r := Qred (inject_Z (nearest_even (q / ulp q)) * ulp q) in
    if Qle_bool (2 ^ 1024) r then PosInf
    else if Qle_bool r (- 2 ^ 1024) then NegInf
    else Fin r.

Definition neg (a : t) : t :=
  match a with
  | NaN => NaN
  | PosInf => NegInf
  | NegInf => PosInf
  | Fin q => Fin (- q)
  end.

(** [a + b] on numbers *)
Definition add (a b : t) : t :=
  match a, b with
  | NaN, _ | _, NaN => NaN
  | PosInf, NegInf | NegInf, PosInf => NaN
  | PosInf, _ | _, PosInf => PosInf
  | NegInf, _ | _, NegInf => NegInf
  | Fin p, Fin q => of_Q (p + q)
  end.

(** [a - b] *)
Definition sub (a b : t) : t := add a (neg b).

Definition sign (q : Q) : comparison := q ?= 0.

(** [a * b] *)
Definition mul (a b : t) : t :=
  match a, b with
  | NaN, _ | _, NaN => NaN
  | Fin p, Fin q => of_Q (p * q)
  | PosInf, PosInf | NegInf, NegInf => PosInf
  | PosInf, NegInf | NegInf, PosInf => NegInf
  | PosInf, Fin q | Fin q, PosInf =>
      match sign q with Eq => NaN | Gt => PosInf | Lt => NegInf end
  | NegInf, Fin q | Fin q, NegInf =>
      match sign q with Eq => NaN | Gt => NegInf | Lt => PosInf end
  end.

(** [Math.abs(a)] *)
Definition abs (a : t) : t :=
  match a with
  | NaN => NaN
  | PosInf | NegInf => PosInf
  | Fin q => Fin (Qabs q)
  end.

(** [a > b] *)
Definition gtb (a b : t) : bool :=
  match a, b with
  | NaN, _ | _, NaN => false
  | PosInf, PosInf => false
  | PosInf, _ => true
  | _, PosInf => false
  | NegInf, _ => false
  | Fin _, NegInf => true
  | Fin p, Fin q => negb (Qle_bool p q)
  end.

(** [a === b] *)
Definition eqb (a b : t) : bool :=
  match a, b with
  | PosInf, PosInf | NegInf, NegInf => true
  | Fin p, Fin q => Qeq_bool p q
  | _, _ => false
  end.

(** [Math.min(a, b)] *)
Definition min (a b : t) : t :=
  match a, b with
  | NaN, _ | _, NaN => NaN
  | NegInf, _ | _, NegInf => NegInf
  | PosInf, n | n, PosInf => n
  | Fin p, Fin q => if Qle_bool p q then a else b
  end.

(** [isFinite(a) ? a : 0] *)
Definition finite_or_zero (a : t) : Q :=
  match a with
  | Fin q => q
  | _ => 0
  end.

Local Close Scope Q_scope.

End Num.

(** The digits at the start of [s]: their value after [acc], their number
    after [n], and the rest of [s]. *)
Fixpoint read_digits (s : jsstring) (acc n : Z) : Z * Z * jsstring :=
  match s with
  | c :: r =>
      if is_digit c
      then read_digits r (10 * acc + Z.of_N (c - 48)) (n + 1)
      else (acc, n, s)
  | [] => (acc, n, [])
  end.

(** The rational that a JSON number literal writes. *)
Definition literal_value (l : jsstring) : Q :=
  let '(neg, l1) :=
    match l with
    | c :: r => if c =? Ch.minus then (true, r) else (false, l)
    | [] => (false, l)
    end in
  let '(i, _, l2) := read_digits l1 0 0 in
  let '(m, nf, l3) :=
    match l2 with
    | c :: r => if c =? Ch.dot then read_digits r i 0 else (i, 0%Z, l2)
    | [] => (i, 0%Z, l2)
    end in
  let e :=
    match l3 with
    | _ :: s :: r =>
        if s =? Ch.minus then (- (read_digits r 0 0).1.1)%Z
        else if s =? Ch.plus then (read_digits r 0 0).1.1
        else (read_digits (s :: r) 0 0).1.1
    | _ => 0%Z
    end in
  ((if neg then -1 else 1) * inject_Z m * 10 ^ (e - nf))%Q.

(** The number that [JSON.parse] makes of a number literal. *)
Definition number_value (l : jsstring) : Num.t := Num.of_Q (literal_value l).

Definition decimal (n : N) : jsstring :=
  lit (NilZero.string_of_uint (N.to_uint n)).

(** *** [Number::toString] *)

Local Open Scope Q_scope.

(** The number of decimal digits of a positive integer. *)
Definition digit_count (z : Z) : Z := Z.of_nat (length (decimal (Z.to_N z))).

(** The least [n] with [x < 10 ^ n], for [x > 0]. *)
Definition decimal_exponent (x : Q) : Z :=
  let n :=
    if Qle_bool 1 x then digit_count (Qfloor x)
    else (1 - digit_count (Qfloor (/ x)))%Z in
  if Qle_bool (10 ^ n) x then (n + 1)%Z else n.

(** [s * 10 ^ e] is read as the number [x]. *)
Definition reads_as (x : Q) (s e : Z) : bool :=
  match Num.of_Q (inject_Z s * 10 ^ e) with
  | Num.Fin y => Qeq_bool x y
  | _ => false
  end.

(** The integers [s] and [n] of [Number::toString] for [x > 0]: [s] has as
    few digits as a decimal [s * 10 ^ (n - k)] that is read as [x] can
    have, [k] being their number, and among two such decimals it is the
    nearer to [x].  The search starts with [k] digits and stops after
    [fuel] more; 17 digits are always enough. *)
Fixpoint shortest (fuel : nat) (k n : Z) (x : Q) : Z * Z :=
  let e := (n - k)%Z in
  let lo := Qfloor (x / 10 ^ e) in
  let hi := (lo + 1)%Z in
  let pick (s : Z) :=
    if (s =? 10 ^ k)%Z then (10 ^ (k - 1), n + 1)%Z else (s, n) in
  match fuel with
  | O => pick lo
  | S fuel' =>
      if reads_as x lo e && reads_as x hi e then
        let dlo := x - inject_Z lo * 10 ^ e in
        let dhi := inject_Z hi * 10 ^ e - x in
        if negb (Qle_bool dhi dlo) then pick lo
        else if negb (Qle_bool dlo dhi) then pick hi
        else if Z.even lo then pick lo else pick hi
      else if reads_as x lo e then pick lo
      else if reads_as x hi e then pick hi
      else shortest fuel' (k + 1) n x
  end.

Definition zeros (n : Z) : jsstring := replicate (Z.to_nat n) Ch.zero.

(** ["e"], the sign and the digits of [n - 1] *)
Definition exponent_text (n : Z) : jsstring :=
  101%N :: (if (0 <? n - 1)%Z then Ch.plus else Ch.minus)
  :: decimal (Z.to_N (Z.abs (n - 1))).

(** [Number::toString] for a finite [x > 0] *)
Definition positive_text (x : Q) : jsstring :=
  let '(s, n) := shortest 20 1 (decimal_exponent x) x in
  let ds := decimal (Z.to_N s) in
  let k := Z.of_nat (length ds) in
  if ((k <=? n) && (n <=? 21))%Z then ds ++ zeros (n - k)
  else if ((0 <? n) && (n <=? 21))%Z
  then take (Z.to_nat n) ds ++ Ch.dot :: drop (Z.to_nat n) ds
  else if ((-6 <? n) && (n <=? 0))%Z
  then Ch.zero :: Ch.dot :: zeros (- n) ++ ds
  else if (k =? 1)%Z then ds ++ exponent_text n
  else take 1 ds ++ Ch.dot :: drop 1 ds ++ exponent_text n.

Definition NumberToString (x : Num.t) : jsstring :=
  match x with
  | Num.NaN => lit "NaN"
  | Num.PosInf => lit "Infinity"
  | Num.NegInf => lit "-Infinity"
  | Num.Fin q =>
      if Qeq_bool q 0 then lit "0"
      else if negb (Qle_bool 0 q) then Ch.minus :: positive_text (- q)
      else positive_text q
  end.

Local Close Scope Q_scope.

(** ** Shared helpers of [mcp-app.tsx] *)

(** [parsePartialElements]: the argument is [string | undefined]; the result
    is whatever [JSON.parse] returned, or the empty array. *)
Definition parsePartialElements (str : option jsstring) : json :=
  match str with
  | None => JArr []
  | Some str =>
      if negb (startsWith (trim str) (lit "[")) then JArr []
      else
        match JSON_parse str with
        | Some v => v
        | None =>
            let last := lastIndexOf str Ch.rbrace in
            if (last <? 0)%Z then JArr []
            else
              match JSON_parse (substring0 str (last + 1) ++ lit "]") with
              | Some v => v
              | None => JArr []
              end
        end
  end.

(** [arr.slice(0, -1)] *)
Definition slice_drop_last {A} (arr : list A) : list A :=
  take (length arr - 1) arr.

Definition excludeIncompleteLastItem {A} (arr : list A) : list A :=
  if (length arr =? 0)%nat then []
  else if (length arr <=? 1)%nat then []
  else slice_drop_last arr.


(** ** Values at run time *)

(** The number of the literal is zero. *)
Definition num_is_zero (l : jsstring) : bool :=
  Num.eqb (number_value l) (Num.Fin 0).

(** [!!v] *)
Definition truthy (v : jsval) : bool :=
  match v with
  | None | Some JNull => false
  | Some (JBool b) => b
  | Some (JNum l) => negb (num_is_zero l)
  | Some (JStr s) => negb (bool_decide (s = []))
  | Some (JArr _) | Some (JObj _) => true
  end.

(** [a ?? b] *)
Definition nullish_or (a b : jsval) : jsval :=
  match a with
  | None | Some JNull => b
  | _ => a
  end.

(** [v.k] for [v] other than [null] and [undefined], and for the property
    names the source reads ([type], [id], [ids], [containerId], [x], [y],
    [width], [height], [label], [elements]): only an object has them. *)
Definition prop (v : json) (k : string) : jsval :=
  match v with
  | JObj o => obj_get o (lit k)
  | _ => None
  end.

(** [v.type === tag] *)
Definition type_is (v : json) (tag : string) : bool :=
  match prop v "type" with
  | Some (JStr s) => bool_decide (s = lit tag)
  | _ => false
  end.

Definition index_key (i : nat) : jsstring :=
  lit (NilZero.string_of_uint (Nat.to_uint i)).

(** The own enumerable properties that [{...v}] copies. *)
Definition spread (v : jsval) : obj :=
  match v with
  | Some (JObj o) => o
  | Some (JArr l) => imap (λ i e, (index_key i, e)) l
  | Some (JStr s) => imap (λ i c, (index_key i, JStr [c])) s
  | _ => []
  end.

(** [{...o, ...ps}] *)
Definition obj_assign (o ps : obj) : obj :=
  fold_left (λ acc kv, obj_set kv.1 kv.2 acc) ps o.

Fixpoint join (sep : jsstring) (parts : list jsstring) : jsstring :=
  match parts with
  | [] => []
  | p :: ps =>
      match ps with
      | [] => p
      | _ => p ++ sep ++ join sep ps
      end
  end.

(** [String(v)]; [None] is the [TypeError] for an object whose own
    [toString] property, which is no function, hides the inherited one.
    An array joins the texts of its elements, [null] giving the empty
    text. *)
Fixpoint ToString (v : json) : option jsstring :=
  match v with
  | JNull => Some (lit "null")
  | JBool true => Some (lit "true")
  | JBool false => Some (lit "false")
  | JNum l => Some (NumberToString (number_value l))
  | JStr s => Some s
  | JArr l =>
      join [Ch.comma]
        <$> (fix texts (l : list json) : option (list jsstring) :=
               match l with
               | [] => Some []
               | e :: r =>
                   match match e with JNull => Some [] | _ => ToString e end,
                         texts r with
                   | Some s, Some ss => Some (s :: ss)
                   | _, _ => None
                   end
               end) l
  | JObj o =>
      match obj_get o (lit "toString") with
      | Some _ => None
      | None => Some (lit "[object Object]")
      end
  end.

Definition String_ (v : jsval) : option jsstring :=
  match v with
  | None => Some (lit "undefined")
  | Some v => ToString v
  end.

(** [a === b] (and [SameValueZero]) on values that come from different
    parses: an array or object is only equal to itself. *)
Definition strict_equal (a b : jsval) : bool :=
  match a, b with
  | None, None => true
  | Some JNull, Some JNull => true
  | Some (JBool p), Some (JBool q) => bool_decide (p = q)
  | Some (JNum p), Some (JNum q) => Num.eqb (number_value p) (number_value q)
  | Some (JStr p), Some (JStr q) => bool_decide (p = q)
  | _, _ => false
  end.

(** [for (const a of l) body]: stops at the first exception. *)
Fixpoint for_of {A S : Type} (body : S → A → option S) (l : list A) (s : S)
  : option S :=
  match l with
  | [] => Some s
  | a :: r =>
      match body s a with
      | Some s' => for_of body r s'
      | None => None
      end
  end.

(** ** [JSON.stringify] *)

Definition hexdigit (d : N) : N := if d <? 10 then 48 + d else 87 + d.

Definition escape_u (c : N) : jsstring :=
  [Ch.backslash; 117; hexdigit (c / 4096 mod 16); hexdigit (c / 256 mod 16);
   hexdigit (c / 16 mod 16); hexdigit (c mod 16)].

Definition escape_unit (c : N) : jsstring :=
  if c =? Ch.bs then [Ch.backslash; 98]
  else if c =? Ch.tab then [Ch.backslash; 116]
  else if c =? Ch.lf then [Ch.backslash; 110]
  else if c =? Ch.ff then [Ch.backslash; 102]
  else if c =? Ch.cr then [Ch.backslash; 114]
  else if c =? Ch.quote then [Ch.backslash; Ch.quote]
  else if c =? Ch.backslash then [Ch.backslash; Ch.backslash]
  else if c <? 32 then escape_u c
  else [c].

Definition is_high (c : N) : bool := (55296 <=? c) && (c <=? 56319).
Definition is_low (c : N) : bool := (56320 <=? c) && (c <=? 57343).

(** [QuoteJSONString] without the quotes: a surrogate pair is kept, a lone
    surrogate is escaped. *)
Fixpoint quote_units (s : jsstring) : jsstring :=
  match s with
  | [] => []
  | c :: r =>
      if is_high c then
        match r with
        | d :: r' =>
            if is_low d then c :: d :: quote_units r'
            else escape_u c ++ quote_units r
        | [] => escape_u c
        end
      else if is_low c then escape_u c ++ quote_units r
      else escape_unit c ++ quote_units r
  end.

Definition quoteJSON (s : jsstring) : jsstring :=
  Ch.quote :: quote_units s ++ [Ch.quote].

Fixpoint JSON_stringify (v : json) : jsstring :=
  match v with
  | JNull => lit "null"
  | JBool true => lit "true"
  | JBool false => lit "false"
  | JNum l => l
  | JStr s => quoteJSON s
  | JArr l =>
      Ch.lbracket :: join [Ch.comma] (map JSON_stringify l) ++ [Ch.rbracket]
  | JObj o =>
      Ch.lbrace
      :: join [Ch.comma]
           (map (λ '(k, w), quoteJSON k ++ Ch.colon :: JSON_stringify w) o)
      ++ [Ch.rbrace]
  end.

(** ** The viewport rectangle *)

Module VP.
Record t (A : Type) : Type := mk { x : A; y : A; width : A; height : A }.
Arguments mk {A}.
Arguments x {A}.
Arguments y {A}.
Arguments width {A}.
Arguments height {A}.
End VP.

Abbreviation ViewportRect := VP.t.

(** [{ x: el.x, y: el.y, width: el.width, height: el.height }] *)
Definition rect_of (el : json) : ViewportRect jsval :=
  VP.mk (prop el "x") (prop el "y") (prop el "width") (prop el "height").

(** ** [extractViewportAndElements] (the variant with tombstones) *)

Record Extracted : Type := mkExtracted {
  viewport : option (ViewportRect jsval);
  drawElements : list json;
  restoreId : jsval;
  deleteIds : gset jsstring
}.

(** [deleteIds.has(v)] for a set of strings *)
Definition has (ids : gset jsstring) (v : jsval) : bool :=
  match v with
  | Some (JStr s) => bool_decide (s ∈ ids)
  | _ => false
  end.

(** [String(el.ids ?? el.id).split(",")], each part trimmed *)
Definition delete_targets (el : json) : option (list jsstring) :=
  match String_ (nullish_or (prop el "ids") (prop el "id")) with
  | Some s => Some (trim <$> split Ch.comma s)
  | None => None
  end.

Definition extract_body (acc : Extracted) (el : json) : option Extracted :=
  match el with
  | JNull => None
  | _ =>
      if type_is el "cameraUpdate" then
        Some (mkExtracted (Some (rect_of el)) (drawElements acc)
                (restoreId acc) (deleteIds acc))
      else if type_is el "restoreCheckpoint" then
        Some (mkExtracted (viewport acc) (drawElements acc)
                (prop el "id") (deleteIds acc))
      else if type_is el "delete" then
        match delete_targets el with
        | Some ids =>
            Some (mkExtracted (viewport acc) (drawElements acc)
                    (restoreId acc) (deleteIds acc ∪ list_to_set ids))
        | None => None
        end
      else
        Some (mkExtracted (viewport acc) (drawElements acc ++ [el])
                (restoreId acc) (deleteIds acc))
  end.

Definition opacity_one : json := JNum (lit "1").

Definition targeted (ids : gset jsstring) (el : json) : bool :=
  has ids (prop el "id") || has ids (prop el "containerId").

(** [{ ...el, opacity: 1 }] for a deleted element *)
Definition tombstone (ids : gset jsstring) (el : json) : json :=
  if targeted ids el
  then JObj (obj_set (lit "opacity") opacity_one (spread (Some el)))
  else el.

Definition extractViewportAndElements (elements : list json)
  : option Extracted :=
  match for_of extract_body elements
          (mkExtracted None [] (Some JNull) ∅) with
  | Some acc =>
      let processedDraw :=
        if (0 <? size (deleteIds acc))%nat
        then tombstone (deleteIds acc) <$> drawElements acc
        else drawElements acc in
      Some (mkExtracted (viewport acc) processedDraw (restoreId acc)
              (deleteIds acc))
  | None => None
  end.

(** ** [extractViewportAndElements] of the earlier variant
    ([src/mcp-app.tsx]): two camera tags, [deleteElement], no tombstone *)

Module Legacy.

(** A [Set] in insertion order. *)
Definition set_has (s : list jsval) (v : jsval) : bool :=
  existsb (strict_equal v) s.

Definition set_add (s : list jsval) (v : jsval) : list jsval :=
  if set_has s v then s else s ++ [v].

Record Extracted : Type := mkExtracted {
  viewport : option (ViewportRect jsval);
  drawElements : list json;
  restoreId : jsval;
  deleteIds : list jsval
}.

Definition extract_body (acc : Extracted) (el : json) : option Extracted :=
  match el with
  | JNull => None
  | _ =>
      if type_is el "cameraUpdate" || type_is el "viewportUpdate" then
        Some (mkExtracted (Some (rect_of el)) (drawElements acc)
                (restoreId acc) (deleteIds acc))
      else if type_is el "restoreCheckpoint" then
        Some (mkExtracted (viewport acc) (drawElements acc)
                (prop el "id") (deleteIds acc))
      else if type_is el "deleteElement" then
        Some (mkExtracted (viewport acc) (drawElements acc) (restoreId acc)
                (set_add (deleteIds acc) (prop el "id")))
      else
        Some (mkExtracted (viewport acc) (drawElements acc ++ [el])
                (restoreId acc) (deleteIds acc))
  end.

Definition extractViewportAndElements (elements : list json)
  : option Extracted :=
  for_of extract_body elements (mkExtracted None [] (Some JNull) []).

End Legacy.

(** ** [DiagramView]: the tool-input effect (the variant with server-side
    checkpoints) *)

Definition is_null (v : json) : bool :=
  match v with JNull => true | _ => false end.

(** The array behind a value that the source iterates or filters; anything
    else throws. *)
Definition elements_of (v : jsval) : option (list json) :=
  match v with
  | Some (JArr l) => Some l
  | _ => None
  end.

(** [els.find((el) => el.type === "cameraUpdate")] *)
Fixpoint find_camera (els : list json) : option jsval :=
  match els with
  | [] => Some None
  | el :: r =>
      match el with
      | JNull => None
      | _ => if type_is el "cameraUpdate" then Some (Some el) else find_camera r
      end
  end.

(** [base.filter((el) => !ids.has(el.id) && !ids.has(el.containerId))] *)
Definition filter_untargeted (ids : gset jsstring) (base : list json)
  : option (list json) :=
  if existsb is_null base then None
  else Some (List.filter (λ el, negb (targeted ids el)) base).

(** What the effect does to the outside. *)
Inductive effect : Type :=
| playStroke (type : json)
| setCount (n : nat)
| renderSvgPreview (els : list json) (viewport : option (ViewportRect jsval))
    (base : option (list json))
| captureInitialElements (els : list json)
| onElements (els : list json).

(** The refs of the component that the effect reads and writes; the number
    of [Math.random] calls so far indexes the next random value. *)
Record View : Type := mkView {
  latestRef : list json;
  restoredRef : option (jsval * list json);
  randomCalls : nat
}.

Definition defaultVP : ViewportRect jsval :=
  VP.mk (Some (JNum (lit "0"))) (Some (JNum (lit "0")))
    (Some (JNum (lit "1024"))) (Some (JNum (lit "768"))).

(** The rectangle [renderSvgPreview] reports through [onViewport] and makes
    the target: the one it is given, or the default one. *)
Definition shownViewport (viewport : option (ViewportRect jsval))
  : ViewportRect jsval :=
  match viewport with
  | Some vp => vp
  | None => defaultVP
  end.

Section DiagramView.

(** The capabilities the component is given: the conversion of the
    drawing library, its font table entry, the checkpoint loader (an
    optional prop; a [null] result is [JNull]), the values of
    [Math.floor(Math.random() * 1e9)] in call order, and the
    [editedElements] prop. *)
Variable convertToExcalidrawElements : list json → list obj.
Variable Excalifont : jsval.
Variable loadCheckpoint : option (json → json).
Variable random : nat → N.
Variable editedElements : option (list json).

Definition pseudoTypes : gset jsstring :=
  {[ lit "cameraUpdate"; lit "delete"; lit "restoreCheckpoint" ]}.

Definition is_pseudo (el : json) : bool := has pseudoTypes (prop el "type").

Definition label_defaults : obj :=
  [(lit "textAlign", JStr (lit "center"));
   (lit "verticalAlign", JStr (lit "middle"))].

Definition withDefaults (el : json) : json :=
  if truthy (prop el "label") then
    JObj (obj_set (lit "label")
            (JObj (obj_assign label_defaults (spread (prop el "label"))))
            (spread (Some el)))
  else el.

Definition fontFamily : json :=
  default (JNum (lit "1")) (nullish_or Excalifont (Some (JNum (lit "1")))).

Definition withFont (el : obj) : json :=
  if type_is (JObj el) "text"
  then JObj (obj_set (lit "fontFamily") fontFamily el)
  else JObj el.

Definition convertRawElements (els : list json) : option (list json) :=
  if existsb is_null els then None
  else
    let pseudos := List.filter is_pseudo els in
    let real := List.filter (λ el, negb (is_pseudo el)) els in
    let converted :=
      withFont <$> convertToExcalidrawElements (withDefaults <$> real) in
    Some (converted ++ pseudos).

(** The first loop of the partial path: the restore and delete directives
    of the whole chunk. *)
Definition scan_body (acc : jsval * gset jsstring) (el : json)
  : option (jsval * gset jsstring) :=
  match el with
  | JNull => None
  | _ =>
      if type_is el "restoreCheckpoint" then Some (prop el "id", acc.2)
      else if type_is el "delete" then
        match delete_targets el with
        | Some ids => Some (acc.1, acc.2 ∪ list_to_set ids)
        | None => None
        end
      else Some acc
  end.

Definition streamDirectives (parsed : list json)
  : option (jsval * gset jsstring) :=
  for_of scan_body parsed (Some JNull, ∅).

(** [{ ...el, seed: Math.floor(Math.random() * 1e9) }] for each element,
    the [k]-th random value being the next one. *)
Definition jitter (k : nat) (els : list json) : list json :=
  imap (λ i el,
          JObj (obj_set (lit "seed") (JNum (decimal (random (k + i))))
                  (spread (Some el)))) els.

(** [drawElements[i].type ?? "rectangle"] *)
Definition stroke_type (el : json) : json :=
  default (JStr (lit "rectangle"))
    (nullish_or (prop el "type") (Some (JStr (lit "rectangle")))).

Definition nonempty {A} (l : option (list A)) : bool :=
  match l with
  | Some (_ :: _) => true
  | _ => false
  end.

(** The cached checkpoint after the load of [doStream]. *)
Definition stream_restore (streamRestoreId : jsval) (st : View)
  : option (option (jsval * list json)) :=
  let miss :=
    match restoredRef st with
    | None => true
    | Some (id, _) => negb (strict_equal id streamRestoreId)
    end in
  match miss, loadCheckpoint, streamRestoreId with
  | true, Some load, Some id =>
      let saved := load id in
      if truthy (Some saved) then
        match elements_of (prop saved "elements") with
        | Some els =>
            match convertRawElements els with
            | Some converted => Some (Some (streamRestoreId, converted))
            | None => None
            end
        | None => None
        end
      else Some (restoredRef st)
  | _, _, _ => Some (restoredRef st)
  end.

(** The camera of the base scene when the chunk has none. *)
Definition fallback_viewport (viewport : option (ViewportRect jsval))
    (base : list json) : option (option (ViewportRect jsval)) :=
  match viewport with
  | Some _ => Some viewport
  | None =>
      match find_camera base with
      | Some (Some cam) => Some (Some (rect_of cam))
      | Some None => Some None
      | None => None
      end
  end.

Definition apply_deletes (ids : gset jsstring) (base : list json)
  : option (list json) :=
  if (0 <? size ids)%nat then filter_untargeted ids base else Some base.

(** The render decision at the end of [doStream]; the same lines end
    the partial path of [src/mcp-app.tsx]. *)
Definition stream_render (viewport : option (ViewportRect jsval))
    (drawElements : list json) (base : option (list json))
    (restored : option (jsval * list json)) (st : View)
  : View * list effect :=
  if (0 <? length drawElements)%nat
     && negb (length drawElements =? length (latestRef st))%nat
  then
    let prevCount := length (latestRef st) in
    (mkView drawElements restored (randomCalls st + length drawElements),
     ((λ el, playStroke (stroke_type el)) <$> drop prevCount drawElements)
     ++ [setCount (length drawElements);
         renderSvgPreview (jitter (randomCalls st) drawElements)
           viewport base])
  else if nonempty base && (length (latestRef st) =? 0)%nat
  then
    (mkView (latestRef st) restored (randomCalls st),
     [renderSvgPreview [] viewport base])
  else (mkView (latestRef st) restored (randomCalls st), []).

Definition doStream (streamRestoreId : jsval) (streamDeleteIds : gset jsstring)
    (viewport : option (ViewportRect jsval)) (drawElements : list json)
    (st : View) : option (View * list effect) :=
  if truthy streamRestoreId then
    match stream_restore streamRestoreId st with
    | Some restored =>
        match restored with
        | Some (_, base) =>
            match fallback_viewport viewport base with
            | Some viewport' =>
                match apply_deletes streamDeleteIds base with
                | Some base' =>
                    Some (stream_render viewport' drawElements (Some base')
                            restored st)
                | None => None
                end
            | None => None
            end
        | None => Some (stream_render viewport drawElements None restored st)
        end
    | None => None
    end
  else Some (stream_render viewport drawElements None (restoredRef st) st).

(** The partial path of the effect for the chunk [str]. *)
Definition partialInput (str : jsstring) (st : View)
  : option (View * list effect) :=
  match parsePartialElements (Some str) with
  | JArr parsed =>
      match streamDirectives parsed with
      | Some (streamRestoreId, streamDeleteIds) =>
          let safe := excludeIncompleteLastItem parsed in
          match extractViewportAndElements safe with
          | Some ex =>
              doStream streamRestoreId streamDeleteIds (viewport ex)
                (drawElements ex) st
          | None => None
          end
      | None => None
      end
  | _ => None
  end.

(** The effect run on the partial inputs of one stream, one after the
    other, the refs going from run to run: the effects of all the runs. *)
Fixpoint partialInputs (chunks : list jsstring) (st : View)
  : option (list effect) :=
  match chunks with
  | [] => Some []
  | str :: rest =>
      match partialInput str st with
      | Some (st', effs) =>
          match partialInputs rest st' with
          | Some more => Some (effs ++ more)
          | None => None
          end
      | None => None
      end
  end.

(** The checkpoint base and the viewport of [doFinal]. *)
Definition final_base (ex : Extracted)
  : option (option (list json) * option (ViewportRect jsval)) :=
  match truthy (restoreId ex), loadCheckpoint, restoreId ex with
  | true, Some load, Some id =>
      let saved := load id in
      if truthy (Some saved) then
        match elements_of (prop saved "elements") with
        | Some els =>
            match fallback_viewport (viewport ex) els with
            | Some viewport' =>
                match convertRawElements els with
                | Some base =>
                    match apply_deletes (deleteIds ex) base with
                    | Some base' => Some (Some base', viewport')
                    | None => None
                    end
                | None => None
                end
            | None => None
            end
        | None => None
        end
      else Some (None, viewport ex)
  | _, _, _ => Some (None, viewport ex)
  end.

Definition doFinal (ex : Extracted) (st : View)
  : option (View * list effect) :=
  match final_base ex with
  | Some (base, viewport') =>
      match convertRawElements (drawElements ex) with
      | Some convertedNew =>
          let allConverted :=
            match base with
            | Some b => b ++ convertedNew
            | None => convertedNew
            end in
          Some (mkView (drawElements ex) (restoredRef st) (randomCalls st),
                captureInitialElements allConverted
                :: match editedElements with
                   | None =>
                       [onElements allConverted;
                        renderSvgPreview (drawElements ex) viewport' base]
                   | Some _ => []
                   end)
      | None => None
      end
  | None => None
  end.

(** The final path of the effect for the input [str]. *)
Definition finalInput (str : jsstring) (st : View)
  : option (View * list effect) :=
  match parsePartialElements (Some str) with
  | JArr parsed =>
      match extractViewportAndElements parsed with
      | Some ex => doFinal ex st
      | None => None
      end
  | _ => None
  end.

End DiagramView.

(** ** The normalisation of the viewport, on exact rationals *)

Local Open Scope Q_scope.

Definition Qlt_b (a b : Q) : bool := negb (Qle_bool b a).

(** [Math.round]: the nearest integer, a half going up. *)
Definition round (q : Q) : Q := inject_Z (Qfloor (q + (1 # 2))).

(** [Math.abs(r - 4 / 3) < 0.01] *)
Definition near_4x3 (r : Q) : bool := Qlt_b (Qabs (r - 4 / 3)) (1 # 100).

(** [vp4x3] of [applyViewBox]: the animated viewport brought to 4:3. *)
Definition vp4x3 (vp : ViewportRect Q) : ViewportRect Q :=
  let w := VP.width vp in
  let h := VP.height vp in
  let ratio := w / h in
  if near_4x3 ratio then vp
  else if Qlt_b (4 / 3) ratio
       then VP.mk (VP.x vp) (VP.y vp) w (round (w * 3 / 4))
       else VP.mk (VP.x vp) (VP.y vp) (round (h * 4 / 3)) h.

Definition EXPORT_PADDING : Q := 20.

Definition sceneToSvgViewBox (vp : ViewportRect Q) (sceneMinX sceneMinY : Q)
  : ViewportRect Q :=
  VP.mk (VP.x vp - sceneMinX + EXPORT_PADDING)
    (VP.y vp - sceneMinY + EXPORT_PADDING) (VP.width vp) (VP.height vp).

(** The base view box that [applyViewBox] stores. *)
Definition applyViewBox (animatedVP : ViewportRect Q) (minX minY : Q)
  : ViewportRect Q :=
  sceneToSvgViewBox (vp4x3 animatedVP) minX minY.

(** [fixViewBox4x3] on the numbers of the [viewBox] attribute ([None]: no
    attribute); the result is the attribute afterwards. *)
Definition fixViewBox4x3 (viewBox : option (list Q)) : option (list Q) :=
  match viewBox with
  | Some [vx; vy; vw; vh] =>
      let r := vw / vh in
      if near_4x3 r then viewBox
      else if Qlt_b (4 / 3) r then
        let h2 := round (vw * 3 / 4) in
        Some [vx; vy - round ((h2 - vh) / 2); vw; h2]
      else
        let w2 := round (vh * 4 / 3) in
        Some [vx - round ((w2 - vw) / 2); vy; w2; vh]
  | _ => viewBox
  end.

Definition rect_eq (a b : ViewportRect Q) : Prop :=
  VP.x a == VP.x b ∧ VP.y a == VP.y b
  ∧ VP.width a == VP.width b ∧ VP.height a == VP.height b.

Local Close Scope Q_scope.

(** ** The animation of the viewport, on binary64 numbers *)

Definition LERP_SPEED : Num.t := Num.of_Q (3 # 100).

(** [a += (t - a) * LERP_SPEED] *)
Definition lerp (a t : Num.t) : Num.t :=
  Num.add a (Num.mul (Num.sub t a) LERP_SPEED).

Definition lerp_rect (a t : ViewportRect Num.t) : ViewportRect Num.t :=
  VP.mk (lerp (VP.x a) (VP.x t)) (lerp (VP.y a) (VP.y t))
    (lerp (VP.width a) (VP.width t)) (lerp (VP.height a) (VP.height t)).

(** [delta] of [animateViewBox] *)
Definition delta (a t : ViewportRect Num.t) : Num.t :=
  Num.add
    (Num.add
       (Num.add (Num.abs (Num.sub (VP.x t) (VP.x a)))
          (Num.abs (Num.sub (VP.y t) (VP.y a))))
       (Num.abs (Num.sub (VP.width t) (VP.width a))))
    (Num.abs (Num.sub (VP.height t) (VP.height a))).

(** The animation refs, and whether a frame callback is pending. *)
Record Animation : Type := mkAnimation {
  animatedVP : option (ViewportRect Num.t);
  targetVP : option (ViewportRect Num.t);
  pendingFrame : bool
}.

(** One run of the frame callback. *)
Definition animateViewBox (s : Animation) : Animation :=
  match animatedVP s, targetVP s with
  | Some a, Some t =>
      let a' := lerp_rect a t in
      mkAnimation (Some a') (Some t)
        (Num.gtb (delta a' t) (Num.Fin (1 # 2)))
  | _, _ => mkAnimation (animatedVP s) (targetVP s) false
  end.

(** The browser runs the pending callback, frame after frame, [fuel] frames
    at most; the result counts the runs. *)
Fixpoint frames (fuel : nat) (s : Animation) : nat * Animation :=
  match fuel with
  | O => (O, s)
  | S fuel' =>
      if pendingFrame s then
        let '(k, s') := frames fuel' (animateViewBox s) in (S k, s')
      else (O, s)
  end.

(** The animation that [renderSvgPreview] starts. *)
Definition start_animation (current target : ViewportRect Num.t) : Animation :=
  mkAnimation (Some current) (Some target) true.

(** ** [MemoryCheckpointStore] ([checkpoint-store.ts]) *)

Module MemoryCheckpointStore.

(** [memoryStore.set(id, JSON.stringify(data))] *)
Definition save (id : jsstring) (data : json)
    (memoryStore : gmap jsstring jsstring) : gmap jsstring jsstring :=
  <[id := JSON_stringify data]> memoryStore.

(** [load]: [JNull] is the [null] result. *)
Definition load (id : jsstring) (memoryStore : gmap jsstring jsstring)
  : json :=
  match memoryStore !! id with
  | None => JNull
  | Some raw =>
      if bool_decide (raw = []) then JNull
      else match JSON_parse raw with
           | Some v => v
           | None => JNull
           end
  end.

Definition save_all (saves : list (jsstring * json))
    (memoryStore : gmap jsstring jsstring) : gmap jsstring jsstring :=
  fold_left (λ m s, save s.1 s.2 m) saves memoryStore.

End MemoryCheckpointStore.

(** A value that [JSON.stringify] writes back as it is: number literals are
    valid, the keys of an object are distinct. *)
Fixpoint serializable (v : json) : bool :=
  match v with
  | JNull | JBool _ | JStr _ => true
  | JNum l => valid_number l
  | JArr l => forallb serializable l
  | JObj o =>
      bool_decide (NoDup (map fst o))
      && forallb (λ '(_, w), serializable w) o
  end.
(** ** Notions used to state the properties *)

(** The trimmed string starts with an opening bracket: the first code unit
    that is not white space is ["["]. *)
Definition starts_with_bracket (s : jsstring) : Prop :=
  ∃ w r, Forall (λ c, is_js_space c = true) w ∧ s = w ++ Ch.lbracket :: r.

(** The recovery algorithm in the words of the specification. *)
Inductive recovers (s : jsstring) : json → Prop :=
| recovers_not_array :
    ¬ starts_with_bracket s → recovers s (JArr [])
| recovers_full v :
    starts_with_bracket s → JSON_parse s = Some v → recovers s v
| recovers_no_brace :
    starts_with_bracket s → JSON_parse s = None → Ch.rbrace ∉ s →
    recovers s (JArr [])
| recovers_cut p q v :
    starts_with_bracket s → JSON_parse s = None →
    s = p ++ Ch.rbrace :: q → Ch.rbrace ∉ q →
    JSON_parse (p ++ [Ch.rbrace; Ch.rbracket]) = Some v →
    recovers s v
| recovers_cut_fails p q :
    starts_with_bracket s → JSON_parse s = None →
    s = p ++ Ch.rbrace :: q → Ch.rbrace ∉ q →
    JSON_parse (p ++ [Ch.rbrace; Ch.rbracket]) = None →
    recovers s (JArr []).

(** The outermost open container is an array that already holds [l]. *)
Definition bottom_arr (l : list json) (stk : list frame) : Prop :=
  ∃ d, last stk = Some (FArr d) ∧ l `prefix_of` d.

Definition stack_of (st : pstate) : list frame :=
  match st with
  | PExp _ stk | PStr _ _ _ stk | PNum _ stk | PLit _ _ stk => stk
  | PDone _ => []
  end.

(** The text read so far opened a top-level array whose first elements are
    [l], whatever comes next. *)
Definition holds (l : list json) (st : pstate) : Prop :=
  match st with
  | PDone v => ∃ d, v = JArr d ∧ l `prefix_of` d
  | _ => bottom_arr l (stack_of st)
  end.

Definition is_object (v : json) : bool :=
  match v with JObj _ => true | _ => false end.

(** The truncation property with a strict prefix: every proper prefix of
    the text of an array of objects recovers to a strict prefix of the
    array, or to nothing. *)
Definition truncation_gives_strict_prefix : Prop :=
  ∀ (s t : jsstring) (arr : list json),
    JSON_parse s = Some (JArr arr) →
    Forall (λ v, is_object v = true) arr →
    t `prefix_of` s → t ≠ s →
    ∃ l, parsePartialElements (Some t) = JArr l
         ∧ ((l `prefix_of` arr ∧ l ≠ arr) ∨ l = []).

(** The four buckets of the classifier. *)
Inductive kind : Type := KViewport | KRestore | KDelete | KDrawable.

#[global] Instance kind_eq_dec : EqDecision kind.
Proof. solve_decision. Defined.

(** The bucket of an element, by its type tag. *)
Definition tag_kind (camera2 delete : string) (el : json) : kind :=
  match prop el "type" with
  | Some (JStr s) =>
      if decide (s = lit "cameraUpdate") then KViewport
      else if decide (s = lit camera2) then KViewport
      else if decide (s = lit "restoreCheckpoint") then KRestore
      else if decide (s = lit delete) then KDelete
      else KDrawable
  | _ => KDrawable
  end.

Definition kind_of : json → kind := tag_kind "cameraUpdate" "delete".

Definition of_kind (f : json → kind) (k : kind) (els : list json) : list json :=
  List.filter (λ el, bool_decide (f el = k)) els.

Module LegacyKind.
Definition kind_of : json → kind := tag_kind "viewportUpdate" "deleteElement".
End LegacyKind.

(** The feedback signals and the render calls among the effects, in order. *)
Definition strokes (effs : list effect) : list json :=
  omap (λ e, match e with playStroke ty => Some ty | _ => None end) effs.

Definition renders (effs : list effect)
  : list (list json * option (ViewportRect jsval) * option (list json)) :=
  omap (λ e, match e with
             | renderSvgPreview els vp base => Some (els, vp, base)
             | _ => None
             end) effs.

(** The render decisions of [doStream] for the chunks of one stream, run
    after run: each chunk with its viewport, its drawables, its base and
    the checkpoint held after its load step; the effects of each run. *)
Fixpoint stream_renders (random : nat → N)
    (chunks : list (option (ViewportRect jsval) * list json
                    * option (list json) * option (jsval * list json)))
    (st : View) : list (list effect) :=
  match chunks with
  | [] => []
  | (vp, draw, base, restored) :: rest =>
      let r := stream_render random vp draw base restored st in
      r.2 :: stream_renders random rest r.1
  end.

(** A render of the base alone: [renderSvgPreview([], viewport, base)] with
    a base that is not empty. *)
Definition base_alone (e : effect) : bool :=
  match e with
  | renderSvgPreview [] _ (Some (_ :: _)) => true
  | _ => false
  end.

(** In one stream the base is rendered alone once at most. *)
Definition base_rendered_alone_once : Prop :=
  ∀ (convertToExcalidrawElements : list json → list obj) (Excalifont : jsval)
    (loadCheckpoint : option (json → json)) (random : nat → N)
    (chunks : list jsstring) (st : View) (effs : list effect),
    partialInputs convertToExcalidrawElements Excalifont loadCheckpoint random
      chunks st = Some effs →
    (length (List.filter base_alone effs) ≤ 1)%nat.

(** The identifier or the container reference of [el] is in the set. *)
Definition is_target (ids : gset jsstring) (el : json) : Prop :=
  (∃ s, prop el "id" = Some (JStr s) ∧ s ∈ ids)
  ∨ (∃ s, prop el "containerId" = Some (JStr s) ∧ s ∈ ids).

(** [c] is [p] without the white space at its two ends. *)
Definition stripped (p c : jsstring) : Prop :=
  ∃ w1 w2,
    Forall (λ u, is_js_space u = true) w1
    ∧ Forall (λ u, is_js_space u = true) w2
    ∧ p = w1 ++ c ++ w2
    ∧ match c with u :: _ => is_js_space u = false | [] => True end
    ∧ match last c with Some u => is_js_space u = false | None => True end.

(** The delete directive [el] names the identifier [s]: the text of
    [el.ids], or of [el.id] when [ids] is absent or [null], is made of parts
    with commas between them, and [s] is one of the parts without the white
    space at its ends. *)
Definition names (el : json) (s : jsstring) : Prop :=
  ∃ parts p,
    String_ (nullish_or (prop el "ids") (prop el "id"))
    = Some (join [Ch.comma] parts)
    ∧ parts ≠ [] ∧ Forall (λ q, Ch.comma ∉ q) parts
    ∧ p ∈ parts ∧ stripped p s.

(** The classifier with tombstones cannot take [el]: it is [null], or a
    delete directive whose identifiers have no text. *)
Definition rejected (el : json) : Prop :=
  el = JNull
  ∨ (kind_of el = KDelete
     ∧ String_ (nullish_or (prop el "ids") (prop el "id")) = None).

Definition throws (el : json) : bool :=
  is_null el
  || (bool_decide (kind_of el = KDelete)
      && bool_decide (delete_targets el = None)).

(** [d] is the drawable [el] as the classifier with tombstones gives it
    back: [el] itself, or [el] with its opacity set to 1. *)
Definition kept (d el : json) : Prop :=
  d = el
  ∨ ∃ o, el = JObj o ∧ d = JObj (obj_set (lit "opacity") (JNum (lit "1")) o).

(** [a] and [b] are one member of a [Set]. *)
Definition same_member (a b : jsval) : Prop :=
  a = b ∨ strict_equal a b = true.

(** Deletion as a tombstone, said of the classifier of [src/mcp-app.tsx]:
    a drawable whose identifier is in the delete set is in the result, at
    its place, with the opacity 1. *)
Definition legacy_deletion_is_a_tombstone : Prop :=
  ∀ (els : list json) (ex : Legacy.Extracted),
    Legacy.extractViewportAndElements els = Some ex →
    ∀ i el,
      of_kind LegacyKind.kind_of KDrawable els !! i = Some el →
      Legacy.set_has (Legacy.deleteIds ex) (prop el "id") = true →
      ∃ d, Legacy.drawElements ex !! i = Some d
           ∧ prop d "opacity" = Some (JNum (lit "1")).

(** The result of the classifier of [src/mcp-app.tsx] and of the one with
    tombstones, from the buckets. *)
Definition classified (els : list json) : Extracted :=
  let ids : gset jsstring :=
    ⋃ ((λ el, list_to_set (default [] (delete_targets el)))
         <$> of_kind kind_of KDelete els) in
  mkExtracted
    (last (rect_of <$> of_kind kind_of KViewport els))
    (tombstone ids <$> of_kind kind_of KDrawable els)
    (default (Some JNull)
       (last ((λ el, prop el "id") <$> of_kind kind_of KRestore els)))
    ids.

Definition legacy_classified (els : list json) : Legacy.Extracted :=
  Legacy.mkExtracted
    (last (rect_of <$> of_kind LegacyKind.kind_of KViewport els))
    (of_kind LegacyKind.kind_of KDrawable els)
    (default (Some JNull)
       (last ((λ el, prop el "id") <$> of_kind LegacyKind.kind_of KRestore els)))
    (fold_left Legacy.set_add
       ((λ el, prop el "id") <$> of_kind LegacyKind.kind_of KDelete els) []).

(** The normalisation to exactly 4:3: outside the tolerance the result has
    the ratio 4:3, the longer side is kept and the other one grows. *)
Definition normalises_to_exact_4x3 : Prop :=
  ∀ vp : ViewportRect Q,
    (0 < VP.width vp)%Q → (0 < VP.height vp)%Q →
    near_4x3 (VP.width vp / VP.height vp) = false →
    (VP.width (vp4x3 vp) / VP.height (vp4x3 vp) == 4 / 3)%Q
    ∧ ((4 / 3 < VP.width vp / VP.height vp)%Q →
         VP.width (vp4x3 vp) = VP.width vp
         ∧ (VP.height vp <= VP.height (vp4x3 vp))%Q)
    ∧ ((VP.width vp / VP.height vp < 4 / 3)%Q →
         VP.height (vp4x3 vp) = VP.height vp
         ∧ (VP.width vp <= VP.width (vp4x3 vp))%Q).

(** A rectangle of finite numbers. *)
Definition fin_rect (r : ViewportRect Q) : ViewportRect Num.t :=
  VP.mk (Num.Fin (VP.x r)) (Num.Fin (VP.y r)) (Num.Fin (VP.width r))
    (Num.Fin (VP.height r)).

(** The total difference between two rectangles, without rounding. *)
Definition distance (a t : ViewportRect Q) : Q :=
  (Qabs (VP.x t - VP.x a) + Qabs (VP.y t - VP.y a)
   + Qabs (VP.width t - VP.width a) + Qabs (VP.height t - VP.height a))%Q.

(** The four fields are at most [b] in absolute value. *)
Definition within (b : Q) (r : ViewportRect Q) : Prop :=
  (Qabs (VP.x r) <= b ∧ Qabs (VP.y r) <= b
   ∧ Qabs (VP.width r) <= b ∧ Qabs (VP.height r) <= b)%Q.

(** Each field of [a] is at most [b] away from that of [t]. *)
Definition apart (b : Q) (a t : ViewportRect Q) : Prop :=
  (Qabs (VP.x t - VP.x a) <= b ∧ Qabs (VP.y t - VP.y a) <= b
   ∧ Qabs (VP.width t - VP.width a) <= b
   ∧ Qabs (VP.height t - VP.height a) <= b)%Q.

(** The four fields are binary64 numbers. *)
Definition is_binary64 (r : ViewportRect Q) : Prop :=
  Num.of_Q (VP.x r) = Num.Fin (VP.x r)
  ∧ Num.of_Q (VP.y r) = Num.Fin (VP.y r)
  ∧ Num.of_Q (VP.width r) = Num.Fin (VP.width r)
  ∧ Num.of_Q (VP.height r) = Num.Fin (VP.height r).

(** A number of frames that is enough for rectangles within [2 ^ 40]:
    three times the total difference over 0.03, rounded up, plus one. *)
Definition frame_bound (current target : ViewportRect Q) : nat :=
  S (Z.to_nat (Qceiling (3 * distance current target / (3 # 100)))).

(** From every pair of rectangles the animation stops. *)
Definition animation_stops_from_any_pair : Prop :=
  ∀ a t : ViewportRect Q,
    is_binary64 a → is_binary64 t →
    ∃ fuel,
      pendingFrame (frames fuel (start_animation (fin_rect a) (fin_rect t))).2
      = false.

(** Reading the text of [v] in a place where a value may start amounts to
    receiving [v]; after a number, the text must go on with a code unit
    that is not part of a number. *)
Definition number_delim (v : json) (rest : jsstring) : Prop :=
  match v with
  | JNum _ => ∃ d r, rest = d :: r ∧ is_numchar d = false
  | _ => True
  end.

Definition reads_back (v : json) : Prop :=
  serializable v = true →
  ∀ e stk rest,
    e = EValue ∨ e = EValueOrEnd → number_delim v rest →
    steps (PExp e stk) (JSON_stringify v ++ rest)
    = match push_value v stk with
      | Some st => steps st rest
      | None => None
      end.

(** A state between tokens. *)
Definition idle (st : pstate) : Prop :=
  match st with
  | PExp _ _ | PDone _ => True
  | _ => False
  end.

(** * Further parts of the program *)

(** More of the front end and of the server: how the tool-input effect
    starts, the user zoom, the scene bounds, the viewport that a render
    shows, the checkpoint loader, the file and Redis stores with the choice
    between the stores, the request handler, and the final path of the
    earlier variant.

    Further conventions.
    - The numbers of the zoom and of the view boxes are exact rationals,
      as those of the normalisation of the viewport; a division by zero,
      which gives [Infinity] or [NaN] in JavaScript, is excluded by a
      hypothesis where a property depends on it.
    - [computeSceneBounds] works on binary64 numbers; the number that the
      runtime reads in a string is a parameter.
    - A file holds the text that reading it gives: what was written, after
      the UTF-8 encoding and decoding.
    - What lies outside the program is a parameter: [path.join] and the
      file system, the answer of the Redis client, [callServerTool]. *)

(** ** [DiagramView]: how the tool-input effect starts *)

(** The text that the effect parses: [toolInput.elements] when it is a
    string, its [JSON.stringify] otherwise; [None] when the effect returns
    at once (no tool input, or no elements). *)
Definition elementsText (toolInput : jsval) : option jsstring :=
  match toolInput with
  | Some ti =>
      if truthy toolInput then
        let raw := prop ti "elements" in
        if truthy raw then
          match raw with
          | Some (JStr s) => Some s
          | Some v => Some (JSON_stringify v)
          | None => None
          end
        else None
      else None
  | None => None
  end.

(** ** User zoom: [applyZoom] and the wheel and double-click handlers *)

Local Open Scope Q_scope.

Definition Math_max (a b : Q) : Q := if Qle_bool a b then b else a.
Definition Math_min (a b : Q) : Q := if Qle_bool a b then a else b.

(** [zoomRef.current] *)
Module Zoom.
Record t : Type := mk { scale : Q; panX : Q; panY : Q }.
End Zoom.

(** The fields of a [WheelEvent] that the handler reads. *)
Module Wheel.
Record t : Type := mk {
  ctrlKey : bool; metaKey : bool;
  deltaX : Q; deltaY : Q; clientX : Q; clientY : Q
}.
End Wheel.

(** The container: its bounding client rectangle and its client size. *)
Module Box.
Record t : Type := mk {
  left : Q; top : Q; width : Q; height : Q;
  clientWidth : Q; clientHeight : Q
}.
End Box.

(** [applyZoom]: the view box it sets, from the stored base view box (a
    rectangle [x y w h]) and the user zoom; [None] when it returns without
    setting one ([svg]: the container holds an SVG element). *)
Definition applyZoom (svg : bool) (baseViewBox : option (ViewportRect Q))
    (zoom : Zoom.t) : option (ViewportRect Q) :=
  match baseViewBox with
  | Some b =>
      if svg then
        let zw := VP.width b / Zoom.scale zoom in
        let zh := VP.height b / Zoom.scale zoom in
        Some (VP.mk (VP.x b + (VP.width b - zw) / 2 + Zoom.panX zoom)
                (VP.y b + (VP.height b - zh) / 2 + Zoom.panY zoom) zw zh)
      else None
  | None => None
  end.

(** [handleWheel]: the zoom afterwards, whether the default action was
    prevented, and the view box set. *)
Definition handleWheel (container : Box.t) (svg : bool)
    (baseViewBox : option (ViewportRect Q)) (zoom : Zoom.t) (e : Wheel.t)
  : Zoom.t * bool * option (ViewportRect Q) :=
  let isZoomGesture := Wheel.ctrlKey e || Wheel.metaKey e in
  let isZoomedIn := Qlt_b (1 # 100) (Qabs (Zoom.scale zoom - 1)) in
  if negb isZoomGesture && negb isZoomedIn then (zoom, false, None)
  else
    let zoom' :=
      if isZoomGesture then
        let factor := if Qlt_b 0 (Wheel.deltaY e) then 97 # 100 else 103 # 100 in
        let newScale := Math_max (1 # 4) (Math_min 8 (Zoom.scale zoom * factor)) in
        match baseViewBox with
        | Some b =>
            let mx := (Wheel.clientX e - Box.left container) / Box.width container in
            let my := (Wheel.clientY e - Box.top container) / Box.height container in
            Zoom.mk newScale
              (Zoom.panX zoom
               + VP.width b * (1 / newScale - 1 / Zoom.scale zoom) * ((1 # 2) - mx))
              (Zoom.panY zoom
               + VP.height b * (1 / newScale - 1 / Zoom.scale zoom) * ((1 # 2) - my))
        | None => Zoom.mk newScale (Zoom.panX zoom) (Zoom.panY zoom)
        end
      else
        match baseViewBox with
        | Some b =>
            Zoom.mk (Zoom.scale zoom)
              (Zoom.panX zoom
               + Wheel.deltaX e / Box.clientWidth container
                 * (VP.width b / Zoom.scale zoom))
              (Zoom.panY zoom
               + Wheel.deltaY e / Box.clientHeight container
                 * (VP.height b / Zoom.scale zoom))
        | None => zoom
        end in
    (zoom', true, applyZoom svg baseViewBox zoom').

Definition noZoom : Zoom.t := Zoom.mk 1 0 0.

(** [handleDblClick] *)
Definition handleDblClick (svg : bool) (baseViewBox : option (ViewportRect Q))
  : Zoom.t * option (ViewportRect Q) :=
  (noZoom, applyZoom svg baseViewBox noZoom).

(** A pointer event on the container, with the container, the SVG and the
    base view box as they are when it arrives. *)
Inductive pointerEvent : Type :=
| WheelEvent (container : Box.t) (svg : bool)
    (baseViewBox : option (ViewportRect Q)) (e : Wheel.t)
| DblClick (svg : bool) (baseViewBox : option (ViewportRect Q)).

Definition zoomAfter (zoom : Zoom.t) (ev : pointerEvent) : Zoom.t :=
  match ev with
  | WheelEvent container svg base e => (handleWheel container svg base zoom e).1.1
  | DblClick svg base => (handleDblClick svg base).1
  end.

(** The zoom after a run of events, from the initial one. *)
Definition zoomAfterAll (evs : list pointerEvent) : Zoom.t :=
  fold_left zoomAfter evs noZoom.

Local Close Scope Q_scope.

(** ** [computeSceneBounds] *)

(** [v[i]] for an index [i]; [None] is the [TypeError] on [null]. *)
Definition at_index (v : json) (i : nat) : option jsval :=
  match v with
  | JNull => None
  | JArr l => Some (l !! i)
  | JStr s => Some ((λ c, JStr [c]) <$> s !! i)
  | JObj o => Some (obj_get o (index_key i))
  | JBool _ | JNum _ => Some None
  end.

Section SceneBounds.

(** The number that the runtime reads in a string ([Number(s)]), which
    the embedding does not spell out. *)
Variable StringToNumber : jsstring → Num.t.

(** [Number(v)]: an array or an object is first turned into a string;
    [None] is the [TypeError] of that step. *)
Definition ToNumber (v : jsval) : option Num.t :=
  match v with
  | None => Some Num.NaN
  | Some JNull => Some (Num.Fin 0)
  | Some (JBool b) => Some (Num.Fin (if b then 1 else 0))
  | Some (JNum l) => Some (number_value l)
  | Some (JStr s) => Some (StringToNumber s)
  | Some (JArr _ as w) | Some (JObj _ as w) => StringToNumber <$> ToString w
  end.

(** The operand of [+] becomes a string. *)
Definition is_textual (v : jsval) : bool :=
  match v with
  | Some (JStr _) | Some (JArr _) | Some (JObj _) => true
  | _ => false
  end.

(** [Number(a + b)]: [+] joins the operands as strings when one of them
    becomes a string, and adds them as numbers otherwise. *)
Definition plus (a b : jsval) : option Num.t :=
  if is_textual a || is_textual b then
    match String_ a, String_ b with
    | Some sa, Some sb => Some (StringToNumber (sa ++ sb))
    | _, _ => None
    end
  else
    match ToNumber a, ToNumber b with
    | Some na, Some nb => Some (Num.add na nb)
    | _, _ => None
    end.

Definition bounds_point (x y : jsval) (acc : Num.t * Num.t) (pt : json)
  : option (Num.t * Num.t) :=
  match at_index pt 0, at_index pt 1 with
  | Some p0, Some p1 =>
      match plus x p0, plus y p1 with
      | Some px, Some py => Some (Num.min acc.1 px, Num.min acc.2 py)
      | _, _ => None
      end
  | _, _ => None
  end.

Definition bounds_body (acc : Num.t * Num.t) (el : json)
  : option (Num.t * Num.t) :=
  match el with
  | JNull => None
  | _ =>
      let x := prop el "x" in
      let y := prop el "y" in
      match x with
      | None | Some JNull => Some acc
      | _ =>
          match ToNumber x, ToNumber y with
          | Some nx, Some ny =>
              let acc' := (Num.min acc.1 nx, Num.min acc.2 ny) in
              match prop el "points" with
              | Some (JArr points) => for_of (bounds_point x y) points acc'
              | _ => Some acc'
              end
          | _, _ => None
          end
      end
  end.

(** [computeSceneBounds]: [(minX, minY)]. *)
Definition computeSceneBounds (elements : list json) : option (Q * Q) :=
  match for_of bounds_body elements (Num.PosInf, Num.PosInf) with
  | Some (minX, minY) =>
      Some (Num.finite_or_zero minX, Num.finite_or_zero minY)
  | None => None
  end.

End SceneBounds.

(** ** [renderSvgPreview]: the viewport after the export *)

Definition defaultViewport : ViewportRect Num.t :=
  VP.mk (Num.Fin 0) (Num.Fin 0) (Num.Fin 1024) (Num.Fin 768).

(** The last step of [renderSvgPreview], for a viewport whose fields are
    numbers: the animation refs afterwards (a first viewport is taken at
    once, a later one becomes the target; without a viewport the target is
    cleared and the frame request cancelled), and the rectangle given to
    [onViewport]. *)
Definition presentViewport (viewport : option (ViewportRect Num.t))
    (s : Animation) : Animation * ViewportRect Num.t :=
  match viewport with
  | Some vp =>
      (mkAnimation (Some (default vp (animatedVP s))) (Some vp) true, vp)
  | None =>
      (mkAnimation (Some (default defaultViewport (animatedVP s))) None false,
       defaultViewport)
  end.

(** ** The checkpoint loader that [ExcalidrawAppCore] gives to
    [DiagramView] *)

(** The request of the [read_checkpoint] tool. *)
Definition read_checkpoint_call (id : json) : json :=
  JObj [(lit "name", JStr (lit "read_checkpoint"));
        (lit "arguments", JObj [(lit "id", id)])].

(** [loadCheckpoint]: [app] is [appRef.current] as its [callServerTool]
    ([None] from it is a rejection); [JNull] is the [null] result. *)
Definition loadCheckpoint_of (app : option (json → option json)) (id : json)
  : json :=
  match app with
  | None => JNull
  | Some callServerTool =>
      match callServerTool (read_checkpoint_call id) with
      | Some result =>
          match result, prop result "content" with
          | JNull, _ | _, None | _, Some JNull => JNull
          | _, Some content =>
              match at_index content 0 with
              | Some first =>
                  let text :=
                    match first with
                    | None | Some JNull => None
                    | Some item => prop item "text"
                    end in
                  if truthy text
                  then default JNull (String_ text ≫= JSON_parse)
                  else JNull
              | None => JNull
              end
          end
      | None => JNull
      end
  end.

(** ** The other checkpoint stores ([checkpoint-store.ts]) *)

(** What a string becomes when it is written as UTF-8 and read back: a
    surrogate pair is kept, a lone surrogate becomes U+FFFD. *)
Fixpoint utf8_round_trip (s : jsstring) : jsstring :=
  match s with
  | [] => []
  | c :: r =>
      if is_high c then
        match r with
        | d :: r' =>
            if is_low d then c :: d :: utf8_round_trip r'
            else 65533 :: utf8_round_trip r
        | [] => [65533]
        end
      else if is_low c then 65533 :: utf8_round_trip r
      else c :: utf8_round_trip r
  end.

Module FileCheckpointStore.

Section Files.

(** [path.join], the directory of the store, and whether a path can be
    written: the file system outside the files themselves. *)
Variable path_join : jsstring → jsstring → jsstring.
Variable dir : jsstring.
Variable writable : jsstring → bool.

Definition file (id : jsstring) : jsstring :=
  path_join dir (id ++ lit ".json").

(** [save]: the files afterwards, as the texts that reading them
    gives; [None] is the rejection of [writeFile]. *)
Definition save (id : jsstring) (data : json)
    (files : gmap jsstring jsstring) : option (gmap jsstring jsstring) :=
  if writable (file id)
  then Some (<[file id := utf8_round_trip (JSON_stringify data)]> files)
  else None.

(** [load]: [JNull] is the [null] result. *)
Definition load (id : jsstring) (files : gmap jsstring jsstring) : json :=
  match files !! file id with
  | Some raw =>
      match JSON_parse raw with
      | Some v => v
      | None => JNull
      end
  | None => JNull
  end.

End Files.

End FileCheckpointStore.

Module RedisCheckpointStore.

Definition REDIS_TTL_SECONDS : N := 30 * 24 * 60 * 60.

Definition key (id : jsstring) : jsstring := lit "cp:" ++ id.

(** [process.env] *)
Definition env_var (env : gmap string jsstring) (name : string) : jsval :=
  JStr <$> env !! name.

(** The URL and the token of [getRedis]; [None] is the thrown error. *)
Definition getRedis (env : gmap string jsstring)
  : option (jsstring * jsstring) :=
  let url :=
    nullish_or (env_var env "KV_REST_API_URL")
      (env_var env "UPSTASH_REDIS_REST_URL") in
  let token :=
    nullish_or (env_var env "KV_REST_API_TOKEN")
      (env_var env "UPSTASH_REDIS_REST_TOKEN") in
  if negb (truthy url) || negb (truthy token) then None
  else match url, token with
       | Some (JStr u), Some (JStr t) => Some (u, t)
       | _, _ => None
       end.

(** The command that [save] sends: the key, the text and the time to
    live in seconds. *)
Definition save (id : jsstring) (data : json) : jsstring * jsstring * N :=
  (key id, JSON_stringify data, REDIS_TTL_SECONDS).

(** [load], from what [redis.get] answered: [JNull] is the [null]
    result. *)
Definition load (raw : jsval) : json :=
  if negb (truthy raw) then JNull
  else match raw with
       | Some (JStr s) =>
           match JSON_parse s with
           | Some v => v
           | None => JNull
           end
       | Some v => v
       | None => JNull
       end.

End RedisCheckpointStore.

Inductive storeKind : Type := RedisStore | MemoryStore.

(** [createVercelStore] *)
Definition createVercelStore (env : gmap string jsstring) : storeKind :=
  if truthy (RedisCheckpointStore.env_var env "KV_REST_API_URL")
     || truthy (RedisCheckpointStore.env_var env "UPSTASH_REDIS_REST_URL")
  then RedisStore
  else MemoryStore.

(** ** The request handler of the hosted server (the module that wraps
    [createMcpHandler]) *)

(** [s.replace(pat, rep)] for a pattern and a replacement that are plain
    texts: the first occurrence is replaced. *)
Fixpoint replace_first (pat rep s : jsstring) : jsstring :=
  if startsWith s pat then rep ++ drop (length pat) s
  else match s with
       | [] => []
       | c :: r => c :: replace_first pat rep r
       end.

(** The path that [handler] gives to the URL of the request it forwards;
    [None]: the request is forwarded as it is. *)
Definition forwardedPath (pathname : jsstring) : option jsstring :=
  if startsWith pathname (lit "/api/")
  then Some (replace_first (lit "/api/") (lit "/") pathname)
  else None.

(** ** The final path of the earlier variant ([src/mcp-app.tsx]), with its
    checkpoints in [localStorage] *)

Module LegacyView.

Inductive effect : Type :=
| captureInitialElements (els : list json)
| onElements (els : list json)
| renderSvgPreview (els : list json)
    (viewport : option (ViewportRect jsval)) (base : jsval).

(** The items of [...s] for a string: its code points. *)
Fixpoint code_points (s : jsstring) : list json :=
  match s with
  | [] => []
  | c :: r =>
      if is_high c then
        match r with
        | d :: r' =>
            if is_low d then JStr [c; d] :: code_points r'
            else JStr [c] :: code_points r
        | [] => [JStr [c]]
        end
      else JStr [c] :: code_points r
  end.

(** [[...v]]; [None]: [v] is not iterable. *)
Definition spread_items (v : json) : option (list json) :=
  match v with
  | JArr l => Some l
  | JStr s => Some (code_points s)
  | _ => None
  end.

(** [`checkpoint:${id}`]; [None] is the [TypeError] of [String]. *)
Definition checkpointKey (id : jsval) : option jsstring :=
  (λ s, lit "checkpoint:" ++ s) <$> String_ id.

(** [base.filter((el) => !deleteIds.has(el.id))] *)
Definition filter_by_id (deleteIds : list jsval) (base : json)
  : option json :=
  match base with
  | JArr l =>
      if existsb is_null l then None
      else Some (JArr (List.filter
                         (λ el, negb (Legacy.set_has deleteIds (prop el "id")))
                         l))
  | _ => None
  end.

(** The checkpoint base of the final path: [Some None] is a base left
    [undefined]. *)
Definition final_base (restoreId : jsval) (deleteIds : list jsval)
    (localStorage : gmap jsstring jsstring) : option jsval :=
  if truthy restoreId then
    match checkpointKey restoreId with
    | Some key =>
        let base : jsval :=
          match localStorage !! key with
          | Some saved =>
              if bool_decide (saved = []) then None else JSON_parse saved
          | None => None
          end in
        if truthy base && (0 <? length deleteIds)%nat then
          match base with
          | Some b => Some <$> filter_by_id deleteIds b
          | None => Some None
          end
        else Some base
    | None => None
    end
  else Some None.

Section Final.

Variable convertToExcalidrawElements : list json → list obj.
Variable Excalifont : jsval.
Variable editedElements : option (list json).

Definition convertNew (drawElements : list json) : list json :=
  withFont Excalifont
    <$> convertToExcalidrawElements (withDefaults <$> drawElements).

(** The final path after the classifier: the drawn elements kept in
    [latestRef], and the effects. *)
Definition doFinal (ex : Legacy.Extracted)
    (localStorage : gmap jsstring jsstring)
  : option (list json * list effect) :=
  match final_base (Legacy.restoreId ex) (Legacy.deleteIds ex)
          localStorage with
  | Some base =>
      let convertedNew := convertNew (Legacy.drawElements ex) in
      let allConverted :=
        if truthy base then
          match base with
          | Some b => (λ l, l ++ convertedNew) <$> spread_items b
          | None => None
          end
        else Some convertedNew in
      match allConverted with
      | Some all =>
          Some (Legacy.drawElements ex,
                captureInitialElements all
                :: match editedElements with
                   | None => [onElements all]
                   | Some _ => []
                   end
                ++ [renderSvgPreview (Legacy.drawElements ex)
                      (Legacy.viewport ex) base])
      | None => None
      end
  | None => None
  end.

End Final.

(** [app.ontoolresult]: the storage afterwards; [elements] is
    [elementsRef.current], [stored] tells whether [setItem] succeeds.
    [None]: the result is [null]. *)
Definition ontoolresult (result : json) (elements : list json)
    (stored : bool) (localStorage : gmap jsstring jsstring)
  : option (gmap jsstring jsstring) :=
  match result with
  | JNull => None
  | _ =>
      let cpId :=
        match prop result "structuredContent" with
        | None | Some JNull => None
        | Some sc => prop sc "checkpointId"
        end in
      if truthy cpId && (0 <? length elements)%nat && stored
      then match checkpointKey cpId with
           | Some key =>
               Some (<[key := JSON_stringify (JArr elements)]> localStorage)
           | None => Some localStorage
           end
      else Some localStorage
  end.

End LegacyView.

(** ** Notions used to state the further properties *)

(** The fallback to the camera of the base, said of the final path of the
    earlier variant: without a viewport directive, the viewport of the
    render is the rectangle of a camera record of the base. *)
Definition legacy_restore_uses_base_camera : Prop :=
  ∀ (convertToExcalidrawElements : list json → list obj) (Excalifont : jsval)
    (editedElements : option (list json)) (ex : Legacy.Extracted)
    (localStorage : gmap jsstring jsstring) (base : list json) (cam : json)
    (latest : list json) (effs : list LegacyView.effect)
    (els : list json) (vp : option (ViewportRect jsval)) (b : jsval),
    Legacy.viewport ex = None →
    LegacyView.final_base (Legacy.restoreId ex) (Legacy.deleteIds ex)
      localStorage = Some (Some (JArr base)) →
    cam ∈ base → type_is cam "cameraUpdate" = true →
    LegacyView.doFinal convertToExcalidrawElements Excalifont editedElements
      ex localStorage = Some (latest, effs) →
    LegacyView.renderSvgPreview els vp b ∈ effs →
    vp = Some (VP.mk (prop cam "x") (prop cam "y") (prop cam "width")
                 (prop cam "height")).

Local Open Scope Q_scope.

(** The point of the view box at the fractions [fx] and [fy] of its width
    and height. *)
Definition point_at (vb : ViewportRect Q) (fx fy : Q) : Q * Q :=
  (VP.x vb + fx * VP.width vb, VP.y vb + fy * VP.height vb).

Local Close Scope Q_scope.

(** A finite number. *)
Definition finite (n : Num.t) : option Q :=
  match n with
  | Num.Fin q => Some q
  | _ => None
  end.

(** The points of an element whose coordinates are finite numbers: its
    origin and, when it has an array of points (pairs of numbers, as
    offsets), the origin moved by each of them, in binary64 arithmetic; an
    element without [x] has no point.  [None]: a coordinate is not a
    number, or not a finite one. *)
Definition offset_point (x y : Q) (pt : json) : option (Q * Q) :=
  match pt with
  | JArr (JNum a :: JNum b :: _) =>
      px ← finite (Num.add (Num.Fin x) (number_value a));
      py ← finite (Num.add (Num.Fin y) (number_value b));
      Some (px, py)
  | _ => None
  end.

Definition element_points (el : json) : option (list (Q * Q)) :=
  match el with
  | JNull => None
  | _ =>
      match prop el "x", prop el "y" with
      | None, _ | Some JNull, _ => Some []
      | Some (JNum lx), Some (JNum ly) =>
          x ← finite (number_value lx);
          y ← finite (number_value ly);
          match prop el "points" with
          | Some (JArr points) =>
              cons (x, y) <$> mapM (offset_point x y) points
          | _ => Some [(x, y)]
          end
      | _, _ => None
      end
  end.

Definition scene_points (els : list json) : option (list (Q * Q)) :=
  mjoin <$> mapM element_points els.

(** [n] is the least of [xs]; [Infinity] when there is none. *)
Definition least (n : Num.t) (xs : list Q) : Prop :=
  match xs with
  | [] => n = Num.PosInf
  | _ => ∃ m, n = Num.Fin m ∧ m ∈ xs ∧ ∀ x, x ∈ xs → (m <= x)%Q
  end.

(** A code unit that is not a surrogate. *)
Definition plain (c : N) : Prop := is_high c = false ∧ is_low c = false.


(** * Properties *)

Section Recovery.

#[local] Arguments N.eqb : simpl never.
#[local] Arguments N.leb : simpl never.
#[local] Arguments N.ltb : simpl never.


(** ** String helpers *)

Lemma trimStart_spec (s : jsstring) :
  ∃ w, Forall (λ c, is_js_space c = true) w ∧ s = w ++ trimStart s
       ∧ match trimStart s with c :: _ => is_js_space c = false | [] => True end.
Proof.
  induction s as [|c r IH]; simpl.
  - by exists [].
  - destruct (is_js_space c) eqn:E.
    + destruct IH as (w & Hw & Heq & Hh).
      exists (c :: w). split; [by constructor|]. split; [|done].
      simpl. by f_equal.
    + by exists [].
Qed.

Lemma trimStart_app_last (l : jsstring) (c : N) :
  is_js_space c = false → ∃ l', trimStart (l ++ [c]) = l' ++ [c].
Proof.
  intros Hc. induction l as [|a l IH]; simpl.
  - rewrite Hc. by exists [].
  - destruct (is_js_space a); [done|]. by exists (a :: l).
Qed.

Lemma trimEnd_head (c : N) (r : jsstring) :
  is_js_space c = false → ∃ r', trimEnd (c :: r) = c :: r'.
Proof.
  intros Hc. unfold trimEnd. simpl rev.
  destruct (trimStart_app_last (rev r) c Hc) as [l' ->].
  rewrite rev_app_distr. simpl. eauto.
Qed.

Lemma first_nonspace_unique (w w' r r' : jsstring) (c c' : N) :
  Forall (λ c, is_js_space c = true) w →
  Forall (λ c, is_js_space c = true) w' →
  is_js_space c = false → is_js_space c' = false →
  w ++ c :: r = w' ++ c' :: r' → w = w' ∧ c = c' ∧ r = r'.
Proof.
  intros Hw. revert w'. induction Hw as [|a w Ha Hw IH]; intros w' Hw' Hc Hc' Heq.
  - destruct Hw' as [|a' w' Ha' Hw']; simpl in Heq.
    + by inversion Heq.
    + inversion Heq; subst. congruence.
  - destruct Hw' as [|a' w' Ha' Hw']; simpl in Heq.
    + inversion Heq; subst. congruence.
    + inversion Heq; subst.
      destruct (IH w' Hw' Hc Hc' H1) as (-> & -> & ->). done.
Qed.

Lemma trim_starts_with_bracket (s : jsstring) :
  startsWith (trim s) (lit "[") = true ↔ starts_with_bracket s.
Proof.
  unfold trim, starts_with_bracket.
  destruct (trimStart_spec s) as (w & Hw & Heq & Hh).
  destruct (trimStart s) as [|c r] eqn:E.
  - split; [discriminate|]. intros (w' & r' & Hw' & Hs).
    rewrite app_nil_r in Heq. subst w.
    rewrite Hs in Hw. apply Forall_app in Hw as [_ Hw].
    inversion Hw; subst. discriminate.
  - destruct (trimEnd_head c r Hh) as [r' ->].
    change (lit "[") with [Ch.lbracket]. simpl.
    rewrite andb_true_r, (N.eqb_sym _ c). split.
    + intros Hc%N.eqb_eq. subst c. eauto.
    + intros (w' & r'' & Hw' & Hs). apply N.eqb_eq.
      rewrite Hs in Heq.
      by destruct (first_nonspace_unique w' w r'' r Ch.lbracket c
                     Hw' Hw eq_refl Hh Heq) as (_ & ? & _).
Qed.

Lemma lastIndexFrom_notin (c : N) (s : jsstring) (i found : Z) :
  c ∉ s → lastIndexFrom c i s found = found.
Proof.
  revert i found. induction s as [|d r IH]; intros i found Hn; simpl; [done|].
  apply not_elem_of_cons in Hn as [Hd Hr]. rewrite IH by done.
  case N.eqb_spec; congruence.
Qed.

Lemma lastIndexFrom_last (c : N) (p q : jsstring) (i found : Z) :
  c ∉ q →
  lastIndexFrom c i (p ++ c :: q) found = (i + Z.of_nat (length p))%Z.
Proof.
  intros Hq. revert i found. induction p as [|d p IH]; intros i found; simpl.
  - rewrite lastIndexFrom_notin by done. rewrite N.eqb_refl. lia.
  - rewrite IH. lia.
Qed.

Lemma last_occurrence (c : N) (s : jsstring) :
  c ∈ s → ∃ p q, s = p ++ c :: q ∧ c ∉ q.
Proof.
  induction s as [|d r IH]; intros Hin; [by apply elem_of_nil in Hin|].
  destruct (decide (c ∈ r)) as [Hr|Hr].
  - destruct (IH Hr) as (p & q & -> & Hq). exists (d :: p), q. done.
  - apply elem_of_cons in Hin as [->|]; [|done]. exists [], r. done.
Qed.

Lemma lastIndexOf_negative (s : jsstring) (c : N) :
  (lastIndexOf s c <? 0)%Z = true ↔ c ∉ s.
Proof.
  unfold lastIndexOf. split.
  - intros Hlt Hin. destruct (last_occurrence c s Hin) as (p & q & -> & Hq).
    rewrite lastIndexFrom_last in Hlt by done. apply Z.ltb_lt in Hlt. lia.
  - intros Hn. by rewrite lastIndexFrom_notin.
Qed.

Lemma substring0_last (p q : jsstring) (c : N) :
  c ∉ q →
  substring0 (p ++ c :: q) (lastIndexOf (p ++ c :: q) c + 1) = p ++ [c].
Proof.
  intros Hq. unfold lastIndexOf, substring0.
  rewrite lastIndexFrom_last by done.
  replace (Z.to_nat (0 + Z.of_nat (length p) + 1)) with (length (p ++ [c])).
  - by rewrite (assoc_L (++) p [c] q : p ++ c :: q = (p ++ [c]) ++ q), take_app_length.
  - rewrite length_app. simpl. lia.
Qed.

(** ** The parser: what a prefix of the text already decides *)

Lemma steps_app (st : pstate) (a b : jsstring) :
  steps st (a ++ b)
  = match steps st a with Some st' => steps st' b | None => None end.
Proof.
  revert st. induction a as [|c a IH]; intros st; simpl; [done|].
  destruct (step st c); [apply IH|done].
Qed.

Lemma bottom_arr_nil (l : list json) : ¬ bottom_arr l [].
Proof. by intros (d & Hd & _). Qed.

Lemma bottom_arr_above (l : list json) (f : frame) (stk : list frame) :
  bottom_arr l stk → bottom_arr l (f :: stk).
Proof.
  intros (d & Hd & Hp). exists d. split; [|done].
  destruct stk; [done|]. by rewrite last_cons_cons.
Qed.

Lemma bottom_arr_below (l : list json) (f : frame) (stk : list frame) :
  stk ≠ [] → bottom_arr l (f :: stk) → bottom_arr l stk.
Proof.
  intros Hne (d & Hd & Hp). exists d. split; [|done].
  destruct stk; [done|]. by rewrite last_cons_cons in Hd.
Qed.

Lemma bottom_arr_swap (l : list json) (f g : frame) (stk : list frame) :
  stk ≠ [] → bottom_arr l (f :: stk) → bottom_arr l (g :: stk).
Proof. intros Hne H. by apply bottom_arr_above, (bottom_arr_below l f). Qed.

Lemma bottom_arr_obj (l : list json) (o : obj) (k : option jsstring)
    (stk : list frame) :
  bottom_arr l (FObj o k :: stk) → stk ≠ [].
Proof. intros (d & Hd & _) ->. simpl in Hd. congruence. Qed.

Lemma push_value_holds (l : list json) (v : json) (stk : list frame)
    (st : pstate) :
  bottom_arr l stk → push_value v stk = Some st → holds l st.
Proof.
  intros Hb Hp. destruct stk as [|[d0|o [k|]] stk']; simpl in Hp; simplify_eq.
  - by apply bottom_arr_nil in Hb.
  - simpl. destruct stk' as [|f stk''].
    + destruct Hb as (d & Hd & Hpre). simpl in Hd. simplify_eq.
      exists (d ++ [v]). split; [done|]. by apply prefix_app_r.
    + by apply (bottom_arr_swap l (FArr d0)).
  - simpl. pose proof (bottom_arr_obj _ _ _ _ Hb).
    by apply (bottom_arr_swap l (FObj o (Some k))).
Qed.

Lemma close_array_holds (l : list json) (stk : list frame) (st : pstate) :
  bottom_arr l stk → close_array stk = Some st → holds l st.
Proof.
  intros Hb Hc. destruct stk as [|[d0|o k] stk']; simpl in Hc; simplify_eq.
  destruct stk' as [|f stk''].
  - simpl in Hc. simplify_eq. destruct Hb as (d & Hd & Hpre).
    simpl in Hd. simplify_eq. simpl. eauto.
  - apply push_value_holds with (l := l) in Hc; [done|].
    by apply (bottom_arr_below l (FArr d0)).
Qed.

Lemma close_object_holds (l : list json) (stk : list frame) (st : pstate) :
  bottom_arr l stk → close_object stk = Some st → holds l st.
Proof.
  intros Hb Hc. destruct stk as [|[d0|o [k|]] stk']; simpl in Hc; simplify_eq.
  pose proof (bottom_arr_obj _ _ _ _ Hb).
  apply push_value_holds with (l := l) in Hc; [done|].
  by apply (bottom_arr_below l (FObj o None)).
Qed.

Lemma start_value_holds (l : list json) (c : N) (stk : list frame)
    (st : pstate) :
  bottom_arr l stk → start_value c stk = Some st → holds l st.
Proof.
  intros Hb Hs. unfold start_value in Hs.
  repeat case_match; simplify_eq; simpl; auto using bottom_arr_above.
Qed.

Lemma start_key_holds (l : list json) (c : N) (stk : list frame)
    (st : pstate) :
  bottom_arr l stk → start_key c stk = Some st → holds l st.
Proof.
  intros Hb Hs. unfold start_key in Hs. case_match; by simplify_eq.
Qed.

Lemma step_idle_holds (l : list json) (st st' : pstate) (c : N) :
  holds l st → step_idle st c = Some st' → holds l st'.
Proof.
  intros Hh Hs. destruct st as [e stk| | | |v]; simpl in Hs; simplify_eq.
  - simpl in Hh. unfold step_exp in Hs.
    destruct (is_json_space c); [by simplify_eq|].
    destruct e; repeat case_match; simplify_eq;
      eauto using close_array_holds, close_object_holds, start_value_holds,
        start_key_holds.
  - by case_match; simplify_eq.
Qed.

Lemma step_holds (l : list json) (st st' : pstate) (c : N) :
  holds l st → step st c = Some st' → holds l st'.
Proof.
  intros Hh Hs. destruct st as [e stk|acc esc k stk|acc stk|rest v stk|v];
    try (by eapply step_idle_holds).
  - simpl in Hh, Hs. unfold step_str, end_string in Hs.
    repeat case_match; simplify_eq; simpl; eauto using push_value_holds.
    pose proof (bottom_arr_obj _ _ _ _ Hh).
    by apply (bottom_arr_swap l (FObj done None)).
  - simpl in Hh, Hs. unfold end_number in Hs.
    repeat case_match; simplify_eq; simpl; [done|].
    eapply step_idle_holds; [|done]. by eapply push_value_holds.
  - simpl in Hh, Hs.
    repeat case_match; simplify_eq; simpl; eauto using push_value_holds.
Qed.

Lemma steps_holds (l : list json) (s : jsstring) (st st' : pstate) :
  holds l st → steps st s = Some st' → holds l st'.
Proof.
  revert st. induction s as [|c s IH]; intros st Hh Hs; simpl in Hs.
  - by simplify_eq.
  - destruct (step st c) as [st1|] eqn:E; [|done].
    eauto using step_holds.
Qed.

Lemma finish_holds (l : list json) (st : pstate) (v : json) :
  holds l st → finish st = Some v → ∃ d, v = JArr d ∧ l `prefix_of` d.
Proof.
  intros Hh Hf. destruct st; simpl in Hf; simplify_eq; [|done].
  destruct stk; [|done]. by apply bottom_arr_nil in Hh.
Qed.

Lemma js_space_range (c : N) : is_js_space c = true → c <= 32 ∨ 160 <= c.
Proof.
  unfold is_js_space. intros H.
  repeat (apply orb_true_iff in H as [H|H]);
    repeat (apply andb_true_iff in H as [? H]);
    repeat match goal with
           | H : (_ =? _) = true |- _ => apply N.eqb_eq in H
           | H : (_ <=? _) = true |- _ => apply N.leb_le in H
           end; lia.
Qed.

Lemma start_value_range (c : N) (stk : list frame) (st : pstate) :
  start_value c stk = Some st → 34 <= c <= 123.
Proof.
  unfold start_value, is_digit, Ch.lbracket, Ch.lbrace, Ch.quote, Ch.minus.
  intros H.
  repeat match goal with
         | H : context [if ?b then _ else _] |- _ => destruct b eqn:?
         end; simplify_eq;
    repeat match goal with
           | H : (_ || _) = true |- _ => apply orb_true_iff in H as [H|H]
           | H : (_ && _) = true |- _ => apply andb_true_iff in H as [? H]
           | H : (_ =? _) = true |- _ => apply N.eqb_eq in H
           | H : (_ <=? _) = true |- _ => apply N.leb_le in H
           end; lia.
Qed.

Lemma steps_leading_space (w : jsstring) (st : pstate) :
  Forall (λ c, is_js_space c = true) w →
  steps (PExp EValue []) w = Some st → st = PExp EValue [].
Proof.
  induction 1 as [|c w Hc Hw IH]; simpl; intros Hs; [by simplify_eq|].
  unfold step_exp in Hs. destruct (is_json_space c); [auto|].
  destruct (start_value c []) eqn:E; [|done].
  apply start_value_range in E. apply js_space_range in Hc. lia.
Qed.

Lemma bracket_opens (s : jsstring) (st : pstate) :
  starts_with_bracket s → steps (PExp EValue []) s = Some st → holds [] st.
Proof.
  intros (w & r & Hw & ->) Hs. rewrite steps_app in Hs.
  destruct (steps (PExp EValue []) w) as [st1|] eqn:E; [|done].
  apply steps_leading_space in E; [|done]. subst st1.
  simpl in Hs. eapply steps_holds; [|done].
  exists []. by split.
Qed.

Lemma parse_bracket_array (s : jsstring) (v : json) :
  starts_with_bracket s → JSON_parse s = Some v → ∃ d, v = JArr d.
Proof.
  unfold JSON_parse. intros Hb Hp.
  destruct (steps (PExp EValue []) s) as [st|] eqn:E; [|done].
  destruct (finish_holds [] st v) as (d & -> & _); eauto using bracket_opens.
Qed.

Lemma steps_done (v : json) (s : jsstring) (st : pstate) :
  steps (PDone v) s = Some st → st = PDone v.
Proof.
  induction s as [|c s IH]; simpl; intros Hs; [by simplify_eq|].
  destruct (is_json_space c); [auto|done].
Qed.

(** After a closing brace the parser is never in the middle of a number. *)
Lemma step_rbrace_not_number (st st' : pstate) :
  step st Ch.rbrace = Some st' → ∀ acc stk, st' ≠ PNum acc stk.
Proof.
  assert (Hpush : ∀ v stk st1, push_value v stk = Some st1 →
                               ∀ acc stk', st1 ≠ PNum acc stk').
  { intros v stk st1 Hp acc stk'.
    destruct stk as [|[?|? [?|]] ?]; simpl in Hp; by simplify_eq. }
  assert (Hidle : ∀ st0 st1, step_idle st0 Ch.rbrace = Some st1 →
                             ∀ acc stk', st1 ≠ PNum acc stk').
  { intros st0 st1 Hs.
    destruct st0 as [e stk| | | |v]; simpl in Hs; simplify_eq.
    unfold step_exp in Hs. change (is_json_space Ch.rbrace) with false in Hs.
    destruct e; simpl in Hs; simplify_eq;
      try (by destruct stk as [|[?|? [?|]] ?]; simpl in Hs; simplify_eq; eauto). }
  intros Hs. destruct st as [e stk|acc esc k stk|acc stk|rest v stk|v];
    try exact (Hidle _ _ Hs).
  - simpl in Hs. unfold step_str in Hs.
    destruct esc; simpl in Hs; by simplify_eq.
  - simpl in Hs. unfold end_number in Hs.
    repeat case_match; simplify_eq. eauto.
  - simpl in Hs. repeat case_match; simplify_eq; eauto.
Qed.

(** Reading the closing bracket completes the text only when the parser
    stands in the top-level array, between two tokens. *)
Lemma step_rbracket_done (st : pstate) (l : list json) :
  holds [] st → (∀ acc stk, st ≠ PNum acc stk) →
  step st Ch.rbracket = Some (PDone (JArr l)) → holds l st.
Proof.
  assert (Hclose : ∀ stk, bottom_arr [] stk →
            close_array stk = Some (PDone (JArr l)) → bottom_arr l stk).
  { intros stk Hb Hc. destruct stk as [|[d0|o k] stk']; simpl in Hc; simplify_eq.
    destruct stk' as [|[d1|o [k|]] stk'']; simpl in Hc; simplify_eq.
    by exists l. }
  intros Hh Hn Hs.
  destruct st as [e stk|acc esc k stk|acc stk|rest v stk|v]; simpl in *.
  - unfold step_exp in Hs. change (is_json_space Ch.rbracket) with false in Hs.
    destruct e; simpl in Hs; simplify_eq; eauto.
    destruct stk as [|[d0|o [k|]] stk']; simpl in Hs; simplify_eq.
    + by apply (Hclose (FArr d0 :: stk')).
  - unfold step_str, end_string in Hs.
    destruct esc; simpl in Hs; by simplify_eq.
  - by destruct (Hn acc stk).
  - repeat case_match; simplify_eq.
    destruct stk as [|[d0|o [k|]] stk']; simpl in *; simplify_eq.
    by apply bottom_arr_nil in Hh.
  - done.
Qed.

Lemma starts_with_bracket_cut (p q : jsstring) (c : N) :
  is_js_space c = false →
  starts_with_bracket (p ++ c :: q) → starts_with_bracket (p ++ [c]).
Proof.
  intros Hc (w & r & Hw & Heq). revert p Heq.
  induction Hw as [|a w Ha Hw IH]; intros p Heq; simpl in Heq.
  - destruct p as [|b p]; simpl in Heq; simplify_eq.
    + by exists [], [].
    + by exists [], (p ++ [c]).
  - destruct p as [|b p']; simpl in Heq; injection Heq as Hb Heq.
    + congruence.
    + destruct (IH p' Heq) as (w' & r' & Hw' & Heq').
      exists (a :: w'), r'. split; [by constructor|]. simpl. by f_equal.
Qed.

Lemma starts_with_bracket_app (s z : jsstring) :
  starts_with_bracket s → starts_with_bracket (s ++ z).
Proof.
  intros (w & r & Hw & ->). exists w, (r ++ z). split; [done|].
  by rewrite <- app_assoc.
Qed.

(** X22. [parsePartialElements] returns an array for every input, the
    missing one included: it never throws and never returns another kind
    of value, so the loops of its callers always have a sequence to run
    over. *)
Lemma parsePartialElements_array (str : option jsstring) :
  ∃ l, parsePartialElements str = JArr l.
Proof.
  destruct str as [s|]; [|by exists []]. unfold parsePartialElements.
  destruct (startsWith (trim s) (lit "[")) eqn:Hb; simpl; [|by exists []].
  apply trim_starts_with_bracket in Hb.
  destruct (JSON_parse s) as [v|] eqn:Hp; [by eapply parse_bracket_array|].
  destruct (lastIndexOf s Ch.rbrace <? 0)%Z eqn:El; [by exists []|].
  assert (Hin : Ch.rbrace ∈ s).
  { destruct (decide (Ch.rbrace ∈ s)) as [|Hn]; [done|].
    apply lastIndexOf_negative in Hn. congruence. }
  destruct (last_occurrence _ _ Hin) as (p & q & -> & Hq).
  rewrite substring0_last by done. change (lit "]") with [Ch.rbracket].
  destruct (JSON_parse ((p ++ [Ch.rbrace]) ++ [Ch.rbracket])) as [v|] eqn:Ep;
    [|by exists []].
  eapply parse_bracket_array; [|exact Ep].
  by apply starts_with_bracket_app, (starts_with_bracket_cut p q).
Qed.

(** ** C1: the recovery algorithm *)

(** C1. For every string [s], [parsePartialElements] returns exactly what
    the algorithm of the specification prescribes ([recovers]): the empty
    array when the trimmed [s] does not start with an opening bracket, the
    full parse when it succeeds, the empty array when [s] has no closing
    brace, and otherwise the parse of [s] cut after its last closing brace
    with a closing bracket appended, or the empty array when that fails; the
    string made of one opening bracket gives the empty array. *)
Theorem parsePartialElements_recovers :
  ∀ s : jsstring,
    (∀ v, recovers s v ↔ parsePartialElements (Some s) = v)
    ∧ parsePartialElements (Some (lit "[")) = JArr [].
Proof.
  intros s. split; [|by vm_compute].
  intros v. unfold parsePartialElements. split.
  - intros Hr.
    destruct Hr as [Hn|v Hb Hp|Hb Hp Hn|p q v Hb Hp Hs Hq Hc|p q Hb Hp Hs Hq Hc].
    + apply (not_iff_compat (trim_starts_with_bracket s)) in Hn.
      apply not_true_is_false in Hn. by rewrite Hn.
    + apply trim_starts_with_bracket in Hb. by rewrite Hb, Hp.
    + apply trim_starts_with_bracket in Hb. rewrite Hb, Hp. simpl.
      apply lastIndexOf_negative in Hn. by rewrite Hn.
    + apply trim_starts_with_bracket in Hb. rewrite Hb, Hp. simpl.
      destruct (lastIndexOf s Ch.rbrace <? 0)%Z eqn:El.
      { apply lastIndexOf_negative in El. destruct El. subst s.
        apply elem_of_app. right. by left. }
      subst s. rewrite substring0_last by done.
      change (lit "]") with [Ch.rbracket].
      rewrite <- app_assoc. simpl. by rewrite Hc.
    + apply trim_starts_with_bracket in Hb. rewrite Hb, Hp. simpl.
      destruct (lastIndexOf s Ch.rbrace <? 0)%Z eqn:El; [done|].
      subst s. rewrite substring0_last by done.
      change (lit "]") with [Ch.rbracket].
      rewrite <- app_assoc. simpl. by rewrite Hc.
  - destruct (startsWith (trim s) (lit "[")) eqn:Hb; simpl.
    2:{ intros <-. apply recovers_not_array.
        rewrite <- trim_starts_with_bracket. by rewrite Hb. }
    apply trim_starts_with_bracket in Hb.
    destruct (JSON_parse s) as [v'|] eqn:Hp.
    { intros <-. by apply recovers_full. }
    destruct (lastIndexOf s Ch.rbrace <? 0)%Z eqn:El.
    { intros <-. apply recovers_no_brace; [done..|].
      by apply lastIndexOf_negative. }
    assert (Hin : Ch.rbrace ∈ s).
    { destruct (decide (Ch.rbrace ∈ s)) as [|Hn]; [done|].
      apply lastIndexOf_negative in Hn. congruence. }
    destruct (last_occurrence _ _ Hin) as (p & q & Hs & Hq).
    rewrite Hs at 1 2. rewrite substring0_last by done.
    change (lit "]") with [Ch.rbracket]. rewrite <- app_assoc. simpl.
    destruct (JSON_parse (p ++ [Ch.rbrace; Ch.rbracket])) as [v'|] eqn:Hc.
    + intros <-. by eapply recovers_cut.
    + intros <-. by eapply recovers_cut_fails.
Qed.

(** ** C2: recovery on a truncation *)

(** C2, as amended. For every text [s] that parses to an array and every
    prefix [t] of [s], [parsePartialElements] applied to [t] gives an array
    that is a prefix, element by element, of the array of [s] (the empty
    array among them), and a sequence of objects when the array of [s] is
    one; the prefix may be the whole array. *)
Theorem truncation_recovers_prefix (s t : jsstring) (arr : list json) :
  JSON_parse s = Some (JArr arr) → t `prefix_of` s →
  ∃ l, parsePartialElements (Some t) = JArr l ∧ l `prefix_of` arr
       ∧ (Forall (λ v, is_object v = true) arr →
          Forall (λ v, is_object v = true) l).
Proof.
  intros Hs Ht.
  cut (∃ l, parsePartialElements (Some t) = JArr l ∧ l `prefix_of` arr).
  { intros (l & Hl & [k ->]). exists l. split; [done|].
    split; [by exists k|]. by intros [? _]%Forall_app. }
  revert Hs Ht.
  intros Hs [y ->]. unfold parsePartialElements.
  destruct (startsWith (trim t) (lit "[")) eqn:Hb; simpl;
    [|exists []; split; [done|apply prefix_nil]].
  apply trim_starts_with_bracket in Hb.
  unfold JSON_parse in Hs. rewrite steps_app in Hs.
  destruct (steps (PExp EValue []) t) as [stt|] eqn:Et; [|done].
  destruct (steps stt y) as [sts|] eqn:Ey; [|done].
  pose proof (bracket_opens t stt Hb Et) as Hh0.
  unfold JSON_parse at 1. rewrite Et.
  destruct (finish stt) as [v|] eqn:Ef.
  { destruct (finish_holds [] stt v Hh0 Ef) as (d & -> & _).
    exists d. split; [done|].
    destruct stt; simpl in Ef; repeat case_match; simplify_eq.
    apply steps_done in Ey. subst sts. simpl in Hs. by simplify_eq. }
  destruct (lastIndexOf t Ch.rbrace <? 0)%Z eqn:El;
    [exists []; split; [done|apply prefix_nil]|].
  assert (Hin : Ch.rbrace ∈ t).
  { destruct (decide (Ch.rbrace ∈ t)) as [|Hn]; [done|].
    apply lastIndexOf_negative in Hn. congruence. }
  destruct (last_occurrence _ _ Hin) as (p & q & -> & Hq).
  rewrite substring0_last by done. change (lit "]") with [Ch.rbracket].
  destruct (JSON_parse ((p ++ [Ch.rbrace]) ++ [Ch.rbracket])) as [v|] eqn:Ep;
    [|exists []; split; [done|apply prefix_nil]].
  assert (Hbx : starts_with_bracket (p ++ [Ch.rbrace]))
    by (by apply (starts_with_bracket_cut p q)).
  destruct (parse_bracket_array _ _ (starts_with_bracket_app _ [Ch.rbracket] Hbx) Ep)
    as [l ->].
  exists l. split; [done|].
  rewrite (cons_middle Ch.rbrace p q), app_assoc, steps_app in Et.
  unfold JSON_parse in Ep. rewrite steps_app in Ep.
  destruct (steps (PExp EValue []) (p ++ [Ch.rbrace])) as [stx|] eqn:Ex; [|done].
  simpl in Ep. destruct (step stx Ch.rbracket) as [st'|] eqn:Es; [|done].
  assert (st' = PDone (JArr l)) as ->
    by (destruct st'; simpl in Ep; repeat case_match; by simplify_eq).
  assert (Hh : holds l stx).
  { apply step_rbracket_done; [by eapply bracket_opens| |done].
    rewrite steps_app in Ex.
    destruct (steps (PExp EValue []) p) as [stp|]; [|done]. simpl in Ex.
    destruct (step stp Ch.rbrace) as [st1|] eqn:E1; [|done]. simplify_eq.
    by eapply step_rbrace_not_number. }
  destruct (finish_holds l sts (JArr arr)) as (d & Hd & Hpre); [|done|].
  - eapply steps_holds; [|exact Ey]. by eapply steps_holds.
  - by simplify_eq.
Qed.

Lemma truncation_recovers_prefix_witness :
  ∃ l, parsePartialElements (Some (text "[{'a':1},{'b':2"))
       = JArr l
       ∧ l `prefix_of` [JObj [(lit "a", JNum (lit "1"))];
                        JObj [(lit "b", JNum (lit "2"))]]
       ∧ (Forall (λ v, is_object v = true)
            [JObj [(lit "a", JNum (lit "1"))];
             JObj [(lit "b", JNum (lit "2"))]] →
          Forall (λ v, is_object v = true) l).
Proof.
  apply (truncation_recovers_prefix (text "[{'a':1},{'b':2}]")).
  - vm_compute. reflexivity.
  - exists (lit "}]"). vm_compute. reflexivity.
Defined.

(** The strict form fails: when only the closing bracket is missing, the
    whole array is recovered. *)
Lemma truncation_strict_prefix_fails : ¬ truncation_gives_strict_prefix.
Proof.
  intros H.
  destruct (H (text "[{'a':1}]") (text "[{'a':1}")
              [JObj [(lit "a", JNum (lit "1"))]])
    as (l & Hl & Hcases).
  - vm_compute. reflexivity.
  - repeat constructor.
  - exists (lit "]"). vm_compute. reflexivity.
  - vm_compute. discriminate.
  - vm_compute in Hl. simplify_eq. destruct Hcases as [[_ Hne]|Hnil]; [|done].
    by apply Hne.
Qed.

End Recovery.

(** ** C9: dropping the last item *)

Lemma excludeIncompleteLastItem_long {A} (a b : A) (arr : list A) :
  excludeIncompleteLastItem (a :: arr ++ [b]) = a :: arr.
Proof.
  assert (Hl : length (a :: arr ++ [b]) = S (S (length arr)))
    by (simpl; rewrite length_app; simpl; lia).
  unfold excludeIncompleteLastItem, slice_drop_last. rewrite Hl. simpl.
  f_equal. apply take_app_length.
Qed.

Lemma extract_nil : extractViewportAndElements [] = Some (mkExtracted None [] (Some JNull) ∅).
Proof. reflexivity. Qed.

Section Stream.

Variable convertToExcalidrawElements : list json → list obj.
Variable Excalifont : jsval.
Variable loadCheckpoint : option (json → json).
Variable random : nat → N.

Local Abbreviation DV_doStream :=
  (doStream convertToExcalidrawElements Excalifont loadCheckpoint random).
Local Abbreviation DV_partialInput :=
  (partialInput convertToExcalidrawElements Excalifont loadCheckpoint random).

Lemma stream_render_nothing_drawn vp base restored st :
  stream_render random vp [] base restored st
  = (mkView (latestRef st) restored (randomCalls st),
     if nonempty base && (length (latestRef st) =? 0)%nat
     then [renderSvgPreview [] vp base] else []).
Proof. unfold stream_render. simpl. by case_match. Qed.

Lemma doStream_nothing_drawn sid dids vp st st' effs :
  DV_doStream sid dids vp [] st = Some (st', effs) →
  latestRef st' = latestRef st
  ∧ (effs = [] ∨ ∃ vp' base, effs = [renderSvgPreview [] vp' base]).
Proof.
  unfold doStream. intros H.
  repeat case_match; simplify_eq;
    rewrite stream_render_nothing_drawn in H; injection H as <- <-; simpl;
    (split; [done|]);
    try match goal with |- context [if ?b then _ else _] => destruct b end;
    eauto.
Qed.

(** C9. [excludeIncompleteLastItem] returns the empty array for an array
    of length zero or one, and the first [n - 1] elements for an array of
    length [n >= 2]; so a partial chunk whose recovered sequence has
    exactly one element draws nothing of it: the effect plays no stroke,
    leaves the drawn elements as they were, and renders at most the
    checkpoint base alone. *)
Theorem single_element_chunk_not_rendered :
  (∀ (A : Type) (a b : A) (arr : list A),
      excludeIncompleteLastItem (@nil A) = []
      ∧ excludeIncompleteLastItem [a] = []
      ∧ excludeIncompleteLastItem (a :: arr ++ [b]) = a :: arr
      ∧ length (excludeIncompleteLastItem (a :: arr ++ [b]))
        = (length (a :: arr ++ [b]) - 1)%nat)
  ∧ (∀ (str : jsstring) (el : json) (st st' : View) (effs : list effect),
        parsePartialElements (Some str) = JArr [el] →
        DV_partialInput str st = Some (st', effs) →
        latestRef st' = latestRef st
        ∧ strokes effs = []
        ∧ ∀ els vp base, (els, vp, base) ∈ renders effs → els = []).
Proof.
  split.
  - intros A a b arr. rewrite excludeIncompleteLastItem_long.
    repeat split; try done. simpl. rewrite length_app. simpl. lia.
  - intros str el st st' effs Hp Hi.
    unfold partialInput in Hi. rewrite Hp in Hi.
    destruct (streamDirectives [el]) as [[sid dids]|]; [|done].
    change (excludeIncompleteLastItem [el]) with (@nil json) in Hi.
    rewrite extract_nil in Hi. simpl in Hi.
    apply doStream_nothing_drawn in Hi as [Hl [->|(vp' & base' & ->)]].
    + split; [done|]. split; [done|]. intros els vp base Hin.
      by apply elem_of_nil in Hin.
    + split; [done|]. split; [done|]. intros els vp base Hin.
      simpl in Hin. apply list_elem_of_singleton in Hin. by simplify_eq.
Qed.

End Stream.

Lemma single_element_chunk_not_rendered_witness :
  ∃ st' effs,
    partialInput (λ _, []) None None (λ _, 0)
      (text "[{'type':'rectangle','id':'r1'}]") (mkView [] None 0)
    = Some (st', effs)
    ∧ latestRef st' = latestRef (mkView [] None 0) ∧ strokes effs = []
    ∧ ∀ els vp base, (els, vp, base) ∈ renders effs → els = [].
Proof.
  eexists _, _. split; [vm_compute; reflexivity|].
  eapply (proj2 (single_element_chunk_not_rendered (λ _, []) None None (λ _, 0))
            (text "[{'type':'rectangle','id':'r1'}]")).
  - vm_compute. reflexivity.
  - vm_compute. reflexivity.
Defined.

(** ** C3 and C6: the classifier *)

Lemma for_of_null {S : Type} (body : S → json → option S) (els : list json)
    (acc : S) :
  (∀ s, body s JNull = None) →
  existsb is_null els = true → for_of body els acc = None.
Proof.
  intros Hnull. revert acc. induction els as [|el els IH]; intros acc H; [done|].
  simpl in *. destruct (body acc el) eqn:E; [|done].
  destruct el; simpl in H; try by apply IH. by rewrite Hnull in E.
Qed.

Lemma of_kind_cons (f : json → kind) (k : kind) (el : json) (els : list json) :
  of_kind f k (el :: els)
  = if decide (f el = k) then el :: of_kind f k els else of_kind f k els.
Proof.
  unfold of_kind. simpl.
  destruct (decide (f el = k));
    [by rewrite bool_decide_eq_true_2|by rewrite bool_decide_eq_false_2].
Qed.

Lemma of_kind_partition (f : json → kind) (els : list json) :
  els ≡ₚ of_kind f KViewport els ++ of_kind f KRestore els
         ++ of_kind f KDelete els ++ of_kind f KDrawable els.
Proof.
  induction els as [|el els IH]; [done|].
  rewrite !of_kind_cons.
  destruct (f el); simpl; repeat case_decide; try done.
  - by apply perm_skip.
  - rewrite <- Permutation_middle. by apply perm_skip.
  - rewrite (app_assoc (of_kind f KViewport els)), <- Permutation_middle.
    rewrite <- app_assoc. by apply perm_skip.
  - rewrite !app_assoc, <- Permutation_middle.
    rewrite <- !app_assoc. by apply perm_skip.
Qed.

Lemma of_kind_elem (f : json → kind) (k : kind) (el : json) (els : list json) :
  el ∈ of_kind f k els ↔ el ∈ els ∧ f el = k.
Proof.
  unfold of_kind. rewrite !list_elem_of_In, filter_In, bool_decide_eq_true.
  tauto.
Qed.

(** *** Splitting at commas and trimming *)

Lemma split_notin (c : N) (p : jsstring) : c ∉ p → split c p = [p].
Proof.
  induction p as [|d p IH]; [done|]. intros Hn.
  apply not_elem_of_cons in Hn as [Hd Hp]. simpl.
  rewrite (proj2 (N.eqb_neq d c)) by done. by rewrite IH.
Qed.

Lemma split_app (c : N) (p r : jsstring) :
  c ∉ p → split c (p ++ c :: r) = p :: split c r.
Proof.
  induction p as [|d p IH]; intros Hn; simpl.
  - by rewrite N.eqb_refl.
  - apply not_elem_of_cons in Hn as [Hd Hp].
    rewrite (proj2 (N.eqb_neq d c)) by done. by rewrite IH.
Qed.

(** [parts.join(c).split(c)] gives the parts back. *)
Lemma split_join (c : N) (parts : list jsstring) :
  parts ≠ [] → Forall (λ p, c ∉ p) parts →
  split c (join [c] parts) = parts.
Proof.
  intros Hne Hall. induction Hall as [|p ps Hp Hps IH]; [done|].
  destruct ps as [|q ps].
  - simpl. by apply split_notin.
  - change (join [c] (p :: q :: ps)) with (p ++ c :: join [c] (q :: ps)).
    rewrite split_app by done. by rewrite IH.
Qed.

Lemma split_nonempty (c : N) (s : jsstring) : split c s ≠ [].
Proof.
  destruct s as [|d r]; [done|]. simpl.
  destruct (d =? c); [done|]. by destruct (split c r).
Qed.

(** [s.split(c).join(c)] is [s], and no part holds [c]. *)
Lemma join_split (c : N) (s : jsstring) :
  join [c] (split c s) = s ∧ Forall (λ p, c ∉ p) (split c s).
Proof.
  induction s as [|d r [IHj IHf]]; simpl.
  - split; [done|]. repeat constructor. apply not_elem_of_nil.
  - destruct (d =? c) eqn:E.
    + apply N.eqb_eq in E. subst d. split.
      * pose proof (split_nonempty c r) as Hne.
        destruct (split c r) as [|w ws]; [done|].
        change (join [c] ([] :: w :: ws)) with (c :: join [c] (w :: ws)).
        by rewrite IHj.
      * constructor; [apply not_elem_of_nil|done].
    + apply N.eqb_neq in E.
      destruct (split c r) as [|w ws] eqn:Es.
      * by destruct (split_nonempty c r).
      * split.
        -- rewrite <- IHj. by destruct ws.
        -- inversion IHf; subst. constructor; [|done].
           apply not_elem_of_cons. split; [congruence|done].
Qed.

Lemma trimStart_spaces (w r : jsstring) :
  Forall (λ u, is_js_space u = true) w →
  match r with u :: _ => is_js_space u = false | [] => True end →
  trimStart (w ++ r) = r.
Proof.
  intros Hw Hr. induction Hw as [|u w Hu Hw IH]; simpl.
  - destruct r as [|u r]; [done|]. simpl. by rewrite Hr.
  - by rewrite Hu.
Qed.

Lemma trim_stripped (p c : jsstring) : stripped p c → trim p = c.
Proof.
  intros (w1 & w2 & Hw1 & Hw2 & -> & Hfirst & Hlast). unfold trim, trimEnd.
  destruct c as [|u c].
  - simpl. rewrite <- (app_nil_r w2) at 1.
    rewrite app_assoc, trimStart_spaces; [done| |done].
    by apply Forall_app.
  - rewrite (trimStart_spaces w1 ((u :: c) ++ w2)) by done.
    rewrite rev_app_distr, trimStart_spaces.
    + apply rev_involutive.
    + by apply Forall_rev.
    + rewrite <- (rev_involutive (u :: c)) in Hlast.
      destruct (rev (u :: c)) as [|z l] eqn:Hrev; [done|].
      simpl in Hlast. by rewrite last_snoc in Hlast.
Qed.

(** [trim] removes the white space at the two ends, and nothing else. *)
Lemma stripped_trim (p : jsstring) : stripped p (trim p).
Proof.
  unfold trim, trimEnd.
  destruct (trimStart_spec p) as (w1 & Hw1 & Hp & Hh).
  destruct (trimStart_spec (rev (trimStart p))) as (w2 & Hw2 & Hr & Hk).
  set (m := trimStart p) in *. set (k := trimStart (rev m)) in *.
  assert (Hm : m = rev k ++ rev w2).
  { rewrite <- rev_app_distr, <- Hr. by rewrite rev_involutive. }
  exists w1, (rev w2). split; [done|]. split; [by apply Forall_rev|].
  split; [by rewrite <- Hm|]. split.
  - destruct (rev k) as [|u l] eqn:Ek; [done|]. rewrite Hm in Hh. done.
  - destruct k as [|u l]; [done|]. simpl. by rewrite last_snoc.
Qed.

(** The identifiers that a delete directive names are the trimmed parts of
    the text of its [ids]. *)
Lemma names_spec (el : json) (txt s : jsstring) :
  String_ (nullish_or (prop el "ids") (prop el "id")) = Some txt →
  names el s ↔ s ∈ trim <$> split Ch.comma txt.
Proof.
  intros Htxt. unfold names. rewrite Htxt. split.
  - intros (parts & p & [= ->] & Hne & Hc & Hp & Hs).
    rewrite split_join by done. apply list_elem_of_fmap.
    exists p. split; [|done]. symmetry. by apply trim_stripped.
  - intros (p & -> & Hp)%list_elem_of_fmap.
    destruct (join_split Ch.comma txt) as [Hj Hf].
    exists (split Ch.comma txt), p. rewrite Hj.
    repeat split; try done; [apply split_nonempty|apply stripped_trim].
Qed.

Lemma delete_targets_text (el : json) :
  delete_targets el
  = (λ txt, trim <$> split Ch.comma txt)
      <$> String_ (nullish_or (prop el "ids") (prop el "id")).
Proof. unfold delete_targets. by destruct (String_ _). Qed.

Lemma throws_spec (el : json) : throws el = true ↔ rejected el.
Proof.
  unfold throws, rejected.
  rewrite orb_true_iff, andb_true_iff, !bool_decide_eq_true,
    delete_targets_text.
  assert (is_null el = true ↔ el = JNull) as -> by (by destruct el).
  destruct (String_ _); simpl; naive_solver.
Qed.

Lemma existsb_throws (els : list json) :
  existsb throws els = true ↔ ∃ el, el ∈ els ∧ rejected el.
Proof.
  rewrite existsb_exists. setoid_rewrite throws_spec.
  by setoid_rewrite list_elem_of_In.
Qed.

(** *** The classifier with tombstones *)

Lemma extract_body_kind (acc : Extracted) (el : json) :
  is_null el = false →
  extract_body acc el
  = match kind_of el with
    | KViewport =>
        Some (mkExtracted (Some (rect_of el)) (drawElements acc)
                (restoreId acc) (deleteIds acc))
    | KRestore =>
        Some (mkExtracted (viewport acc) (drawElements acc)
                (prop el "id") (deleteIds acc))
    | KDelete =>
        (λ ids, mkExtracted (viewport acc) (drawElements acc) (restoreId acc)
                  (deleteIds acc ∪ list_to_set ids))
          <$> delete_targets el
    | KDrawable =>
        Some (mkExtracted (viewport acc) (drawElements acc ++ [el])
                (restoreId acc) (deleteIds acc))
    end.
Proof.
  intros Hn. unfold extract_body, kind_of, tag_kind, type_is.
  destruct el; try done;
    destruct (prop _ "type") as [[| | |s| |]|]; try done;
    repeat case_bool_decide; repeat case_decide; try done; try congruence;
    by destruct (delete_targets _).
Qed.

Lemma extract_loop_throws (els : list json) (acc : Extracted) :
  existsb throws els = true → for_of extract_body els acc = None.
Proof.
  revert acc. induction els as [|el els IH]; intros acc H; [done|].
  simpl in H. cbn [for_of]. apply orb_true_iff in H as [H|H].
  - unfold throws in H. apply orb_true_iff in H as [H|H].
    + by destruct el.
    + apply andb_true_iff in H as [Hk Hd].
      apply bool_decide_eq_true in Hk. apply bool_decide_eq_true in Hd.
      destruct (is_null el) eqn:Hn; [by destruct el|].
      by rewrite extract_body_kind, Hk, Hd.
  - destruct (extract_body acc el); [by apply IH|done].
Qed.

Lemma extract_loop (els : list json) (acc : Extracted) :
  existsb throws els = false →
  for_of extract_body els acc
  = Some (mkExtracted
            (match last (rect_of <$> of_kind kind_of KViewport els) with
             | Some r => Some r
             | None => viewport acc
             end)
            (drawElements acc ++ of_kind kind_of KDrawable els)
            (default (restoreId acc)
               (last ((λ el, prop el "id") <$> of_kind kind_of KRestore els)))
            (deleteIds acc
             ∪ ⋃ ((λ el, list_to_set (default [] (delete_targets el)))
                    <$> of_kind kind_of KDelete els))).
Proof.
  revert acc. induction els as [|el els IH]; intros acc Hn.
  - simpl. destruct acc. simpl.
    by rewrite app_nil_r, (right_id_L ∅ (∪)).
  - simpl in Hn. apply orb_false_iff in Hn as [Hel Hels].
    unfold throws in Hel. apply orb_false_iff in Hel as [Hnull Hdel].
    rewrite !of_kind_cons. cbn [for_of]. rewrite extract_body_kind by done.
    destruct (kind_of el) eqn:Hk.
    4: { rewrite IH by done; simpl; repeat case_decide; try done; simpl.
         f_equal; f_equal. by rewrite <- app_assoc. }
    3: { rewrite bool_decide_eq_true_2 in Hdel by done. simpl in Hdel.
         apply bool_decide_eq_false in Hdel.
         destruct (delete_targets el) as [ids|] eqn:Hd; [|done]. simpl.
         rewrite IH by done; simpl; repeat case_decide; try done; simpl.
         f_equal; f_equal. rewrite Hd. simpl. by rewrite (assoc_L (∪)). }
    all: rewrite IH by done; simpl; repeat case_decide; try done; simpl;
      f_equal; f_equal.
    + rewrite last_cons. unfold fmap.
      by match goal with |- context [last ?l] => destruct (last l) end.
    + rewrite last_cons. unfold fmap.
      by match goal with |- context [last ?l] => destruct (last l) end.
Qed.

Lemma has_empty (v : jsval) : has ∅ v = false.
Proof. by destruct v as [[]|]. Qed.

Lemma tombstone_empty (el : json) : tombstone ∅ el = el.
Proof. unfold tombstone, targeted. by rewrite !has_empty. Qed.

Lemma fmap_tombstone_empty (l : list json) : tombstone ∅ <$> l = l.
Proof.
  induction l as [|e l IH]; [done|].
  by rewrite fmap_cons, tombstone_empty, IH.
Qed.

Lemma extract_classified (els : list json) :
  extractViewportAndElements els
  = if existsb throws els then None else Some (classified els).
Proof.
  unfold extractViewportAndElements.
  destruct (existsb throws els) eqn:Hn.
  - by rewrite extract_loop_throws.
  - rewrite extract_loop by done. simpl. unfold classified.
    rewrite (left_id_L ∅ (∪)). destruct (last _); simpl.
    all: destruct (0 <? size _)%nat eqn:Hs; [done|].
    all: apply Nat.ltb_ge in Hs; assert (Hz : size
            (⋃ ((λ el, list_to_set (default [] (delete_targets el)))
                  <$> of_kind kind_of KDelete els) : gset jsstring) = 0%nat) by lia.
    all: apply size_empty_iff in Hz; apply leibniz_equiv in Hz; rewrite Hz.
    all: by rewrite fmap_tombstone_empty.
Qed.

(** *** The classifier of the earlier variant *)

Lemma legacy_extract_body_kind (acc : Legacy.Extracted) (el : json) :
  is_null el = false →
  Legacy.extract_body acc el
  = Some match LegacyKind.kind_of el with
         | KViewport =>
             Legacy.mkExtracted (Some (rect_of el)) (Legacy.drawElements acc)
               (Legacy.restoreId acc) (Legacy.deleteIds acc)
         | KRestore =>
             Legacy.mkExtracted (Legacy.viewport acc) (Legacy.drawElements acc)
               (prop el "id") (Legacy.deleteIds acc)
         | KDelete =>
             Legacy.mkExtracted (Legacy.viewport acc) (Legacy.drawElements acc)
               (Legacy.restoreId acc)
               (Legacy.set_add (Legacy.deleteIds acc) (prop el "id"))
         | KDrawable =>
             Legacy.mkExtracted (Legacy.viewport acc)
               (Legacy.drawElements acc ++ [el])
               (Legacy.restoreId acc) (Legacy.deleteIds acc)
         end.
Proof.
  intros Hn. unfold Legacy.extract_body, LegacyKind.kind_of, tag_kind, type_is.
  destruct el; try done;
    destruct (prop _ "type") as [[| | |s| |]|]; try done;
    repeat case_bool_decide; repeat case_decide; try done; congruence.
Qed.

Lemma legacy_extract_loop (els : list json) (acc : Legacy.Extracted) :
  existsb is_null els = false →
  for_of Legacy.extract_body els acc
  = Some (Legacy.mkExtracted
            (match last (rect_of <$> of_kind LegacyKind.kind_of KViewport els) with
             | Some r => Some r
             | None => Legacy.viewport acc
             end)
            (Legacy.drawElements acc ++ of_kind LegacyKind.kind_of KDrawable els)
            (default (Legacy.restoreId acc)
               (last ((λ el, prop el "id")
                        <$> of_kind LegacyKind.kind_of KRestore els)))
            (fold_left Legacy.set_add
               ((λ el, prop el "id") <$> of_kind LegacyKind.kind_of KDelete els)
               (Legacy.deleteIds acc))).
Proof.
  revert acc. induction els as [|el els IH]; intros acc Hn.
  - simpl. destruct acc. simpl. by rewrite app_nil_r.
  - simpl in Hn. apply orb_false_iff in Hn as [Hel Hels].
    rewrite !of_kind_cons. cbn [for_of].
    rewrite legacy_extract_body_kind by done.
    destruct (LegacyKind.kind_of el); rewrite IH by done; simpl;
      repeat case_decide; try done; simpl; f_equal; f_equal.
    + rewrite last_cons. unfold fmap.
      by match goal with |- context [last ?l] => destruct (last l) end.
    + rewrite last_cons. unfold fmap.
      by match goal with |- context [last ?l] => destruct (last l) end.
    + by rewrite <- app_assoc.
Qed.

Lemma legacy_extract_classified (els : list json) :
  Legacy.extractViewportAndElements els
  = if existsb is_null els then None else Some (legacy_classified els).
Proof.
  unfold Legacy.extractViewportAndElements.
  destruct (existsb is_null els) eqn:Hn.
  - by rewrite for_of_null.
  - rewrite legacy_extract_loop by done. simpl. unfold legacy_classified.
    by destruct (last _).
Qed.

Lemma existsb_is_null (els : list json) :
  existsb is_null els = true ↔ JNull ∈ els.
Proof.
  rewrite existsb_exists. setoid_rewrite <- list_elem_of_In. split.
  - intros (el & Hin & Hn). by destruct el.
  - intros Hin. by exists JNull.
Qed.

(** The members of a [Set] after a run of [add]. *)
Lemma set_add_elem (s : list jsval) (v w : jsval) :
  w ∈ Legacy.set_add s v ↔ w ∈ s ∨ (w = v ∧ Legacy.set_has s v = false).
Proof.
  unfold Legacy.set_add. destruct (Legacy.set_has s v).
  - naive_solver.
  - rewrite elem_of_app, list_elem_of_singleton. naive_solver.
Qed.

Lemma set_fold_sound (vs acc : list jsval) (w : jsval) :
  w ∈ fold_left Legacy.set_add vs acc → w ∈ acc ∨ w ∈ vs.
Proof.
  revert acc. induction vs as [|v vs IH]; intros acc H; simpl in H; [by left|].
  apply IH in H as [H|H].
  - apply set_add_elem in H as [H|[-> _]]; [by left|right; by left].
  - right. by right.
Qed.

Lemma set_fold_mono (vs acc : list jsval) (w : jsval) :
  w ∈ acc → w ∈ fold_left Legacy.set_add vs acc.
Proof.
  revert acc. induction vs as [|v vs IH]; intros acc H; simpl; [done|].
  apply IH, set_add_elem. by left.
Qed.

Lemma set_fold_complete (vs acc : list jsval) (v : jsval) :
  v ∈ vs → ∃ w, w ∈ fold_left Legacy.set_add vs acc ∧ same_member v w.
Proof.
  revert acc. induction vs as [|u vs IH]; intros acc H.
  - by apply elem_of_nil in H.
  - apply elem_of_cons in H as [->|H]; [|by apply IH]. simpl.
    destruct (Legacy.set_has acc u) eqn:Hh.
    + unfold Legacy.set_has in Hh. apply existsb_exists in Hh as (w & Hw & He).
      exists w. split; [|by right].
      apply set_fold_mono, set_add_elem. left. by apply list_elem_of_In.
    + exists u. split; [|by left].
      apply set_fold_mono, set_add_elem. by right.
Qed.

(** No two members of the [Set] are the same value. *)
Lemma set_fold_distinct (vs acc : list jsval) :
  (∀ i j a b, (i < j)%nat → acc !! i = Some a → acc !! j = Some b →
              strict_equal b a = false) →
  ∀ i j a b, (i < j)%nat →
    fold_left Legacy.set_add vs acc !! i = Some a →
    fold_left Legacy.set_add vs acc !! j = Some b →
    strict_equal b a = false.
Proof.
  revert acc. induction vs as [|v vs IH]; intros acc Hacc; [done|].
  simpl. apply IH. unfold Legacy.set_add.
  destruct (Legacy.set_has acc v) eqn:Hh; [done|].
  intros i j a b Hij Hi Hj.
  destruct (decide (j < length acc)%nat) as [Hlt|Hge].
  - rewrite lookup_app_l in Hi by lia. rewrite lookup_app_l in Hj by done.
    exact (Hacc i j a b Hij Hi Hj).
  - rewrite lookup_app_r in Hj by lia.
    destruct (j - length acc)%nat eqn:Ej; [|by destruct n].
    injection Hj as <-.
    assert (Hi' : acc !! i = Some a) by (rewrite lookup_app_l in Hi by lia; done).
    unfold Legacy.set_has in Hh.
    destruct (strict_equal v a) eqn:E; [|done].
    assert (existsb (strict_equal v) acc = true); [|congruence].
    apply existsb_exists. exists a. split; [|done].
    apply list_elem_of_In. by eapply list_elem_of_lookup_2.
Qed.

Lemma tombstone_kept (ids : gset jsstring) (el : json) :
  kept (tombstone ids el) el.
Proof.
  unfold tombstone, kept. destruct (targeted ids el) eqn:Ht; [|by left].
  right. unfold targeted, has in Ht.
  destruct el as [| | | | |o]; try done. by exists o.
Qed.

(** C3. Each element goes to exactly one of the four buckets by its type
    tag, in the classifier with tombstones and in the earlier one (the
    buckets are a partition of the sequence).  The classifier with
    tombstones throws exactly when an element is [null] or is a delete
    directive whose identifiers have no text, the earlier one exactly when
    an element is [null].  Otherwise the viewport holds the four fields of
    the last viewport directive, the restore identifier is the [id] of the
    last restore directive ([null] when there is none), the delete set
    holds exactly the identifiers that the delete directives name, all of
    them together (in the earlier classifier the [id] values of the
    delete directives, each value once), and the drawables are those of
    the input in their order (in the classifier with tombstones each one
    as it was or with the opacity 1; as they were when there is no delete
    directive). *)
Theorem classifier_buckets (els : list json) :
  els ≡ₚ of_kind kind_of KViewport els ++ of_kind kind_of KRestore els
         ++ of_kind kind_of KDelete els ++ of_kind kind_of KDrawable els
  ∧ (extractViewportAndElements els = None ↔ ∃ el, el ∈ els ∧ rejected el)
  ∧ (∀ ex, extractViewportAndElements els = Some ex →
       viewport ex
       = (λ el, VP.mk (prop el "x") (prop el "y") (prop el "width")
                  (prop el "height"))
           <$> last (of_kind kind_of KViewport els)
       ∧ restoreId ex
         = default (Some JNull)
             ((λ el, prop el "id") <$> last (of_kind kind_of KRestore els))
       ∧ (∀ s, s ∈ deleteIds ex
               ↔ ∃ el, el ∈ of_kind kind_of KDelete els ∧ names el s)
       ∧ Forall2 kept (drawElements ex) (of_kind kind_of KDrawable els)
       ∧ (of_kind kind_of KDelete els = [] →
            drawElements ex = of_kind kind_of KDrawable els))
  ∧ els ≡ₚ of_kind LegacyKind.kind_of KViewport els
           ++ of_kind LegacyKind.kind_of KRestore els
           ++ of_kind LegacyKind.kind_of KDelete els
           ++ of_kind LegacyKind.kind_of KDrawable els
  ∧ (Legacy.extractViewportAndElements els = None ↔ JNull ∈ els)
  ∧ (∀ ex, Legacy.extractViewportAndElements els = Some ex →
       Legacy.viewport ex
       = (λ el, VP.mk (prop el "x") (prop el "y") (prop el "width")
                  (prop el "height"))
           <$> last (of_kind LegacyKind.kind_of KViewport els)
       ∧ Legacy.restoreId ex
         = default (Some JNull)
             ((λ el, prop el "id")
                <$> last (of_kind LegacyKind.kind_of KRestore els))
       ∧ (∀ v, v ∈ Legacy.deleteIds ex →
               ∃ el, el ∈ of_kind LegacyKind.kind_of KDelete els
                     ∧ prop el "id" = v)
       ∧ (∀ el, el ∈ of_kind LegacyKind.kind_of KDelete els →
               ∃ v, v ∈ Legacy.deleteIds ex ∧ same_member (prop el "id") v)
       ∧ (∀ i j a b, (i < j)%nat →
            Legacy.deleteIds ex !! i = Some a →
            Legacy.deleteIds ex !! j = Some b → strict_equal b a = false)
       ∧ Legacy.drawElements ex = of_kind LegacyKind.kind_of KDrawable els).
Proof.
  split; [apply of_kind_partition|].
  split; [|split; [|split; [apply of_kind_partition|split]]].
  - rewrite extract_classified, <- existsb_throws.
    by destruct (existsb throws els).
  - intros ex. rewrite extract_classified.
    destruct (existsb throws els) eqn:Hn; [done|]. intros [= <-].
    unfold classified. cbn [viewport restoreId deleteIds drawElements].
    split; [by rewrite fmap_last|]. split; [by rewrite fmap_last|].
    split; [|split].
    + intros s. rewrite elem_of_union_list. split.
      * intros (X & (el & -> & Hel)%list_elem_of_fmap & Hs).
        exists el. split; [done|].
        apply of_kind_elem in Hel as [Hin Hk].
        destruct (String_ (nullish_or (prop el "ids") (prop el "id")))
          as [txt|] eqn:Htxt.
        -- apply (names_spec _ _ _ Htxt).
           rewrite delete_targets_text, Htxt in Hs. simpl in Hs.
           by apply elem_of_list_to_set in Hs.
        -- rewrite delete_targets_text, Htxt in Hs. simpl in Hs.
           by apply elem_of_empty in Hs.
      * intros (el & Hel & Hnm).
        exists (list_to_set (default [] (delete_targets el))).
        split; [apply list_elem_of_fmap; by exists el|].
        destruct Hnm as (parts & p & Htxt & Hrest).
        rewrite delete_targets_text, Htxt. simpl. apply elem_of_list_to_set.
        apply (names_spec _ _ _ Htxt). by exists parts, p.
    + apply Forall2_fmap_l, Forall_Forall2_diag, Forall_forall.
      intros el _. apply tombstone_kept.
    + intros ->. simpl. apply fmap_tombstone_empty.
  - rewrite legacy_extract_classified, <- existsb_is_null.
    by destruct (existsb is_null els).
  - intros ex. rewrite legacy_extract_classified.
    destruct (existsb is_null els) eqn:Hn; [done|]. intros [= <-].
    unfold legacy_classified.
    cbn [Legacy.viewport Legacy.restoreId Legacy.deleteIds Legacy.drawElements].
    split; [by rewrite fmap_last|]. split; [by rewrite fmap_last|].
    split; [|split; [|split; [|done]]].
    + intros v [H|H]%set_fold_sound; [by apply elem_of_nil in H|].
      apply list_elem_of_fmap in H as (el & -> & Hel). by exists el.
    + intros el Hel. apply set_fold_complete, list_elem_of_fmap. by exists el.
    + by apply set_fold_distinct.
Qed.

Lemma classifier_buckets_witness :
  let cam1 :=
    JObj [(lit "type", JStr (lit "cameraUpdate")); (lit "x", JNum (lit "0"));
          (lit "y", JNum (lit "0")); (lit "width", JNum (lit "400"));
          (lit "height", JNum (lit "300"))] in
  let cam2 :=
    JObj [(lit "type", JStr (lit "cameraUpdate")); (lit "x", JNum (lit "40"));
          (lit "y", JNum (lit "30")); (lit "width", JNum (lit "800"));
          (lit "height", JNum (lit "600"))] in
  let rect := JObj [(lit "type", JStr (lit "rectangle")); (lit "id", JStr (lit "a"))] in
  let del1 := JObj [(lit "type", JStr (lit "delete")); (lit "ids", JStr (lit "a, b"))] in
  let del2 := JObj [(lit "type", JStr (lit "delete")); (lit "id", JNum (lit "7.0"))] in
  let res1 := JObj [(lit "type", JStr (lit "restoreCheckpoint")); (lit "id", JStr (lit "cp1"))] in
  let res2 := JObj [(lit "type", JStr (lit "restoreCheckpoint")); (lit "id", JStr (lit "cp2"))] in
  let oval := JObj [(lit "type", JStr (lit "ellipse")); (lit "id", JStr (lit "c"))] in
  ∃ ex,
    extractViewportAndElements [cam1; rect; del1; res1; cam2; del2; res2; oval]
    = Some ex
    ∧ viewport ex
      = Some (VP.mk (Some (JNum (lit "40"))) (Some (JNum (lit "30")))
                (Some (JNum (lit "800"))) (Some (JNum (lit "600"))))
    ∧ restoreId ex = Some (JStr (lit "cp2"))
    ∧ lit "a" ∈ deleteIds ex ∧ lit "b" ∈ deleteIds ex ∧ lit "7" ∈ deleteIds ex
    ∧ lit "c" ∉ deleteIds ex
    ∧ drawElements ex
      = [JObj [(lit "type", JStr (lit "rectangle")); (lit "id", JStr (lit "a"));
               (lit "opacity", JNum (lit "1"))];
         oval].
Proof.
  intros cam1 cam2 rect del1 del2 res1 res2 oval.
  set (els := [cam1; rect; del1; res1; cam2; del2; res2; oval]).
  destruct (classifier_buckets els) as (_ & _ & H & _).
  destruct (extractViewportAndElements els) as [ex|] eqn:Hex;
    [|by vm_compute in Hex].
  exists ex. split; [done|].
  destruct (H ex eq_refl) as (Hv & Hr & Hd & _ & _).
  split; [by rewrite Hv|]. split; [by rewrite Hr|].
  assert (Ha : names del1 (lit "a")).
  { exists [lit "a"; lit " b"], (lit "a"). repeat split; try done.
    - by apply (bool_decide_unpack _).
    - by left.
    - exists [], []. by vm_compute. }
  assert (Hb : names del1 (lit "b")).
  { exists [lit "a"; lit " b"], (lit " b"). repeat split; try done.
    - by apply (bool_decide_unpack _).
    - right. by left.
    - exists [Ch.space], []. vm_compute. repeat split; by repeat constructor. }
  assert (H7 : names del2 (lit "7")).
  { exists [lit "7"], (lit "7"). repeat split; try done.
    - by apply (bool_decide_unpack _).
    - by left.
    - exists [], []. by vm_compute. }
  assert (H1 : del1 ∈ of_kind kind_of KDelete els).
  { apply of_kind_elem. split; [|done]. do 2 right. by left. }
  assert (H2 : del2 ∈ of_kind kind_of KDelete els).
  { apply of_kind_elem. split; [|done]. do 5 right. by left. }
  split; [apply Hd; by exists del1|].
  split; [apply Hd; by exists del1|].
  split; [apply Hd; by exists del2|].
  split.
  - intros Hc. vm_compute in Hex. injection Hex as <-.
    revert Hc. by apply (bool_decide_unpack _).
  - vm_compute in Hex. by injection Hex as <-.
Defined.

(** *** C6: the tombstones *)

Lemma obj_get_set_eq (k : jsstring) (v : json) (o : obj) :
  obj_get (obj_set k v o) k = Some v.
Proof.
  induction o as [|[k' v'] o IH]; simpl.
  - by rewrite decide_True.
  - destruct (decide (k' = k)) as [->|Hne]; simpl.
    + by rewrite decide_True.
    + by rewrite decide_False.
Qed.

Lemma obj_get_set_ne (k k' : jsstring) (v : json) (o : obj) :
  k' ≠ k → obj_get (obj_set k v o) k' = obj_get o k'.
Proof.
  intros Hne. induction o as [|[k0 v0] o IH]; simpl.
  - case_decide; congruence.
  - destruct (decide (k0 = k)) as [->|Hk]; simpl.
    + repeat case_decide; congruence.
    + destruct (decide (k0 = k')); [done|apply IH].
Qed.

Lemma has_spec (ids : gset jsstring) (v : jsval) :
  has ids v = true ↔ ∃ s, v = Some (JStr s) ∧ s ∈ ids.
Proof.
  destruct v as [[| | |s| |]|]; simpl; try (split; [done|]; by intros (? & ? & _)).
  rewrite bool_decide_eq_true. split; [eauto|]. by intros (? & [= ->] & ?).
Qed.

Lemma targeted_spec (ids : gset jsstring) (el : json) :
  targeted ids el = true ↔ is_target ids el.
Proof.
  unfold targeted, is_target. by rewrite orb_true_iff, !has_spec.
Qed.

Lemma is_target_object (ids : gset jsstring) (el : json) :
  is_target ids el → ∃ o, el = JObj o.
Proof.
  intros [(s & H & _)|(s & H & _)]; destruct el; try done; eauto.
Qed.

Lemma not_rejected_throws (els : list json) :
  (∀ el, el ∈ els → ¬ rejected el) → existsb throws els = false.
Proof.
  intros H. apply not_true_is_false. rewrite existsb_throws.
  intros (el & Hin & Hr). by apply (H el).
Qed.

Lemma not_rejected_null (els : list json) :
  (∀ el, el ∈ els → ¬ rejected el) → existsb is_null els = false.
Proof.
  intros H. apply not_true_is_false. rewrite existsb_is_null.
  intros Hin. apply (H JNull Hin). by left.
Qed.

(** C6, as amended. In the classifier with tombstones, for every element
    sequence that it takes, the drawables of the result are the drawables
    of the input, one for one and in the same positions: one whose
    identifier or container reference is in the delete set is there with
    its opacity set
    to the number 1 (which is not zero) and every other property as it
    was; every other drawable is there unchanged.  Nothing is removed.  The
    classifier of the earlier variant gives every drawable back as it
    was. *)
Theorem tombstones_keep_positions (els : list json) :
  (∀ el, el ∈ els → ¬ rejected el) →
  (∃ ex, extractViewportAndElements els = Some ex
     ∧ length (drawElements ex) = length (of_kind kind_of KDrawable els)
     ∧ ∀ i el, of_kind kind_of KDrawable els !! i = Some el →
         (is_target (deleteIds ex) el →
            ∃ o, el = JObj o
              ∧ drawElements ex !! i
                = Some (JObj (obj_set (lit "opacity") (JNum (lit "1")) o))
              ∧ obj_get (obj_set (lit "opacity") (JNum (lit "1")) o)
                  (lit "opacity")
                = Some (JNum (lit "1"))
              ∧ number_value (lit "1") = Num.Fin 1
              ∧ ∀ k, k ≠ lit "opacity" →
                  obj_get (obj_set (lit "opacity") (JNum (lit "1")) o) k
                  = obj_get o k)
         ∧ (¬ is_target (deleteIds ex) el → drawElements ex !! i = Some el))
  ∧ (∃ ex, Legacy.extractViewportAndElements els = Some ex
       ∧ Legacy.drawElements ex = of_kind LegacyKind.kind_of KDrawable els).
Proof.
  intros Hn. split.
  - exists (classified els).
    rewrite extract_classified, (not_rejected_throws _ Hn). split; [done|].
    unfold classified; simpl. split; [by rewrite length_fmap|].
    intros i el Hi. rewrite list_lookup_fmap, Hi. simpl. unfold tombstone.
    split.
    + intros Ht. destruct (is_target_object _ _ Ht) as [o ->].
      apply targeted_spec in Ht. rewrite Ht. simpl.
      exists o. repeat split; try done.
      * apply obj_get_set_eq.
      * intros k Hk. by apply obj_get_set_ne.
    + intros Ht. rewrite <- targeted_spec in Ht.
      apply not_true_is_false in Ht. by rewrite Ht.
  - exists (legacy_classified els).
    by rewrite legacy_extract_classified, (not_rejected_null _ Hn).
Qed.

Lemma tombstones_keep_positions_witness :
  ∃ ex,
    extractViewportAndElements
      [JObj [(lit "type", JStr (lit "rectangle")); (lit "id", JStr (lit "a"));
             (lit "opacity", JNum (lit "100"))];
       JObj [(lit "type", JStr (lit "delete")); (lit "ids", JStr (lit "a, c"))];
       JObj [(lit "type", JStr (lit "text")); (lit "containerId", JStr (lit "a"))];
       JObj [(lit "type", JStr (lit "ellipse")); (lit "id", JStr (lit "b"))]]
    = Some ex
    ∧ drawElements ex
      = [JObj [(lit "type", JStr (lit "rectangle")); (lit "id", JStr (lit "a"));
               (lit "opacity", JNum (lit "1"))];
         JObj [(lit "type", JStr (lit "text")); (lit "containerId", JStr (lit "a"));
               (lit "opacity", JNum (lit "1"))];
         JObj [(lit "type", JStr (lit "ellipse")); (lit "id", JStr (lit "b"))]].
Proof.
  destruct (tombstones_keep_positions
    [JObj [(lit "type", JStr (lit "rectangle")); (lit "id", JStr (lit "a"));
           (lit "opacity", JNum (lit "100"))];
     JObj [(lit "type", JStr (lit "delete")); (lit "ids", JStr (lit "a, c"))];
     JObj [(lit "type", JStr (lit "text")); (lit "containerId", JStr (lit "a"))];
     JObj [(lit "type", JStr (lit "ellipse")); (lit "id", JStr (lit "b"))]])
    as [(ex & Hex & _) _].
  { intros el Hin Hr. apply throws_spec in Hr.
    repeat (apply elem_of_cons in Hin as [->|Hin]; [by vm_compute in Hr|]).
    by apply elem_of_nil in Hin. }
  exists ex. split; [done|].
  vm_compute in Hex. injection Hex as <-. reflexivity.
Defined.

(** The classifier of the earlier variant has no tombstone: a deleted
    drawable stays as it is. *)
Lemma legacy_deletion_is_no_tombstone : ¬ legacy_deletion_is_a_tombstone.
Proof.
  intros H.
  set (rect := JObj [(lit "type", JStr (lit "rectangle"));
                     (lit "id", JStr (lit "a"));
                     (lit "opacity", JNum (lit "100"))]).
  set (del := JObj [(lit "type", JStr (lit "deleteElement"));
                    (lit "id", JStr (lit "a"))]).
  destruct (H [rect; del]
              (Legacy.mkExtracted None [rect] (Some JNull) [Some (JStr (lit "a"))])
              eq_refl 0%nat rect eq_refl eq_refl) as (d & Hd & Ho).
  injection Hd as <-. discriminate Ho.
Qed.

(** ** C4 and C5: the render decision and the fallback viewport *)

Lemma strokes_app (a b : list effect) : strokes (a ++ b) = strokes a ++ strokes b.
Proof. apply omap_app. Qed.

Lemma renders_app (a b : list effect) : renders (a ++ b) = renders a ++ renders b.
Proof. apply omap_app. Qed.

Lemma stroke_type_key (el : json) :
  stroke_type el
  = match prop el "type" with
    | None | Some JNull => JStr (lit "rectangle")
    | Some ty => ty
    end.
Proof. unfold stroke_type. by destruct (prop el "type") as [[]|]. Qed.

Lemma strokes_playStroke (l : list json) :
  strokes ((λ el, playStroke (stroke_type el)) <$> l)
  = (λ el, match prop el "type" with
           | None | Some JNull => JStr (lit "rectangle")
           | Some ty => ty
           end) <$> l.
Proof.
  induction l as [|e l IH]; [done|]. rewrite !fmap_cons. simpl.
  by rewrite IH, stroke_type_key.
Qed.

Lemma renders_playStroke (l : list json) :
  renders ((λ el, playStroke (stroke_type el)) <$> l) = [].
Proof. induction l as [|e l IH]; [done|]. by rewrite fmap_cons. Qed.

Lemma find_camera_first (pre post : list json) (cam : json) :
  Forall (λ e, is_null e = false ∧ type_is e "cameraUpdate" = false) pre →
  type_is cam "cameraUpdate" = true →
  find_camera (pre ++ cam :: post) = Some (Some cam).
Proof.
  intros Hpre Hcam. induction Hpre as [|e pre [He1 He2] Hpre IH]; simpl.
  - rewrite Hcam. by destruct cam.
  - rewrite He2, IH. by destruct e.
Qed.

Section View.

Variable convertToExcalidrawElements : list json → list obj.
Variable Excalifont : jsval.
Variable loadCheckpoint : option (json → json).
Variable random : nat → N.
Variable editedElements : option (list json).

Local Abbreviation DV_doStream :=
  (doStream convertToExcalidrawElements Excalifont loadCheckpoint random).
Local Abbreviation DV_stream_restore :=
  (stream_restore convertToExcalidrawElements Excalifont loadCheckpoint).
Local Abbreviation DV_convertRawElements :=
  (convertRawElements convertToExcalidrawElements Excalifont).
Local Abbreviation DV_doFinal :=
  (doFinal convertToExcalidrawElements Excalifont loadCheckpoint
     editedElements).

Lemma doStream_ends_with_render sid dids vp draw st r :
  DV_doStream sid dids vp draw st = Some r →
  ∃ vp' base restored, r = stream_render random vp' draw base restored st.
Proof.
  unfold doStream. intros H. repeat case_match; simplify_eq; eauto.
Qed.

Lemma jitter_lookup k (els : list json) i el :
  els !! i = Some el →
  jitter random k els !! i
  = Some (JObj (obj_set (lit "seed") (JNum (decimal (random (k + i)%nat)))
                  (spread (Some el)))).
Proof. intros H. unfold jitter. by rewrite list_lookup_imap, H. Qed.

Lemma stream_render_base_alone vp base restored st :
  latestRef st = [] → nonempty base = true →
  stream_render random vp [] base restored st
  = (mkView [] restored (randomCalls st), [renderSvgPreview [] vp base]).
Proof.
  intros Hl Hb. unfold stream_render. rewrite Hl. simpl. by rewrite Hb.
Qed.

Lemma stream_renders_base_alone
    (chunks : list (option (ViewportRect jsval) * option (list json)
                    * option (jsval * list json))) :
  ∀ st, latestRef st = [] →
    Forall (λ c, nonempty c.1.2 = true) chunks →
    stream_renders random ((λ c, (c.1.1, [], c.1.2, c.2)) <$> chunks) st
    = (λ c, [renderSvgPreview [] c.1.1 c.1.2]) <$> chunks.
Proof.
  induction chunks as [|[[vp base] restored] chunks IH]; intros st Hl Hall;
    [done|].
  inversion Hall as [|? ? Hb Hrest]; subst. simpl in Hb.
  rewrite !fmap_cons. cbn [stream_renders fst snd].
  rewrite stream_render_base_alone by done. cbn [fst snd].
  by rewrite IH.
Qed.

(** C4, as amended. In the partial path, the render decision for a chunk
    with [n] drawables, [prev] being the number drawn before: feedback
    is emitted (followed by a re-render) exactly when [prev < n]; then
    there is exactly one signal for each index from [prev] up to [n],
    which is the type of the element at that index (["rectangle"] when
    it has none), and the rendered elements are all the [n] drawables,
    each with its own newly drawn random seed.  When there are no drawables,
    none were drawn before and a non-empty checkpoint base exists, the
    base alone is rendered; the count of drawn elements stays zero, so
    the base is rendered alone again for every later chunk of that
    kind.  The other cases complete the table: a count that shrinks to
    a non-zero value is re-rendered without any signal, and an
    unchanged count, or no drawables with something drawn before or
    without a base, does nothing.  [doStream] always ends with this
    decision. *)
Theorem stream_feedback_and_jitter
    (viewport : option (ViewportRect jsval)) (drawElements : list json)
    (base : option (list json)) (restored : option (jsval * list json))
    (st : View) :
  let prev := length (latestRef st) in
  let n := length drawElements in
  let st' := (stream_render random viewport drawElements base restored st).1 in
  let effs := (stream_render random viewport drawElements base restored st).2 in
  let jittered := jitter random (randomCalls st) drawElements in
  let key := λ el : json,
    match prop el "type" with
    | None | Some JNull => JStr (lit "rectangle")
    | Some ty => ty
    end in
  ((strokes effs ≠ [] ∧ renders effs ≠ []) ↔ (prev < n)%nat)
  ∧ (strokes effs ≠ [] ↔ (prev < n)%nat)
  ∧ ((prev < n)%nat →
       strokes effs = key <$> drop prev drawElements
       ∧ length (strokes effs) = (n - prev)%nat
       ∧ (∀ j, (j < n - prev)%nat →
               strokes effs !! j = key <$> drawElements !! (prev + j)%nat)
       ∧ renders effs = [(jittered, viewport, base)]
       ∧ length jittered = n
       ∧ (∀ i el, drawElements !! i = Some el →
            jittered !! i
            = Some (JObj (obj_set (lit "seed")
                            (JNum (decimal (random (randomCalls st + i)%nat)))
                            (spread (Some el)))))
       ∧ randomCalls st' = (randomCalls st + n)%nat
       ∧ latestRef st' = drawElements)
  ∧ (n = 0%nat → prev = 0%nat → nonempty base = true →
       effs = [renderSvgPreview [] viewport base]
       ∧ latestRef st' = [] ∧ randomCalls st' = randomCalls st)
  ∧ (∀ chunks : list (option (ViewportRect jsval) * option (list json)
                      * option (jsval * list json)),
       prev = 0%nat →
       Forall (λ c, nonempty c.1.2 = true) chunks →
       stream_renders random ((λ c, (c.1.1, [], c.1.2, c.2)) <$> chunks) st
       = (λ c, [renderSvgPreview [] c.1.1 c.1.2]) <$> chunks)
  ∧ ((0 < n)%nat → (n < prev)%nat →
       strokes effs = [] ∧ renders effs = [(jittered, viewport, base)])
  ∧ ((0 < n)%nat → n = prev → effs = [])
  ∧ (n = 0%nat → prev ≠ 0%nat ∨ nonempty base = false → effs = [])
  ∧ (∀ sid dids vp r,
       DV_doStream sid dids vp drawElements st = Some r →
       ∃ vp' base' restored',
         r = stream_render random vp' drawElements base' restored' st).
Proof.
  intros prev n st' effs jittered key.
  assert (Hcases :
    ((prev < n)%nat ∧ effs
       = ((λ el, playStroke (stroke_type el)) <$> drop prev drawElements)
         ++ [setCount n; renderSvgPreview jittered viewport base]
       ∧ st' = mkView drawElements restored (randomCalls st + n))
    ∨ ((n ≤ prev)%nat ∧ strokes effs = [])).
  { subst st' effs. unfold stream_render. fold prev n.
    destruct (0 <? n)%nat eqn:E0; simpl.
    - destruct (n =? prev)%nat eqn:E1; simpl.
      + right. apply Nat.eqb_eq in E1. split; [lia|]. by case_match.
      + apply Nat.eqb_neq in E1. apply Nat.ltb_lt in E0.
        destruct (decide (prev < n)%nat) as [Hlt|Hge]; [left; done|].
        right. split; [lia|]. rewrite strokes_app, strokes_playStroke.
        rewrite drop_ge by lia. done.
    - right. apply Nat.ltb_ge in E0. split; [lia|]. by case_match. }
  assert (Hs : strokes effs ≠ [] ↔ (prev < n)%nat).
  { destruct Hcases as [(Hlt & -> & _)|[Hge Hs]].
    - split; [done|]. intros _.
      rewrite strokes_app, strokes_playStroke.
      destruct (drop prev drawElements) eqn:Ed; [|done].
      apply (f_equal length) in Ed. rewrite length_drop in Ed. simpl in Ed.
      lia.
    - rewrite Hs. split; [done|lia]. }
  split; [|split; [done|split; [|split; [|split; [|split; [|split; [|split]]]]]]].
  - rewrite <- Hs. split; [tauto|]. intros Hne. split; [done|].
    destruct Hcases as [(Hlt & -> & _)|[Hge Hs']]; [|tauto].
    by rewrite renders_app, renders_playStroke.
  - intros Hlt. destruct Hcases as [(_ & He & Hst)|[Hge _]]; [|lia].
    rewrite He, Hst, strokes_app, renders_app, strokes_playStroke,
      renders_playStroke. simpl. rewrite app_nil_r.
    repeat split; try done.
    + rewrite length_fmap, length_drop. done.
    + intros j Hj. by rewrite list_lookup_fmap, lookup_drop.
    + unfold jittered, jitter. by rewrite length_imap.
    + intros i el Hi. by apply jitter_lookup.
  - intros Hn Hp Hb. subst st' effs.
    destruct drawElements; [|done].
    rewrite stream_render_base_alone; [done| |done].
    by destruct (latestRef st).
  - intros chunks Hp Hall. apply stream_renders_base_alone; [|done].
    by destruct (latestRef st).
  - intros H0 Hlt. subst effs. unfold stream_render. fold prev n.
    rewrite (proj2 (Nat.ltb_lt 0 n) H0).
    rewrite (proj2 (Nat.eqb_neq n prev)) by lia. simpl.
    rewrite strokes_app, renders_app, strokes_playStroke,
      renders_playStroke, drop_ge by lia. done.
  - intros H0 Heq. subst effs. unfold stream_render. fold prev n.
    rewrite (proj2 (Nat.ltb_lt 0 n) H0), (proj2 (Nat.eqb_eq n prev) Heq).
    simpl. rewrite (proj2 (Nat.eqb_neq prev 0)) by lia.
    by rewrite andb_false_r.
  - intros Hn Hor. subst effs. unfold stream_render. fold prev n.
    rewrite Hn. simpl. destruct Hor as [Hp| ->]; [|done].
    rewrite (proj2 (Nat.eqb_neq prev 0)) by done. by rewrite andb_false_r.
  - intros sid dids vp r. apply doStream_ends_with_render.
Qed.

Lemma convertRawElements_no_null (els conv : list json) :
  DV_convertRawElements els = Some conv → existsb is_null conv = false.
Proof.
  unfold convertRawElements. destruct (existsb is_null els) eqn:Hn; [done|].
  intros [= <-]. rewrite existsb_app. apply orb_false_iff. split.
  - induction (convertToExcalidrawElements _) as [|o l IH]; [done|].
    rewrite fmap_cons. cbn [existsb]. rewrite IH.
    unfold withFont. by case_match.
  - induction els as [|e els IH]; [done|].
    simpl in Hn. apply orb_false_iff in Hn as [He Hels].
    simpl. destruct (is_pseudo e); simpl; rewrite ?He; auto.
Qed.

Lemma convertRawElements_total (els : list json) :
  existsb is_null els = false → ∃ conv, DV_convertRawElements els = Some conv.
Proof. intros Hn. unfold convertRawElements. rewrite Hn. eauto. Qed.

Lemma apply_deletes_total (ids : gset jsstring) (base : list json) :
  existsb is_null base = false → ∃ base', apply_deletes ids base = Some base'.
Proof.
  intros Hn. unfold apply_deletes, filter_untargeted. rewrite Hn.
  case_match; eauto.
Qed.

Lemma forall_not_null (l : list json) :
  Forall (λ e, is_null e = false) l → existsb is_null l = false.
Proof. induction 1 as [|e l He Hl IH]; [done|]. simpl. by rewrite He. Qed.


End View.



(** The base is rendered alone for each chunk that arrives before the
    first drawable: here for two chunks of one stream. *)
Lemma base_is_rendered_alone_again : ¬ base_rendered_alone_once.
Proof.
  intros H.
  set (keep := λ l : list json,
    omap (λ e, match e with JObj o => Some o | _ => None end) l).
  set (saved :=
    JObj [(lit "elements",
           JArr [JObj [(lit "type", JStr (lit "rectangle"));
                       (lit "id", JStr (lit "a"))]])]).
  set (chunks :=
    [text "[{'type':'restoreCheckpoint','id':'cp1'},{'ty";
     text "[{'type':'restoreCheckpoint','id':'cp1'},{'type':'ellipse','id"]).
  pose proof (H keep None (Some (λ _, saved)) (λ _, 7%N) chunks
                (mkView [] None 0)) as H'.
  destruct (partialInputs keep None (Some (λ _, saved)) (λ _, 7%N) chunks
              (mkView [] None 0)) as [effs|] eqn:E; [|by vm_compute in E].
  specialize (H' effs eq_refl).
  vm_compute in E. injection E as <-. simpl in H'. lia.
Qed.

(** The final path on a chunk with a restore directive and no camera: the
    camera of the checkpoint is the viewport of the render. *)
Example finalInput_restores_camera :
  let keep := λ l : list json,
    omap (λ e, match e with JObj o => Some o | _ => None end) l in
  let saved :=
    default JNull
      (JSON_parse
         (text "{'elements':[{'type':'rectangle','id':'a'},{'type':'cameraUpdate','x':40,'y':30,'width':800,'height':600}]}")) in
  renders
    (default (mkView [] None 0, [])
       (finalInput keep None (Some (λ _, saved)) None
          (text "[{'type':'restoreCheckpoint','id':'cp1'},{'type':'ellipse','id':'b'}]")
          (mkView [] None 0))).2
  = [([JObj [(lit "type", JStr (lit "ellipse")); (lit "id", JStr (lit "b"))]],
      Some (VP.mk (Some (JNum (lit "40"))) (Some (JNum (lit "30")))
              (Some (JNum (lit "800"))) (Some (JNum (lit "600")))),
      Some [JObj [(lit "type", JStr (lit "rectangle")); (lit "id", JStr (lit "a"))];
            JObj [(lit "type", JStr (lit "cameraUpdate"));
                  (lit "x", JNum (lit "40")); (lit "y", JNum (lit "30"));
                  (lit "width", JNum (lit "800"));
                  (lit "height", JNum (lit "600"))]])].
Proof. vm_compute. reflexivity. Qed.

(** ** C7: the 4:3 normalisation *)

Section Viewport.

Local Open Scope Q_scope.

Lemma Qlt_b_true (a b : Q) : Qlt_b a b = true ↔ a < b.
Proof.
  unfold Qlt_b. rewrite negb_true_iff, <- not_true_iff_false, Qle_bool_iff.
  split; [apply Qnot_le_lt|apply Qlt_not_le].
Qed.

Lemma Qlt_b_false (a b : Q) : Qlt_b a b = false ↔ b <= a.
Proof.
  unfold Qlt_b. by rewrite negb_false_iff, Qle_bool_iff.
Qed.

Lemma round_near (q : Q) : Qabs (round q - q) <= 1 # 2.
Proof.
  unfold round. apply Qabs_Qle_condition.
  pose proof (Qfloor_le (q + (1 # 2))) as Hle.
  pose proof (Qlt_floor (q + (1 # 2))) as Hlt.
  rewrite inject_Z_plus in Hlt. change (inject_Z 1) with 1 in Hlt.
  split; lra.
Qed.

Lemma round_integer (q : Q) (z : Z) : q == inject_Z z → round q == q.
Proof.
  intros Hq. unfold round.
  assert (Qfloor (q + (1 # 2)) = z) as ->; [|by rewrite Hq].
  pose proof (Qfloor_le (q + (1 # 2))) as Hle.
  pose proof (Qlt_floor (q + (1 # 2))) as Hlt.
  rewrite inject_Z_plus in Hlt. change (inject_Z 1) with 1 in Hlt.
  assert (H1 : inject_Z (Qfloor (q + (1 # 2))) < inject_Z (z + 1))
    by (rewrite inject_Z_plus; change (inject_Z 1) with 1; lra).
  assert (H2 : inject_Z z < inject_Z (Qfloor (q + (1 # 2)) + 1))
    by (rewrite inject_Z_plus; change (inject_Z 1) with 1; lra).
  rewrite <- Zlt_Qlt in H1, H2. lia.
Qed.

Lemma ratio_gt (w h c : Q) : 0 < h → (c < w / h ↔ c * h < w).
Proof.
  intros Hh. split.
  - intros H. apply (Qmult_lt_r _ _ h Hh) in H.
    rewrite Qmult_comm, (Qmult_comm (w / h)), Qmult_div_r in H by lra. lra.
  - intros H. apply Qlt_shift_div_l; [done|lra].
Qed.

Lemma ratio_lt (w h c : Q) : 0 < h → (w / h < c ↔ w < c * h).
Proof.
  intros Hh. split.
  - intros H. apply (Qmult_lt_r _ _ h Hh) in H.
    rewrite (Qmult_comm (w / h)), Qmult_div_r in H by lra. lra.
  - intros H. apply Qlt_shift_div_r; [done|lra].
Qed.

Lemma not_near_cases (r : Q) :
  near_4x3 r = false → (4 / 3 < r ∨ r < 4 / 3).
Proof.
  unfold near_4x3. rewrite Qlt_b_false. intros H.
  destruct (Qlt_le_dec (4 / 3) r) as [Hlt|Hle]; [by left|right].
  apply Qle_lteq in Hle as [Hlt|Heq]; [done|].
  rewrite <- Heq in H. exfalso. revert H. apply Qlt_not_le.
  assert (Hz : r - r == 0) by ring. by rewrite Hz.
Qed.




End Viewport.

(** ** Binary64 rounding *)

Section Binary64.

Local Open Scope Q_scope.

Lemma pow2_pos (e : Z) : 0 < 2 ^ e.
Proof. by apply Qpower_0_lt. Qed.

Lemma pow2_le (e f : Z) : (e <= f)%Z → 2 ^ e <= 2 ^ f.
Proof. intros H. by apply Qpower_le_compat_l. Qed.

Lemma pow2_inject (k : Z) : (0 <= k)%Z → inject_Z (2 ^ k) == 2 ^ k.
Proof. intros H. by rewrite Zpower_Qpower. Qed.

Lemma Qle_bool_false (a b : Q) : Qle_bool a b = false ↔ b < a.
Proof.
  rewrite <- not_true_iff_false, Qle_bool_iff. split; [apply Qnot_le_lt|].
  intros H1 H2. by apply (Qlt_not_le _ _ H1).
Qed.

(** [2 ^ binade q] is at most [|q|]. *)
Lemma binade_le (q : Q) : ¬ q == 0 → 2 ^ Num.binade q <= Qabs q.
Proof.
  intros Hq. unfold Num.binade.
  set (n := Z.abs (Qnum q)). set (d := Z.pos (Qden q)).
  destruct (Qle_bool (2 ^ (Z.log2 n - Z.log2 d)) (Qabs q)) eqn:E;
    [by apply Qle_bool_iff|].
  assert (Hn : (0 < n)%Z).
  { subst n. destruct q as [[|p|p] dq]; simpl; try lia.
    destruct Hq. reflexivity. }
  assert (Hd : (0 < d)%Z) by (subst d; lia).
  destruct (Z.log2_spec n Hn) as [Hn1 _].
  destruct (Z.log2_spec d Hd) as [_ Hd2].
  pose proof (Z.log2_nonneg n) as Hln. pose proof (Z.log2_nonneg d) as Hld.
  replace (Z.log2 n - Z.log2 d - 1)%Z with (Z.log2 n - (Z.log2 d + 1))%Z
    by lia.
  rewrite Qpower_minus by done.
  rewrite <- (pow2_inject (Z.log2 n)), <- (pow2_inject (Z.log2 d + 1)) by lia.
  assert (Hq' : Qabs q == inject_Z n / inject_Z d).
  { destruct q as [nq dq]. subst n d. simpl. unfold Qabs.
    by rewrite Qmake_Qdiv. }
  rewrite Hq'.
  assert (H0d : 0 < inject_Z d).
  { change 0 with (inject_Z 0). by rewrite <- Zlt_Qlt. }
  assert (H0b : 0 < inject_Z (2 ^ (Z.log2 d + 1))).
  { change 0 with (inject_Z 0). rewrite <- Zlt_Qlt. lia. }
  apply Qle_shift_div_l; [done|].
  unfold Qdiv. rewrite <- Qmult_assoc, (Qmult_comm (/ _)), Qmult_assoc.
  apply Qle_shift_div_r; [done|].
  rewrite <- !inject_Z_mult, <- Zle_Qle.
  replace (Z.succ (Z.log2 d)) with (Z.log2 d + 1)%Z in Hd2 by lia.
  nia.
Qed.

Lemma binade_lt (q : Q) (k : Z) :
  ¬ q == 0 → Qabs q < 2 ^ k → (Num.binade q < k)%Z.
Proof.
  intros Hq Hk. apply (Qpower_lt_compat_l_inv 2); [|done].
  eapply Qle_lt_trans; [by apply binade_le|done].
Qed.

Lemma nearest_even_near (x : Q) :
  Qabs (inject_Z (Num.nearest_even x) - x) <= 1 # 2.
Proof.
  unfold Num.nearest_even.
  pose proof (Qfloor_le x) as Hlo. pose proof (Qlt_floor x) as Hhi.
  rewrite inject_Z_plus in Hhi. change (inject_Z 1) with 1 in Hhi.
  apply Qabs_Qle_condition.
  destruct (Qle_bool (1 # 2) (x - inject_Z (Qfloor x))) eqn:E1; simpl.
  - apply Qle_bool_iff in E1.
    destruct (Qle_bool (x - inject_Z (Qfloor x)) (1 # 2)) eqn:E2; simpl.
    + apply Qle_bool_iff in E2.
      destruct (Z.even (Qfloor x)).
      * lra.
      * rewrite inject_Z_plus. change (inject_Z 1) with 1. lra.
    + apply Qle_bool_false in E2.
      rewrite inject_Z_plus. change (inject_Z 1) with 1. lra.
  - apply Qle_bool_false in E1. lra.
Qed.

(** The rounding error: half a unit in the last place. *)
Lemma of_Q_near (k : Z) (q : Q) :
  (-1020 <= k <= 1000)%Z → Qabs q < 2 ^ k →
  ∃ r, Num.of_Q q = Num.Fin r ∧ Qabs (r - q) <= 2 ^ (k - 54).
Proof.
  intros Hk Hq. unfold Num.of_Q.
  destruct (Qeq_bool q 0) eqn:E0.
  - apply Qeq_bool_iff in E0. exists 0. split; [done|].
    rewrite E0. change (Qabs (0 - 0)) with 0.
    apply Qlt_le_weak, pow2_pos.
  - apply Qeq_bool_neq in E0.
    pose proof (binade_lt q k E0 Hq) as Hb.
    set (u := Num.ulp q).
    assert (Hu0 : 0 < u) by apply pow2_pos.
    assert (Hu : u <= 2 ^ (k - 53)).
    { apply pow2_le. lia. }
    set (m := Num.nearest_even (q / u)).
    pose proof (nearest_even_near (q / u)) as Hm. fold m in Hm.
    assert (Herr : Qabs (inject_Z m * u - q) <= 2 ^ (k - 54)).
    { assert (Heq : inject_Z m * u - q == (inject_Z m - q / u) * u)
        by (field; lra).
      rewrite Heq, Qabs_Qmult, (Qabs_pos u) by lra.
      apply Qle_trans with ((1 # 2) * 2 ^ (k - 53)).
      - apply Qmult_le_compat_nonneg; split;
          [apply Qabs_nonneg|done|lra|done].
      - replace (k - 53)%Z with ((k - 54) + 1)%Z by lia.
        rewrite Qpower_plus by done. change (2 ^ 1) with 2.
        pose proof (pow2_pos (k - 54)). lra. }
    assert (Hbig : 2 ^ (k + 1) <= 2 ^ 1024) by (apply pow2_le; lia).
    assert (H2k : 2 ^ (k + 1) == 2 * 2 ^ k).
    { rewrite Qpower_plus by done. change (2 ^ 1) with 2. lra. }
    assert (Hsmall : 2 ^ (k - 54) <= 2 ^ k) by (apply pow2_le; lia).
    assert (Hr : Qabs (inject_Z m * u) < 2 ^ 1024).
    { apply Qabs_Qle_condition in Herr.
      apply Qabs_Qlt_condition in Hq.
      apply Qabs_Qlt_condition. lra. }
    apply Qabs_Qlt_condition in Hr.
    rewrite (proj2 (Qle_bool_false (2 ^ 1024) (Qred (inject_Z m * u))))
      by (rewrite Qred_correct; lra).
    rewrite (proj2 (Qle_bool_false (Qred (inject_Z m * u)) (- 2 ^ 1024)))
      by (rewrite Qred_correct; lra).
    exists (Qred (inject_Z m * u)). split; [done|].
    by rewrite Qred_correct.
Qed.

End Binary64.

(** ** C8: the animation *)

Section Animation.

Local Open Scope Q_scope.

Lemma Qabs_mult_le (x y bx by_ : Q) :
  Qabs x <= bx → Qabs y <= by_ → Qabs (x * y) <= bx * by_.
Proof.
  intros Hx Hy. rewrite Qabs_Qmult.
  apply Qmult_le_compat_nonneg; split;
    [apply Qabs_nonneg|done|apply Qabs_nonneg|done].
Qed.

Lemma Qabs_sub_le (x y : Q) : Qabs x - Qabs y <= Qabs (x - y).
Proof. apply Qabs_triangle_reverse. Qed.

Lemma Qabs_le_add (x y : Q) : Qabs x <= Qabs y + Qabs (x - y).
Proof. pose proof (Qabs_sub_le x y). lra. Qed.

(** Rounding below [2 ^ 42] and below [2 ^ 44]. *)
Lemma round42 (q : Q) :
  Qabs q < 4398046511104 →
  ∃ r, Num.of_Q q = Num.Fin r ∧ Qabs (r - q) <= 1 # 4096.
Proof. intros H. by apply (of_Q_near 42). Qed.

Lemma round44 (q : Q) :
  Qabs q < 17592186044416 →
  ∃ r, Num.of_Q q = Num.Fin r ∧ Qabs (r - q) <= 1 # 1024.
Proof. intros H. by apply (of_Q_near 44). Qed.

Lemma LERP_SPEED_near :
  ∃ c, LERP_SPEED = Num.Fin c ∧ 299 # 10000 <= c ∧ c <= 3 # 100.
Proof. eexists. split; [by vm_compute|]. split; by vm_compute. Qed.

(** One field after a tick. *)
Lemma lerp_near (a t : Q) :
  Qabs t <= 1099511627776 → Qabs (t - a) <= 2199023255552 →
  ∃ a', lerp (Num.Fin a) (Num.Fin t) = Num.Fin a'
        ∧ Qabs (t - a') <= (9701 # 10000) * Qabs (t - a) + (3 # 4096).
Proof.
  intros Ht Hg. unfold lerp, Num.sub, Num.neg.
  destruct LERP_SPEED_near as (c & -> & Hc1 & Hc2).
  cbn [Num.add].
  assert (Eg : t + - a == t - a) by ring.
  destruct (round42 (t + - a)) as (d1 & -> & H1); [rewrite Eg; lra|].
  rewrite Eg in H1. cbn [Num.mul].
  assert (Hd1 : Qabs d1 <= 2199023255553).
  { pose proof (Qabs_le_add d1 (t - a)). lra. }
  assert (Hca : Qabs c <= 3 # 100) by (rewrite Qabs_pos; lra).
  pose proof (Qabs_mult_le d1 c _ _ Hd1 Hca) as Hdc.
  destruct (round42 (d1 * c)) as (p & -> & H2); [lra|].
  assert (Hp : Qabs p <= 65970697667).
  { pose proof (Qabs_le_add p (d1 * c)). lra. }
  assert (Ha : Qabs a <= 3298534883328).
  { assert (Ea : a == t - (t - a)) by ring.
    rewrite Ea. pose proof (Qabs_triangle t (- (t - a))) as Htr.
    rewrite Qabs_opp in Htr.
    assert (Em : t + - (t - a) == t - (t - a)) by ring.
    rewrite Em in Htr. lra. }
  cbn [Num.add].
  destruct (round42 (a + p)) as (a' & -> & H3).
  { pose proof (Qabs_triangle a p). lra. }
  exists a'. split; [done|].
  assert (E : t - a'
              == (t - a) * (1 - c) + - ((d1 - (t - a)) * c)
                 + - (p - d1 * c) + - (a' - (a + p))) by ring.
  rewrite E.
  pose proof (Qabs_triangle
                ((t - a) * (1 - c) + - ((d1 - (t - a)) * c) + - (p - d1 * c))
                (- (a' - (a + p)))) as T1.
  pose proof (Qabs_triangle
                ((t - a) * (1 - c) + - ((d1 - (t - a)) * c))
                (- (p - d1 * c))) as T2.
  pose proof (Qabs_triangle ((t - a) * (1 - c))
                (- ((d1 - (t - a)) * c))) as T3.
  rewrite !Qabs_opp in *.
  assert (H1c : Qabs (1 - c) <= 9701 # 10000) by (rewrite Qabs_pos; lra).
  pose proof (Qabs_mult_le (t - a) (1 - c) _ _ (Qle_refl _) H1c) as M1.
  assert (Hc1' : Qabs c <= 1) by lra.
  pose proof (Qabs_mult_le (d1 - (t - a)) c _ _ H1 Hc1') as M2.
  lra.
Qed.

(** The total difference as the code computes it. *)
Lemma delta_near (a t : ViewportRect Q) :
  apart 2199023255552 a t →
  ∃ d, delta (fin_rect a) (fin_rect t) = Num.Fin d
       ∧ Qabs (d - distance a t) <= 1 # 256.
Proof.
  intros (Hx & Hy & Hw & Hh). unfold delta, distance, fin_rect, Num.sub, Num.neg.
  cbn [VP.x VP.y VP.width VP.height Num.add].
  destruct a as [ax ay aw ah], t as [tx ty tw th].
  cbn [VP.x VP.y VP.width VP.height] in *.
  assert (Ex : tx + - ax == tx - ax) by ring.
  assert (Ey : ty + - ay == ty - ay) by ring.
  assert (Ew : tw + - aw == tw - aw) by ring.
  assert (Eh : th + - ah == th - ah) by ring.
  destruct (round42 (tx + - ax)) as (sx & -> & Hsx); [rewrite Ex; lra|].
  destruct (round42 (ty + - ay)) as (sy & -> & Hsy); [rewrite Ey; lra|].
  destruct (round42 (tw + - aw)) as (sw & -> & Hsw); [rewrite Ew; lra|].
  destruct (round42 (th + - ah)) as (sh & -> & Hsh); [rewrite Eh; lra|].
  rewrite Ex in Hsx. rewrite Ey in Hsy. rewrite Ew in Hsw. rewrite Eh in Hsh.
  cbn [Num.abs Num.add].
  pose proof (Qabs_sub_le sx (tx - ax)). pose proof (Qabs_sub_le (tx - ax) sx).
  pose proof (Qabs_sub_le sy (ty - ay)). pose proof (Qabs_sub_le (ty - ay) sy).
  pose proof (Qabs_sub_le sw (tw - aw)). pose proof (Qabs_sub_le (tw - aw) sw).
  pose proof (Qabs_sub_le sh (th - ah)). pose proof (Qabs_sub_le (th - ah) sh).
  assert (Rx : Qabs (tx - ax - sx) == Qabs (sx - (tx - ax))).
  { rewrite <- Qabs_opp. apply Qabs_wd. ring. }
  assert (Ry : Qabs (ty - ay - sy) == Qabs (sy - (ty - ay))).
  { rewrite <- Qabs_opp. apply Qabs_wd. ring. }
  assert (Rw : Qabs (tw - aw - sw) == Qabs (sw - (tw - aw))).
  { rewrite <- Qabs_opp. apply Qabs_wd. ring. }
  assert (Rh : Qabs (th - ah - sh) == Qabs (sh - (th - ah))).
  { rewrite <- Qabs_opp. apply Qabs_wd. ring. }
  pose proof (Qabs_nonneg sx). pose proof (Qabs_nonneg sy).
  pose proof (Qabs_nonneg sw). pose proof (Qabs_nonneg sh).
  destruct (round44 (Qabs sx + Qabs sy)) as (u1 & -> & Hu1).
  { rewrite Qabs_pos by lra. lra. }
  apply Qabs_Qle_condition in Hu1.
  cbn [Num.add].
  destruct (round44 (u1 + Qabs sw)) as (u2 & -> & Hu2).
  { apply Qabs_Qlt_condition. lra. }
  apply Qabs_Qle_condition in Hu2.
  cbn [Num.add].
  destruct (round44 (u2 + Qabs sh)) as (u3 & -> & Hu3).
  { apply Qabs_Qlt_condition. lra. }
  apply Qabs_Qle_condition in Hu3.
  exists u3. split; [done|].
  apply Qabs_Qle_condition. lra.
Qed.

(** One tick, on rectangles within [2 ^ 40] of the origin. *)
Lemma tick_near (a t : ViewportRect Q) :
  within 1099511627776 t → apart 2199023255552 a t →
  ∃ a', lerp_rect (fin_rect a) (fin_rect t) = fin_rect a'
        ∧ apart 2199023255552 a' t
        ∧ distance a' t <= (9701 # 10000) * distance a t + (3 # 1024).
Proof.
  intros (Tx & Ty & Tw & Th) (Hx & Hy & Hw & Hh).
  destruct (lerp_near (VP.x a) (VP.x t) Tx Hx) as (x' & Ex & Hx').
  destruct (lerp_near (VP.y a) (VP.y t) Ty Hy) as (y' & Ey & Hy').
  destruct (lerp_near (VP.width a) (VP.width t) Tw Hw) as (w' & Ew & Hw').
  destruct (lerp_near (VP.height a) (VP.height t) Th Hh) as (h' & Eh & Hh').
  exists (VP.mk x' y' w' h'). split.
  - unfold lerp_rect, fin_rect. cbn [VP.x VP.y VP.width VP.height].
    by rewrite Ex, Ey, Ew, Eh.
  - unfold apart, distance. cbn [VP.x VP.y VP.width VP.height].
    repeat split; lra.
Qed.

Lemma frames_step (fuel : nat) (a t : ViewportRect Num.t) :
  frames (S fuel) (start_animation a t)
  = if Num.gtb (delta (lerp_rect a t) t) (Num.Fin (1 # 2))
    then let '(k, s) := frames fuel (start_animation (lerp_rect a t) t) in
         (S k, s)
    else (1%nat, mkAnimation (Some (lerp_rect a t)) (Some t) false).
Proof.
  simpl. unfold animateViewBox, start_animation. simpl.
  destruct (Num.gtb (delta (lerp_rect a t) t) (Num.Fin (1 # 2))); [done|].
  by destruct fuel.
Qed.

Lemma distance_nonneg (a t : ViewportRect Q) : 0 <= distance a t.
Proof.
  unfold distance.
  pose proof (Qabs_nonneg (VP.x t - VP.x a)).
  pose proof (Qabs_nonneg (VP.y t - VP.y a)).
  pose proof (Qabs_nonneg (VP.width t - VP.width a)).
  pose proof (Qabs_nonneg (VP.height t - VP.height a)).
  lra.
Qed.

(** The animation stops: each frame that asks for another one has
    brought the total difference down by a hundredth at least. *)
Lemma frames_stop (n : nat) :
  ∀ a t : ViewportRect Q,
    within 1099511627776 t → apart 2199023255552 a t →
    100 * distance a t <= inject_Z (Z.of_nat n) →
    ∃ (k : nat) (final : ViewportRect Q),
      (1 ≤ k ≤ S n)%nat
      ∧ distance final t <= 129 # 256
      ∧ Num.gtb (delta (fin_rect final) (fin_rect t)) (Num.Fin (1 # 2))
        = false
      ∧ ∀ fuel, (k ≤ fuel)%nat →
          frames fuel (start_animation (fin_rect a) (fin_rect t))
          = (k, mkAnimation (Some (fin_rect final)) (Some (fin_rect t)) false).
Proof.
  induction n as [|n IH]; intros a t Ht Hg Hn.
  - destruct (tick_near a t Ht Hg) as (a' & Ea & Hg' & Hd).
    destruct (delta_near a' t Hg') as (d & Ed & Hdd).
    pose proof (distance_nonneg a t) as H0.
    pose proof (distance_nonneg a' t) as H0'.
    change (inject_Z (Z.of_nat 0)) with 0 in Hn.
    apply Qabs_Qle_condition in Hdd.
    assert (Hs : Num.gtb (delta (fin_rect a') (fin_rect t)) (Num.Fin (1 # 2))
                 = false).
    { rewrite Ed. cbn [Num.gtb]. apply negb_false_iff, Qle_bool_iff. lra. }
    exists 1%nat, a'. split; [lia|]. split; [lra|]. split; [done|].
    intros [|fuel] Hf; [lia|]. by rewrite frames_step, Ea, Hs.
  - destruct (tick_near a t Ht Hg) as (a' & Ea & Hg' & Hd).
    destruct (delta_near a' t Hg') as (d & Ed & Hdd).
    pose proof (distance_nonneg a t) as H0.
    pose proof (distance_nonneg a' t) as H0'.
    apply Qabs_Qle_condition in Hdd.
    destruct (Num.gtb (delta (fin_rect a') (fin_rect t)) (Num.Fin (1 # 2)))
      eqn:Hb.
    + assert (Hgt : 1 # 2 < d).
      { rewrite Ed in Hb. cbn [Num.gtb] in Hb.
        apply negb_true_iff, Qle_bool_false in Hb. done. }
      destruct (IH a' t Ht Hg') as (k & final & Hk & Hfin & Hstop & Hrun).
      { rewrite Nat2Z.inj_succ, <- Z.add_1_r, inject_Z_plus in Hn.
        change (inject_Z 1) with 1 in Hn. lra. }
      exists (S k), final. split; [lia|]. split; [done|]. split; [done|].
      intros [|fuel] Hf; [lia|].
      rewrite frames_step, Ea, Hb, (Hrun fuel) by lia. done.
    + assert (Hle : d <= 1 # 2).
      { rewrite Ed in Hb. cbn [Num.gtb] in Hb.
        by apply negb_false_iff, Qle_bool_iff in Hb. }
      exists 1%nat, a'. split; [lia|]. split; [lra|]. split; [done|].
      intros [|fuel] Hf; [lia|]. by rewrite frames_step, Ea, Hb.
Qed.

Lemma frame_bound_enough (a t : ViewportRect Q) :
  100 * distance a t
  <= inject_Z (Z.of_nat (Z.to_nat (Qceiling (3 * distance a t / (3 # 100))))).
Proof.
  pose proof (distance_nonneg a t) as H0.
  pose proof (Qle_ceiling (3 * distance a t / (3 # 100))) as Hc.
  assert (Hb : 3 * distance a t / (3 # 100) == 100 * distance a t) by field.
  rewrite Z2Nat.id; [lra|].
  assert (H1 : inject_Z 0
               <= inject_Z (Qceiling (3 * distance a t / (3 # 100))))
    by (change (inject_Z 0) with 0; lra).
  by rewrite <- Zle_Qle in H1.
Qed.

Lemma within_apart (a t : ViewportRect Q) :
  within 1099511627776 a → within 1099511627776 t →
  apart 2199023255552 a t.
Proof.
  intros (Ax & Ay & Aw & Ah) (Tx & Ty & Tw & Th). unfold apart.
  pose proof (Qabs_triangle (VP.x t) (- VP.x a)) as Hx.
  pose proof (Qabs_triangle (VP.y t) (- VP.y a)) as Hy.
  pose proof (Qabs_triangle (VP.width t) (- VP.width a)) as Hw.
  pose proof (Qabs_triangle (VP.height t) (- VP.height a)) as Hh.
  rewrite !Qabs_opp in *.
  assert (Ex : VP.x t + - VP.x a == VP.x t - VP.x a) by ring.
  assert (Ey : VP.y t + - VP.y a == VP.y t - VP.y a) by ring.
  assert (Ew : VP.width t + - VP.width a == VP.width t - VP.width a) by ring.
  assert (Eh : VP.height t + - VP.height a == VP.height t - VP.height a)
    by ring.
  rewrite Ex in Hx. rewrite Ey in Hy. rewrite Ew in Hw. rewrite Eh in Hh.
  repeat split; lra.
Qed.

(** Once the animation has stopped, more frames change nothing. *)
Lemma frames_more (k : nat) :
  ∀ (s s' : Animation) (n fuel : nat),
    frames k s = (n, s') → pendingFrame s' = false → (k ≤ fuel)%nat →
    frames fuel s = (n, s').
Proof.
  induction k as [|k IH]; intros s s' n fuel Hrun Hstop Hf.
  - simpl in Hrun. injection Hrun as <- <-.
    destruct fuel; [done|]. simpl. by rewrite Hstop.
  - destruct fuel as [|fuel]; [lia|]. simpl in *.
    destruct (pendingFrame s); [|done].
    destruct (frames k (animateViewBox s)) as [n1 s1] eqn:E.
    injection Hrun as <- <-.
    by rewrite (IH _ _ _ fuel E Hstop) by lia.
Qed.

(** A pair of rectangles that a tick leaves as it is. *)
Lemma frames_stalled (s : Animation) :
  pendingFrame s = true → animateViewBox s = s →
  ∀ fuel, frames fuel s = (fuel, s).
Proof.
  intros Hp Hs. induction fuel as [|fuel IH]; [done|].
  simpl. by rewrite Hp, Hs, IH.
Qed.

(** C8, as amended. Each tick moves every field of the current rectangle by
    [(target - current) * LERP_SPEED], in binary64 arithmetic, and asks
    for another frame exactly when the total difference that it computes
    afterwards exceeds 0.5.  For rectangles whose fields are within
    [2 ^ 40] of zero, a tick brings the total difference down to 0.9701
    of what it was plus 3/1024 at most, which is less than before when
    it was above one half; the animation stops after at most
    [frame_bound] ticks, a number proportional to [1 / LERP_SPEED], with
    a total difference of at most 129/256.  From {0,0,100,100} towards
    {100,100,200,200} it stops after 220 ticks. *)
Theorem animation_converges (a t : ViewportRect Q) :
  within (2 ^ 40) a → within (2 ^ 40) t →
  animateViewBox (start_animation (fin_rect a) (fin_rect t))
  = mkAnimation
      (Some (VP.mk
               (Num.add (Num.Fin (VP.x a))
                  (Num.mul (Num.sub (Num.Fin (VP.x t)) (Num.Fin (VP.x a)))
                     LERP_SPEED))
               (Num.add (Num.Fin (VP.y a))
                  (Num.mul (Num.sub (Num.Fin (VP.y t)) (Num.Fin (VP.y a)))
                     LERP_SPEED))
               (Num.add (Num.Fin (VP.width a))
                  (Num.mul
                     (Num.sub (Num.Fin (VP.width t)) (Num.Fin (VP.width a)))
                     LERP_SPEED))
               (Num.add (Num.Fin (VP.height a))
                  (Num.mul
                     (Num.sub (Num.Fin (VP.height t)) (Num.Fin (VP.height a)))
                     LERP_SPEED))))
      (Some (fin_rect t))
      (Num.gtb (delta (lerp_rect (fin_rect a) (fin_rect t)) (fin_rect t))
         (Num.Fin (1 # 2)))
  ∧ (∃ (a' : ViewportRect Q) (d : Q),
       lerp_rect (fin_rect a) (fin_rect t) = fin_rect a'
       ∧ distance a' t <= (9701 # 10000) * distance a t + (3 # 1024)
       ∧ (1 # 2 < distance a t → distance a' t < distance a t)
       ∧ delta (fin_rect a') (fin_rect t) = Num.Fin d
       ∧ Qabs (d - distance a' t) <= 1 # 256
       ∧ (pendingFrame
            (animateViewBox (start_animation (fin_rect a) (fin_rect t)))
          = true ↔ 1 # 2 < d))
  ∧ (∃ (k : nat) (final : ViewportRect Q),
       (1 ≤ k ≤ frame_bound a t)%nat
       ∧ distance final t <= 129 # 256
       ∧ ∀ fuel, (k ≤ fuel)%nat →
           frames fuel (start_animation (fin_rect a) (fin_rect t))
           = (k, mkAnimation (Some (fin_rect final)) (Some (fin_rect t))
                   false))
  ∧ (∀ fuel, (220 ≤ fuel)%nat →
       (frames fuel
          (start_animation (fin_rect (VP.mk 0 0 100 100))
             (fin_rect (VP.mk 100 100 200 200)))).1 = 220%nat).
Proof.
  intros Ha Ht. change (2 ^ 40) with 1099511627776 in *.
  pose proof (within_apart a t Ha Ht) as Hg.
  split; [done|]. split; [|split].
  - destruct (tick_near a t Ht Hg) as (a' & Ea & Hg' & Hd).
    destruct (delta_near a' t Hg') as (d & Ed & Hdd).
    exists a', d. split; [done|]. split; [done|]. split; [lra|].
    split; [done|]. split; [done|].
    unfold animateViewBox, start_animation.
    cbn [animatedVP targetVP pendingFrame]. rewrite Ea, Ed. cbn [Num.gtb].
    rewrite negb_true_iff. apply Qle_bool_false.
  - destruct (frames_stop _ a t Ht Hg (frame_bound_enough a t))
      as (k & final & Hk & Hfin & _ & Hrun).
    by exists k, final.
  - intros fuel Hf.
    destruct (frames 220 (start_animation (fin_rect (VP.mk 0 0 100 100))
                            (fin_rect (VP.mk 100 100 200 200))))
      as [n s'] eqn:E.
    assert (Hn : n = 220%nat ∧ pendingFrame s' = false).
    { vm_compute in E. injection E as <- <-. done. }
    destruct Hn as [-> Hstop].
    by rewrite (frames_more 220 _ _ _ fuel E Hstop Hf).
Qed.

End Animation.

Lemma animation_converges_witness :
  let a := (VP.mk 0 0 100 100 : ViewportRect Q)%Q in
  let t := (VP.mk 100 100 200 200 : ViewportRect Q)%Q in
  ∃ (k : nat) (final : ViewportRect Q),
    (1 ≤ k ≤ 40001)%nat
    ∧ (distance final t <= 129 # 256)%Q
    ∧ ∀ fuel, (k ≤ fuel)%nat →
        frames fuel (start_animation (fin_rect a) (fin_rect t))
        = (k, mkAnimation (Some (fin_rect final)) (Some (fin_rect t)) false).
Proof.
  intros a t.
  destruct (animation_converges a t) as (_ & _ & (k & final & Hk & H) & _).
  - by vm_compute.
  - by vm_compute.
  - exists k, final. split; [|done].
    change (frame_bound a t) with 40001%nat in Hk. done.
Defined.

(** In binary64 a tick can leave the rectangle as it is while the total
    difference is above one half: from x = 1e16 towards x = 1e16 + 2 the
    step of 0.06 is lost in the rounding of the sum, and the animation
    never stops. *)
Lemma animation_stalls : ¬ animation_stops_from_any_pair.
Proof.
  intros H.
  destruct (H (VP.mk 10000000000000000 0 100 100)%Q
              (VP.mk 10000000000000002 0 100 100)%Q) as [fuel Hf].
  - by vm_compute.
  - by vm_compute.
  - rewrite frames_stalled in Hf; [done|done|]. by vm_compute.
Qed.

(** ** C10: the checkpoint store and the round trip through JSON *)

Lemma steps_cons (st : pstate) (c : N) (r : jsstring) :
  steps st (c :: r)
  = match step st c with Some st' => steps st' r | None => None end.
Proof. reflexivity. Qed.

Lemma digit_numchar (c : N) : is_digit c = true → is_numchar c = true.
Proof. unfold is_numchar. by intros ->. Qed.

Lemma skip_digits_numchar (s : jsstring) :
  Forall (λ c, is_numchar c = true) (skip_digits s) →
  Forall (λ c, is_numchar c = true) s.
Proof.
  induction s as [|c s IH]; simpl; [done|].
  destruct (is_digit c) eqn:E; [|done].
  intros H. constructor; [by apply digit_numchar|auto].
Qed.

Lemma all_digits1_numchar (s : jsstring) :
  all_digits1 s = true → Forall (λ c, is_numchar c = true) s.
Proof.
  intros H. assert (Hf : forallb is_digit s = true) by (by destruct s).
  clear H. induction s as [|c s IH]; [done|].
  simpl in Hf. apply andb_true_iff in Hf as [Hc Hs].
  constructor; [by apply digit_numchar|auto].
Qed.

Lemma valid_exp_numchar (s : jsstring) :
  valid_exp s = true → Forall (λ c, is_numchar c = true) s.
Proof.
  destruct s as [|e r]; [done|]. simpl.
  intros [He Hr]%andb_true_iff. constructor.
  - unfold is_numchar. apply orb_true_iff in He as [->| ->];
      by rewrite ?orb_true_r.
  - destruct r as [|sg r']; [done|].
    destruct ((sg =? Ch.plus) || (sg =? Ch.minus)) eqn:Es.
    + constructor; [|by apply all_digits1_numchar].
      unfold is_numchar. apply orb_true_iff in Es as [->| ->];
        by rewrite ?orb_true_r.
    + by apply all_digits1_numchar.
Qed.

Lemma valid_frac_numchar (s : jsstring) :
  valid_frac s = true → Forall (λ c, is_numchar c = true) s.
Proof.
  destruct s as [|c r]; [done|]. simpl.
  destruct (c =? Ch.dot) eqn:Ec.
  - destruct r as [|d r']; [done|].
    intros [Hd Hr]%andb_true_iff. constructor.
    + unfold is_numchar. by rewrite Ec, ?orb_true_r.
    + constructor; [by apply digit_numchar|].
      by apply skip_digits_numchar, valid_exp_numchar.
  - apply (valid_exp_numchar (c :: r)).
Qed.

Lemma valid_int_numchar (s : jsstring) :
  valid_int s = true →
  ∃ c r, s = c :: r ∧ is_digit c = true ∧ Forall (λ c, is_numchar c = true) r.
Proof.
  destruct s as [|c r]; [done|]. simpl. intros H. exists c, r.
  split; [done|]. destruct (c =? Ch.zero) eqn:Ec.
  - apply N.eqb_eq in Ec. subst c. split; [done|]. by apply valid_frac_numchar.
  - apply andb_true_iff in H as [Hc Hr]. split; [done|].
    by apply skip_digits_numchar, valid_frac_numchar.
Qed.

Lemma valid_number_shape (l : jsstring) :
  valid_number l = true →
  ∃ c r, l = c :: r ∧ ((c =? Ch.minus) || is_digit c) = true
         ∧ Forall (λ c, is_numchar c = true) r.
Proof.
  destruct l as [|c r]; [done|]. unfold valid_number. intros H. exists c, r.
  split; [done|]. destruct (c =? Ch.minus) eqn:Ec.
  - split; [done|]. destruct (valid_int_numchar r H) as (d & r' & -> & Hd & Hr).
    constructor; [by apply digit_numchar|done].
  - destruct (valid_int_numchar _ H) as (d & r' & [= <- <-] & Hd & Hr).
    by rewrite Hd.
Qed.

Lemma steps_numchars (l : jsstring) :
  ∀ acc stk rest,
    Forall (λ c, is_numchar c = true) l →
    steps (PNum acc stk) (l ++ rest) = steps (PNum (acc ++ l) stk) rest.
Proof.
  induction l as [|c l IH]; intros acc stk rest Hl; simpl.
  - by rewrite app_nil_r.
  - inversion Hl as [|? ? Hc Hl']; subst. rewrite Hc, IH by done.
    by rewrite <- app_assoc.
Qed.

Lemma push_value_idle (v : json) (stk : list frame) (st : pstate) :
  push_value v stk = Some st → idle st.
Proof. by destruct stk as [|[?|? [?|]] ?]; intros [= <-]. Qed.

Lemma idle_step (st : pstate) (c : N) : idle st → step st c = step_idle st c.
Proof. by destruct st. Qed.

Lemma step_value_start (e : expect) (stk : list frame) (c : N) :
  e = EValue ∨ e = EValueOrEnd →
  is_json_space c = false → (c =? Ch.rbracket) = false →
  step (PExp e stk) c = start_value c stk.
Proof.
  intros [-> | ->] Hs Hb; simpl; unfold step_exp; by rewrite Hs, ?Hb.
Qed.

Lemma number_start (c : N) (stk : list frame) :
  ((c =? Ch.minus) || is_digit c) = true →
  is_json_space c = false ∧ (c =? Ch.rbracket) = false
  ∧ start_value c stk = Some (PNum [c] stk).
Proof.
  intros H.
  assert (Hr : c = 45 ∨ 48 <= c <= 57).
  { apply orb_true_iff in H as [H|H].
    - left. by apply N.eqb_eq in H.
    - right. unfold is_digit in H. apply andb_true_iff in H as [H1 H2].
      apply N.leb_le in H1, H2. lia. }
  unfold is_json_space, start_value, Ch.space, Ch.tab, Ch.lf, Ch.cr,
    Ch.rbracket, Ch.lbracket, Ch.lbrace, Ch.quote.
  rewrite H.
  repeat match goal with
         | |- context [?a =? ?b] =>
             lazymatch b with
             | Ch.minus => fail
             | _ => rewrite (proj2 (N.eqb_neq a b)) by lia
             end
         end.
  done.
Qed.

Lemma number_steps (e : expect) (stk : list frame) (l r : jsstring) (d : N) :
  e = EValue ∨ e = EValueOrEnd →
  valid_number l = true → is_numchar d = false →
  steps (PExp e stk) (l ++ d :: r)
  = match push_value (JNum l) stk with
    | Some st => steps st (d :: r)
    | None => None
    end.
Proof.
  intros He Hv Hd.
  destruct (valid_number_shape l Hv) as (c & l' & -> & Hc & Hl').
  destruct (number_start c stk Hc) as (Hs & Hb & Hst).
  cbn [app]. rewrite steps_cons, step_value_start, Hst by done.
  rewrite steps_numchars by done. cbn [app].
  rewrite steps_cons. cbn [step]. rewrite Hd. unfold end_number. rewrite Hv.
  destruct (push_value (JNum (c :: l')) stk) as [st|] eqn:Ep; [|done].
  by rewrite steps_cons, (idle_step st d (push_value_idle _ _ _ Ep)).
Qed.

Lemma hexval_hexdigit (d : N) : d < 16 → hexval (hexdigit d) = Some d.
Proof.
  intros Hd. unfold hexdigit, hexval, is_digit.
  destruct (d <? 10) eqn:E.
  - apply N.ltb_lt in E.
    rewrite (proj2 (N.leb_le 48 (48 + d))), (proj2 (N.leb_le (48 + d) 57)) by lia.
    simpl. f_equal. lia.
  - apply N.ltb_ge in E.
    rewrite (proj2 (N.leb_le 48 (87 + d))) by lia.
    rewrite (proj2 (N.leb_gt (87 + d) 57)) by lia.
    rewrite (proj2 (N.leb_le 97 (87 + d))), (proj2 (N.leb_le (87 + d) 102)) by lia.
    simpl. f_equal. lia.
Qed.

Lemma hex4_digits (c : N) :
  c < 65536 →
  hex4 [c / 4096 mod 16; c / 256 mod 16; c / 16 mod 16; c mod 16] = c.
Proof.
  intros Hc. unfold hex4. cbn [fold_left].
  zify. Z.to_euclidean_division_equations. lia.
Qed.

Lemma step_hex (acc : jsstring) (ds : list N) (k : bool) (stk : list frame)
    (d : N) :
  d < 16 →
  step (PStr acc (EscU ds) k stk) (hexdigit d)
  = Some (if (length ds <? 3)%nat then PStr acc (EscU (ds ++ [d])) k stk
          else PStr (acc ++ [hex4 (ds ++ [d])]) NoEsc k stk).
Proof.
  intros Hd. cbn [step step_str]. rewrite hexval_hexdigit by done.
  by destruct (length ds <? 3)%nat.
Qed.

Lemma steps_next (st st' : pstate) (c : N) (r : jsstring) :
  step st c = Some st' → steps st (c :: r) = steps st' r.
Proof. intros H. by rewrite steps_cons, H. Qed.

Lemma escape_u_steps (acc : jsstring) (k : bool) (stk : list frame) (c : N)
    (rest : jsstring) :
  c < 65536 →
  steps (PStr acc NoEsc k stk) (escape_u c ++ rest)
  = steps (PStr (acc ++ [c]) NoEsc k stk) rest.
Proof.
  intros Hc. unfold escape_u. rewrite <- !app_comm_cons, app_nil_l.
  assert (H16 : ∀ n, n mod 16 < 16) by (intros; apply N.mod_lt; lia).
  erewrite (steps_next _ (PStr acc Esc k stk)) by reflexivity.
  erewrite (steps_next _ (PStr acc (EscU []) k stk)) by reflexivity.
  erewrite steps_next by (by apply step_hex). cbn [length Nat.ltb Nat.leb app].
  erewrite steps_next by (by apply step_hex). cbn [length Nat.ltb Nat.leb app].
  erewrite steps_next by (by apply step_hex). cbn [length Nat.ltb Nat.leb app].
  erewrite steps_next by (by apply step_hex). cbn [length Nat.ltb Nat.leb app].
  by rewrite hex4_digits.
Qed.

Lemma plain_unit_step (acc : jsstring) (k : bool) (stk : list frame) (c : N) :
  32 <= c → c ≠ Ch.quote → c ≠ Ch.backslash →
  step (PStr acc NoEsc k stk) c = Some (PStr (acc ++ [c]) NoEsc k stk).
Proof.
  intros H32 Hq Hb. cbn [step step_str].
  rewrite (proj2 (N.eqb_neq c Ch.quote)), (proj2 (N.eqb_neq c Ch.backslash))
    by done.
  by rewrite (proj2 (N.ltb_ge c 32)).
Qed.

Lemma escape_unit_steps (acc : jsstring) (k : bool) (stk : list frame) (c : N)
    (rest : jsstring) :
  c < 65536 →
  steps (PStr acc NoEsc k stk) (escape_unit c ++ rest)
  = steps (PStr (acc ++ [c]) NoEsc k stk) rest.
Proof.
  intros Hc. unfold escape_unit.
  repeat match goal with
         | |- context [if ?a =? ?b then _ else _] =>
             destruct (N.eqb_spec a b) as [->|?];
             [rewrite <- !app_comm_cons, app_nil_l;
              erewrite (steps_next _ (PStr acc Esc k stk)) by reflexivity;
              by erewrite steps_next by reflexivity|]
         end.
  destruct (N.ltb_spec c 32).
  - by apply escape_u_steps.
  - rewrite <- app_comm_cons, app_nil_l.
    by erewrite steps_next by (by apply plain_unit_step).
Qed.

Lemma quote_units_steps (k : bool) (stk : list frame) (n : nat) :
  ∀ s acc rest,
    (length s ≤ n)%nat →
    steps (PStr acc NoEsc k stk) (quote_units s ++ rest)
    = steps (PStr (acc ++ s) NoEsc k stk) rest.
Proof.
  induction n as [|n IH]; intros s acc rest Hn.
  - destruct s; [|simpl in Hn; lia]. by rewrite app_nil_r.
  - destruct s as [|c r]; [by rewrite app_nil_r|].
    simpl in Hn. cbn [quote_units].
    assert (Hcons : ∀ a (l : jsstring), acc ++ a :: l = (acc ++ [a]) ++ l)
      by (intros; by rewrite <- app_assoc).
    destruct (is_high c) eqn:Hh.
    + unfold is_high in Hh. apply andb_true_iff in Hh as [H1 H2].
      apply N.leb_le in H1, H2.
      destruct r as [|d r'].
      * rewrite escape_u_steps by lia. done.
      * destruct (is_low d) eqn:Hl.
        -- unfold is_low in Hl. apply andb_true_iff in Hl as [H3 H4].
           apply N.leb_le in H3, H4. simpl in Hn.
           rewrite <- !app_comm_cons.
           erewrite steps_next
             by (apply plain_unit_step; unfold Ch.quote, Ch.backslash; lia).
           erewrite steps_next
             by (apply plain_unit_step; unfold Ch.quote, Ch.backslash; lia).
           rewrite IH by lia. by rewrite <- !app_assoc.
        -- rewrite <- app_assoc, escape_u_steps by lia.
           rewrite IH by lia. by rewrite <- app_assoc.
    + destruct (is_low c) eqn:Hl.
      * unfold is_low in Hl. apply andb_true_iff in Hl as [H3 H4].
        apply N.leb_le in H3, H4.
        rewrite <- app_assoc, escape_u_steps by lia.
        rewrite IH by lia. by rewrite <- app_assoc.
      * rewrite <- app_assoc.
        destruct (N.lt_ge_cases c 65536) as [Hlt|Hge].
        -- rewrite escape_unit_steps by done.
           rewrite IH by lia. by rewrite <- app_assoc.
        -- unfold escape_unit.
           repeat match goal with
                  | |- context [if ?a =? ?b then _ else _] =>
                      rewrite (proj2 (N.eqb_neq a b))
                        by (unfold Ch.bs, Ch.tab, Ch.lf, Ch.ff, Ch.cr,
                              Ch.quote, Ch.backslash; lia)
                  end.
           rewrite (proj2 (N.ltb_ge c 32)) by lia.
           rewrite <- app_comm_cons, app_nil_l.
           erewrite steps_next
             by (apply plain_unit_step; unfold Ch.quote, Ch.backslash; lia).
           rewrite IH by lia. by rewrite <- app_assoc.
Qed.

Lemma quoteJSON_steps (k : bool) (stk : list frame) (s rest : jsstring) :
  steps (PStr [] NoEsc k stk) (quote_units s ++ Ch.quote :: rest)
  = match end_string s k stk with
    | Some st => steps st rest
    | None => None
    end.
Proof.
  rewrite (quote_units_steps k stk (length s)) by done.
  by rewrite steps_cons.
Qed.

Lemma obj_set_fresh (k : jsstring) (v : json) (o : obj) :
  k ∉ o.*1 → obj_set k v o = o ++ [(k, v)].
Proof.
  induction o as [|[k' v'] o IH]; intros Hk; simpl; [done|].
  rewrite fmap_cons in Hk. apply not_elem_of_cons in Hk as [Hne Hk].
  simpl in Hne. rewrite decide_False by done. by rewrite IH.
Qed.

Lemma elems_steps (l : list json) :
  Forall reads_back l → forallb serializable l = true → l ≠ [] →
  ∀ done stk rest e,
    e = EValue ∨ e = EValueOrEnd →
    steps (PExp e (FArr done :: stk))
      (join [Ch.comma] (map JSON_stringify l) ++ Ch.rbracket :: rest)
    = match push_value (JArr (done ++ l)) stk with
      | Some st => steps st rest
      | None => None
      end.
Proof.
  induction l as [|v l IH]; [done|].
  intros Hrt Hser _ done stk rest e He.
  inversion Hrt as [|? ? Hv Hl]; subst.
  cbn [forallb] in Hser. apply andb_true_iff in Hser as [Hsv Hsl].
  destruct l as [|v' l'].
  - cbn [map join].
    rewrite (Hv Hsv e (FArr done :: stk) (Ch.rbracket :: rest) He).
    2:{ destruct v; try done. by exists Ch.rbracket, rest. }
    cbn [push_value]. by rewrite steps_cons.
  - change (join [Ch.comma] (map JSON_stringify (v :: v' :: l')))
      with (JSON_stringify v
            ++ [Ch.comma] ++ join [Ch.comma] (map JSON_stringify (v' :: l'))).
    rewrite <- !app_assoc.
    rewrite (Hv Hsv e (FArr done :: stk) _ He).
    2:{ destruct v; try done. by eexists Ch.comma, _. }
    cbn [push_value app].
    erewrite steps_next by reflexivity.
    rewrite (IH Hl Hsl) by (by left || done).
    by rewrite <- app_assoc.
Qed.

Lemma members_steps (o : obj) :
  Forall (λ kv, reads_back kv.2) o →
  forallb (λ '(_, w), serializable w) o = true →
  NoDup o.*1 → o ≠ [] →
  ∀ done stk rest e,
    e = EKeyOrEnd ∨ e = EKey →
    (∀ k, k ∈ o.*1 → k ∉ done.*1) →
    steps (PExp e (FObj done None :: stk))
      (join [Ch.comma]
         (map (λ '(k, w), quoteJSON k ++ Ch.colon :: JSON_stringify w) o)
       ++ Ch.rbrace :: rest)
    = match push_value (JObj (done ++ o)) stk with
      | Some st => steps st rest
      | None => None
      end.
Proof.
  induction o as [|[k w] o IH]; [done|].
  intros Hrt Hser Hnd _ done stk rest e He Hfresh.
  inversion Hrt as [|? ? Hw Ho]; subst. simpl in Hw.
  cbn [forallb] in Hser. apply andb_true_iff in Hser as [Hsw Hso].
  rewrite fmap_cons in Hnd. apply NoDup_cons in Hnd as [Hk Hnd].
  simpl in Hk.
  assert (Hkd : k ∉ done.*1) by (apply Hfresh; rewrite fmap_cons; by left).
  assert (Hkey : ∀ tail,
    steps (PExp e (FObj done None :: stk))
      (quoteJSON k ++ Ch.colon :: JSON_stringify w ++ tail)
    = steps (PExp EValue (FObj done (Some k) :: stk))
        (JSON_stringify w ++ tail)).
  { intros tail. unfold quoteJSON.
    rewrite <- !app_comm_cons, <- !app_assoc, <- !app_comm_cons, app_nil_l.
    erewrite (steps_next _ (PStr [] NoEsc true (FObj done None :: stk)))
      by (by destruct He as [-> | ->]).
    rewrite quoteJSON_steps. cbn [end_string].
    by erewrite steps_next by reflexivity. }
  destruct o as [|[k' w'] o'].
  - cbn [map join]. rewrite <- app_assoc, <- app_comm_cons, Hkey.
    rewrite (Hw Hsw EValue _ (Ch.rbrace :: rest)) by
      (by left || (destruct w; try done; by exists Ch.rbrace, rest)).
    cbn [push_value]. rewrite obj_set_fresh by done.
    by rewrite steps_cons.
  - change (join [Ch.comma]
              (map (λ '(k, w), quoteJSON k ++ Ch.colon :: JSON_stringify w)
                 ((k, w) :: (k', w') :: o')))
      with ((quoteJSON k ++ Ch.colon :: JSON_stringify w)
            ++ [Ch.comma]
            ++ join [Ch.comma]
                 (map (λ '(k, w), quoteJSON k ++ Ch.colon :: JSON_stringify w)
                    ((k', w') :: o'))).
    rewrite <- !app_assoc, <- app_comm_cons, Hkey.
    rewrite (Hw Hsw EValue _ _) by
      (by left || (destruct w; try done; by eexists Ch.comma, _)).
    cbn [push_value app]. rewrite obj_set_fresh by done.
    erewrite steps_next by reflexivity.
    assert (Hfresh' : ∀ k0, k0 ∈ ((k', w') :: o').*1 →
                            k0 ∉ (done ++ [(k, w)]).*1).
    { intros k0 Hin. rewrite fmap_app. intros [Hd|Hd]%elem_of_app.
      - revert Hd. apply Hfresh. rewrite fmap_cons. by right.
      - simpl in Hd. apply list_elem_of_singleton in Hd. by subst. }
    rewrite (IH Ho Hso Hnd ltac:(done) _ stk rest EKey (or_intror eq_refl)
               Hfresh').
    by rewrite <- app_assoc.
Qed.

Lemma stringify_reads_back (v : json) : reads_back v.
Proof.
  induction v as [|b|l|s|l IH|o IH] using json_ind;
    intros Hser e stk rest He Hd.
  - by destruct He as [-> | ->].
  - by destruct He as [-> | ->], b.
  - destruct Hd as (d & r & -> & Hd). by apply number_steps.
  - cbn [JSON_stringify]. unfold quoteJSON.
    rewrite <- !app_comm_cons, <- !app_assoc, <- !app_comm_cons, app_nil_l.
    erewrite (steps_next _ (PStr [] NoEsc false stk))
      by (by destruct He as [-> | ->]).
    by rewrite quoteJSON_steps.
  - cbn [JSON_stringify]. rewrite <- !app_comm_cons, <- !app_assoc.
    erewrite (steps_next _ (PExp EValueOrEnd (FArr [] :: stk)))
      by (by destruct He as [-> | ->]).
    change ([Ch.rbracket] ++ rest) with (Ch.rbracket :: rest).
    destruct l as [|v l].
    + cbn [map join app]. by rewrite steps_cons.
    + by rewrite (elems_steps (v :: l) IH Hser) by (done || by right).
  - cbn [JSON_stringify]. rewrite <- !app_comm_cons, <- !app_assoc.
    erewrite (steps_next _ (PExp EKeyOrEnd (FObj [] None :: stk)))
      by (by destruct He as [-> | ->]).
    change ([Ch.rbrace] ++ rest) with (Ch.rbrace :: rest).
    cbn [serializable] in Hser. apply andb_true_iff in Hser as [Hnd Hso].
    apply bool_decide_eq_true in Hnd.
    destruct o as [|kv o].
    + cbn [map join app]. by rewrite steps_cons.
    + rewrite (members_steps (kv :: o) IH Hso) by
        first [done | by left | intros ? ?; apply not_elem_of_nil].
      done.
Qed.

Lemma parse_stringify (v : json) :
  serializable v = true → JSON_parse (JSON_stringify v) = Some v.
Proof.
  intros Hser. unfold JSON_parse.
  assert (Hcase : (∃ l, v = JNum l) ∨ number_delim v [])
    by (destruct v; eauto; by right).
  destruct Hcase as [[l ->]|Hn].
  - cbn [JSON_stringify serializable] in *.
    destruct (valid_number_shape l Hser) as (c & l' & -> & Hc & Hl').
    destruct (number_start c [] Hc) as (Hs & Hb & Hst).
    rewrite steps_cons, (step_value_start EValue) by (by left || done).
    rewrite Hst. rewrite <- (app_nil_r l'), steps_numchars by done.
    cbn [steps finish app]. rewrite app_nil_r. by rewrite Hser.
  - rewrite <- (app_nil_r (JSON_stringify v)).
    by rewrite (stringify_reads_back v Hser EValue [] [])
      by (by left || done).
Qed.

Lemma save_all_other (id : jsstring) (saves : list (jsstring * json))
    (m : gmap jsstring jsstring) :
  id ∉ saves.*1 → MemoryCheckpointStore.save_all saves m !! id = m !! id.
Proof.
  revert m. induction saves as [|[id' d] saves IH]; intros m Hid; [done|].
  rewrite fmap_cons in Hid. apply not_elem_of_cons in Hid as [Hne Hid].
  unfold MemoryCheckpointStore.save_all. simpl.
  fold (MemoryCheckpointStore.save_all saves
          (MemoryCheckpointStore.save id' d m)).
  rewrite IH by done. unfold MemoryCheckpointStore.save.
  by rewrite lookup_insert_ne.
Qed.

Lemma load_after_save (id : jsstring) (data : json)
    (m : gmap jsstring jsstring) :
  MemoryCheckpointStore.load id (MemoryCheckpointStore.save id data m)
  = default JNull (JSON_parse (JSON_stringify data)).
Proof.
  unfold MemoryCheckpointStore.load, MemoryCheckpointStore.save.
  rewrite lookup_insert_eq. case_bool_decide as He; [|done].
  by rewrite He.
Qed.



(** ** [convertRawElements]: label defaults, fonts and directives *)

Lemma obj_get_set (k k' : jsstring) (v : json) (o : obj) :
  obj_get (obj_set k v o) k' = if decide (k = k') then Some v else obj_get o k'.
Proof.
  case_decide as Hk.
  - subst. apply obj_get_set_eq.
  - by apply obj_get_set_ne.
Qed.

Lemma obj_get_None (o : obj) (k : jsstring) : obj_get o k = None ↔ k ∉ o.*1.
Proof.
  induction o as [|[k' v] o IH]; simpl.
  - split; [intros _; apply not_elem_of_nil|done].
  - rewrite not_elem_of_cons. case_decide; [split; [done|]|]; naive_solver.
Qed.

(** [{...o, ...ps}]: a property of [ps] wins over the one of [o]. *)
Lemma obj_get_assign (o ps : obj) (k : jsstring) :
  NoDup ps.*1 →
  obj_get (obj_assign o ps) k
  = match obj_get ps k with Some v => Some v | None => obj_get o k end.
Proof.
  unfold obj_assign. revert o. induction ps as [|[k' v] ps IH]; intros o Hnd.
  - done.
  - rewrite fmap_cons in Hnd. apply NoDup_cons in Hnd as [Hk' Hnd].
    cbn [fold_left obj_get fst snd]. rewrite IH by done.
    case_decide as Hk.
    + subst k'. simpl in Hk'. apply obj_get_None in Hk'. rewrite Hk'.
      apply obj_get_set_eq.
    + destruct (obj_get ps k); [done|]. by apply obj_get_set_ne.
Qed.

(** X1. An element with a label object is given to the converter with the
    label completed: a property that the label has keeps its value, a
    missing [textAlign] or [verticalAlign] is set to ["center"] or
    ["middle"], and nothing else of the element changes; an element
    without a label (or with a falsy one) is given as it is. *)
Theorem label_defaults_fill_gaps (el : json) (lo : obj) :
  prop el "label" = Some (JObj lo) → NoDup lo.*1 →
  ∃ o lbl,
    el = JObj o
    ∧ withDefaults el = JObj (obj_set (lit "label") (JObj lbl) o)
    ∧ (∀ k v, obj_get lo k = Some v → obj_get lbl k = Some v)
    ∧ (∀ k, obj_get lo k = None →
         obj_get lbl k
         = if decide (k = lit "textAlign") then Some (JStr (lit "center"))
           else if decide (k = lit "verticalAlign")
                then Some (JStr (lit "middle"))
                else None)
    ∧ (∀ k, k ≠ lit "label" →
         obj_get (obj_set (lit "label") (JObj lbl) o) k = obj_get o k).
Proof.
  intros Hl Hnd. destruct el as [| | | | |o]; try done.
  exists o, (obj_assign label_defaults lo). split; [done|].
  split; [unfold withDefaults; by rewrite Hl|].
  split; [|split].
  - intros k v Hk. by rewrite obj_get_assign, Hk.
  - intros k Hk. rewrite obj_get_assign, Hk by done. simpl.
    repeat case_decide; congruence.
  - intros k Hk. by apply obj_get_set_ne.
Qed.

Lemma label_defaults_fill_gaps_witness :
  ∃ o lbl,
    JObj [(lit "type", JStr (lit "rectangle"));
          (lit "label", JObj [(lit "text", JStr (lit "hi"));
                              (lit "textAlign", JStr (lit "left"))])]
    = JObj o
    ∧ withDefaults
        (JObj [(lit "type", JStr (lit "rectangle"));
               (lit "label", JObj [(lit "text", JStr (lit "hi"));
                                   (lit "textAlign", JStr (lit "left"))])])
      = JObj (obj_set (lit "label") (JObj lbl) o)
    ∧ (∀ k v, obj_get [(lit "text", JStr (lit "hi"));
                       (lit "textAlign", JStr (lit "left"))] k = Some v →
              obj_get lbl k = Some v)
    ∧ (∀ k, obj_get [(lit "text", JStr (lit "hi"));
                     (lit "textAlign", JStr (lit "left"))] k = None →
         obj_get lbl k
         = if decide (k = lit "textAlign") then Some (JStr (lit "center"))
           else if decide (k = lit "verticalAlign")
                then Some (JStr (lit "middle"))
                else None)
    ∧ (∀ k, k ≠ lit "label" →
         obj_get (obj_set (lit "label") (JObj lbl) o) k = obj_get o k).
Proof.
  apply (label_defaults_fill_gaps
           (JObj [(lit "type", JStr (lit "rectangle"));
                  (lit "label", JObj [(lit "text", JStr (lit "hi"));
                                      (lit "textAlign", JStr (lit "left"))])])
           [(lit "text", JStr (lit "hi"));
            (lit "textAlign", JStr (lit "left"))]).
  - reflexivity.
  - vm_compute. repeat constructor; set_solver.
Defined.

Section Conversion.

Variable convertToExcalidrawElements : list json → list obj.
Variable Excalifont : jsval.

Local Abbreviation CV_convertRawElements :=
  (convertRawElements convertToExcalidrawElements Excalifont).

Lemma pseudo_not_text (el : json) :
  is_pseudo el = true → type_is el "text" = false.
Proof.
  unfold is_pseudo, type_is. intros H. apply has_spec in H as (s & -> & Hs).
  apply bool_decide_eq_false. intros ->.
  unfold pseudoTypes in Hs. set_unfold in Hs.
  destruct Hs as [[H|H]|H]; vm_compute in H; discriminate.
Qed.

Lemma withFont_text (o : obj) :
  type_is (withFont Excalifont o) "text" = true →
  prop (withFont Excalifont o) "fontFamily" = Some (fontFamily Excalifont).
Proof.
  unfold withFont. destruct (type_is (JObj o) "text") eqn:Ht.
  - intros _. apply obj_get_set_eq.
  - congruence.
Qed.

(** X2. [convertRawElements] throws exactly when an element is [null].
    Otherwise its result is the converted drawables followed by the
    directives of the input ([cameraUpdate], [delete],
    [restoreCheckpoint]) as they were and in their order, and every
    element of the result whose type is ["text"] has the font family
    [Excalifont], or 1 when the font table has none. *)
Theorem converted_text_has_font (els : list json) :
  match CV_convertRawElements els with
  | Some out =>
      existsb is_null els = false
      ∧ (∃ conv,
           out = conv ++ List.filter is_pseudo els
           ∧ length conv
             = length (convertToExcalidrawElements
                         (withDefaults
                            <$> List.filter (λ el, negb (is_pseudo el)) els)))
      ∧ (∀ el, el ∈ out → type_is el "text" = true →
           prop el "fontFamily" = Some (fontFamily Excalifont))
      ∧ fontFamily Excalifont
        = match Excalifont with
          | None | Some JNull => JNum (lit "1")
          | Some f => f
          end
  | None => existsb is_null els = true
  end.
Proof.
  unfold convertRawElements. destruct (existsb is_null els); [done|].
  split; [done|]. split; [|split].
  - eexists. split; [done|]. by rewrite length_fmap.
  - intros el Hin Ht. apply elem_of_app in Hin as [Hin|Hin].
    + apply list_elem_of_fmap in Hin as (o & -> & _). by apply withFont_text.
    + apply list_elem_of_In, filter_In in Hin as [_ Hp].
      apply pseudo_not_text in Hp. congruence.
  - unfold fontFamily. by destruct Excalifont as [[]|].
Qed.

End Conversion.

(** ** The identifiers of a [delete] directive *)

Lemma ToString_strings (parts : list jsstring) :
  ToString (JArr (JStr <$> parts)) = Some (join [Ch.comma] parts).
Proof.
  simpl.
  match goal with
  | |- join _ <$> ?f _ = _ => assert (f (JStr <$> parts) = Some parts) as ->
  end; [|done].
  induction parts as [|p ps IH]; [done|].
  rewrite fmap_cons. by rewrite IH.
Qed.

(** X3. The identifiers of a [delete] directive may be given as one text
    with commas or as an array of strings ([String] of an array joins with
    commas): in both forms the directive names each part with the white
    space at its ends removed.  The field read is [ids], or [id] when [ids]
    is absent or [null]. *)
Theorem delete_ids_text_or_array (el : json) (parts cores : list jsstring) :
  parts ≠ [] → Forall (λ p, Ch.comma ∉ p) parts → Forall2 stripped parts cores →
  nullish_or (prop el "ids") (prop el "id")
  = Some (JStr (join [Ch.comma] parts))
  ∨ nullish_or (prop el "ids") (prop el "id") = Some (JArr (JStr <$> parts)) →
  delete_targets el = Some cores.
Proof.
  intros Hne Hcomma Hs Hids. unfold delete_targets.
  assert (String_ (nullish_or (prop el "ids") (prop el "id"))
          = Some (join [Ch.comma] parts)) as ->.
  { destruct Hids as [-> | ->]; [done|]. apply ToString_strings. }
  rewrite split_join by done. f_equal. clear Hne Hcomma Hids.
  induction Hs as [|p c ps cs Hpc _ IH]; [done|].
  rewrite fmap_cons, IH. f_equal. by apply trim_stripped.
Qed.

Lemma delete_ids_text_or_array_witness :
  delete_targets
    (JObj [(lit "type", JStr (lit "delete"));
           (lit "ids", JStr (lit "a1, b2 ,c3"))])
  = Some [lit "a1"; lit "b2"; lit "c3"]
  ∧ delete_targets
      (JObj [(lit "type", JStr (lit "delete")); (lit "ids", JNull);
             (lit "id", JArr [JStr (lit "a1"); JStr (lit " b2")])])
    = Some [lit "a1"; lit "b2"].
Proof.
  split.
  - apply (delete_ids_text_or_array _ [lit "a1"; lit " b2 "; lit "c3"]).
    + done.
    + by apply (bool_decide_unpack _).
    + repeat constructor.
      * exists [], []. by vm_compute.
      * exists [Ch.space], [Ch.space]. vm_compute. repeat split; by repeat constructor.
      * exists [], []. by vm_compute.
    + left. reflexivity.
  - apply (delete_ids_text_or_array _ [lit "a1"; lit " b2"]).
    + done.
    + by apply (bool_decide_unpack _).
    + repeat constructor.
      * exists [], []. by vm_compute.
      * exists [Ch.space], []. vm_compute. repeat split; by repeat constructor.
    + right. reflexivity.
Defined.

(** ** Elements given as an array instead of a text *)

Lemma starts_with_bracket_head (c : N) (r : jsstring) :
  is_js_space c = false → starts_with_bracket (c :: r) → c = Ch.lbracket.
Proof.
  intros Hc (w & r' & Hw & Hs). destruct w as [|u w].
  - simpl in Hs. by injection Hs.
  - apply Forall_cons in Hw as [Hu _]. simpl in Hs. injection Hs as -> _.
    by rewrite Hu in Hc.
Qed.

Lemma parsePartialElements_other_head (c : N) (r : jsstring) :
  is_js_space c = false → c ≠ Ch.lbracket →
  parsePartialElements (Some (c :: r)) = JArr [].
Proof.
  intros Hc Hne. unfold parsePartialElements.
  destruct (startsWith (trim (c :: r)) (lit "[")) eqn:Hs; [|done].
  apply trim_starts_with_bracket in Hs.
  by apply starts_with_bracket_head in Hs.
Qed.



(** ** The checkpoint base: deletions and the cache of the partial path *)

Lemma targeted_empty (el : json) : targeted ∅ el = false.
Proof. unfold targeted. by rewrite !has_empty. Qed.

Lemma filter_all {A} (f : A → bool) (l : list A) :
  Forall (λ a, f a = true) l → List.filter f l = l.
Proof. induction 1 as [|a l Ha _ IH]; [done|]. simpl. by rewrite Ha, IH. Qed.

(** What [apply_deletes] keeps: the elements that the set does not name. *)
Lemma apply_deletes_filter (ids : gset jsstring) (base b : list json) :
  apply_deletes ids base = Some b →
  b = List.filter (λ el, negb (targeted ids el)) base.
Proof.
  unfold apply_deletes, filter_untargeted.
  destruct (0 <? size ids)%nat eqn:Hs.
  - case_match; [done|]. by intros [= <-].
  - intros [= <-]. apply Nat.ltb_ge in Hs.
    assert (ids = ∅) as -> by (apply leibniz_equiv, size_empty_inv; lia).
    symmetry. apply filter_all, Forall_forall. intros el _.
    by rewrite targeted_empty.
Qed.

Section Base.

Variable convertToExcalidrawElements : list json → list obj.
Variable Excalifont : jsval.
Variable loadCheckpoint : option (json → json).
Variable random : nat → N.
Variable editedElements : option (list json).

Local Abbreviation BS_doStream :=
  (doStream convertToExcalidrawElements Excalifont loadCheckpoint random).
Local Abbreviation BS_convertRawElements :=
  (convertRawElements convertToExcalidrawElements Excalifont).
Local Abbreviation BS_doFinal :=
  (doFinal convertToExcalidrawElements Excalifont loadCheckpoint
     editedElements).
Local Abbreviation BS_final_base :=
  (final_base convertToExcalidrawElements Excalifont loadCheckpoint).
Local Abbreviation BS_stream_restore :=
  (stream_restore convertToExcalidrawElements Excalifont loadCheckpoint).

Lemma final_base_filter (ex : Extracted) (b : list json)
    (vp : option (ViewportRect jsval)) :
  BS_final_base ex = Some (Some b, vp) →
  ∃ load id raw scene,
    loadCheckpoint = Some load ∧ restoreId ex = Some id
    ∧ prop (load id) "elements" = Some (JArr raw)
    ∧ BS_convertRawElements raw = Some scene
    ∧ b = List.filter (λ el, negb (targeted (deleteIds ex) el)) scene.
Proof.
  unfold final_base. intros H.
  destruct (truthy (restoreId ex)); [|done].
  destruct loadCheckpoint as [load|]; [|done].
  destruct (restoreId ex) as [id|]; [|done].
  destruct (truthy (Some (load id))); [|done].
  destruct (prop (load id) "elements") as [[| | | |raw|]|] eqn:Hels; try done.
  simpl in H. destruct (fallback_viewport _ _); [|done].
  destruct (BS_convertRawElements raw) as [scene|] eqn:Hc; [|done].
  destruct (apply_deletes _ _) as [b'|] eqn:Hd; [|done].
  simplify_eq. apply apply_deletes_filter in Hd.
  by exists load, id, raw, scene.
Qed.

Lemma stream_render_base vp draw base restored st els vp' b :
  (els, vp', b) ∈ renders (stream_render random vp draw base restored st).2 →
  b = base ∧ restoredRef (stream_render random vp draw base restored st).1
            = restored.
Proof.
  unfold stream_render. intros Hin. repeat case_match; simpl in *.
  - rewrite renders_app, renders_playStroke in Hin. simpl in Hin.
    apply list_elem_of_singleton in Hin. by simplify_eq.
  - apply list_elem_of_singleton in Hin. by simplify_eq.
  - by apply elem_of_nil in Hin.
Qed.

(** X5. An element of a restored checkpoint that a [delete] directive
    names, by its identifier or by its container, is not drawn and not
    handed to the editor: the base of every render is the converted
    scene of the checkpoint without the named elements, the others in
    their order.  In the final path the editor receives that base
    followed by the new elements; in the partial path the scene kept
    for the next chunks stays whole. *)
Theorem deleted_base_elements_dropped :
  (∀ (ex : Extracted) (st st' : View) (effs : list effect)
      (els b : list json) (vp : option (ViewportRect jsval)),
      BS_doFinal ex st = Some (st', effs) →
      (els, vp, Some b) ∈ renders effs →
      ∃ load id raw scene new,
        loadCheckpoint = Some load ∧ restoreId ex = Some id
        ∧ prop (load id) "elements" = Some (JArr raw)
        ∧ BS_convertRawElements raw = Some scene
        ∧ b = List.filter (λ el, negb (targeted (deleteIds ex) el)) scene
        ∧ BS_convertRawElements (drawElements ex) = Some new
        ∧ onElements (b ++ new) ∈ effs)
  ∧ (∀ (sid : jsval) (dids : gset jsstring)
       (vp : option (ViewportRect jsval)) (draw : list json)
       (st st' : View) (effs : list effect) (els b : list json)
       (vp' : option (ViewportRect jsval)),
       BS_doStream sid dids vp draw st = Some (st', effs) →
       (els, vp', Some b) ∈ renders effs →
       ∃ id scene,
         restoredRef st' = Some (id, scene)
         ∧ b = List.filter (λ el, negb (targeted dids el)) scene).
Proof.
  split.
  - intros ex st st' effs els b vp Hf Hin. unfold doFinal in Hf.
    destruct (BS_final_base ex) as [[base vp0]|] eqn:Hb; [|done].
    destruct (BS_convertRawElements (drawElements ex)) as [new|] eqn:Hn;
      [|done].
    simplify_eq. destruct editedElements; simpl in Hin.
    { by apply elem_of_nil in Hin. }
    apply list_elem_of_singleton in Hin. simplify_eq.
    destruct (final_base_filter _ _ _ Hb)
      as (load & id & raw & scene & ? & ? & ? & ? & Hbf).
    exists load, id, raw, scene, new. repeat split; try done.
    subst. set_solver.
  - intros sid dids vp draw st st' effs els b vp' Hs Hin.
    unfold doStream in Hs. destruct (truthy sid).
    + destruct (BS_stream_restore sid st) as [[[id scene]|]|]; [| |done].
      * destruct (fallback_viewport vp scene) as [vp1|]; [|done].
        destruct (apply_deletes dids scene) as [b'|] eqn:Hd; [|done].
        apply apply_deletes_filter in Hd.
        injection Hs as Hs. rewrite (surjective_pairing (stream_render _ _ _ _ _ _)) in Hs.
        simplify_eq. apply stream_render_base in Hin as [Hb Hr].
        simplify_eq. by exists id, scene.
      * injection Hs as Hs. rewrite (surjective_pairing (stream_render _ _ _ _ _ _)) in Hs.
        simplify_eq. by apply stream_render_base in Hin as [Hb Hr].
    + injection Hs as Hs. rewrite (surjective_pairing (stream_render _ _ _ _ _ _)) in Hs.
      simplify_eq. by apply stream_render_base in Hin as [Hb Hr].
Qed.

Lemma stream_render_restored vp draw base restored st :
  restoredRef (stream_render random vp draw base restored st).1 = restored.
Proof. unfold stream_render. by repeat case_match. Qed.

Lemma doStream_restored sid dids vp draw st st' effs :
  BS_doStream sid dids vp draw st = Some (st', effs) →
  restoredRef st'
  = if truthy sid then default None (BS_stream_restore sid st)
    else restoredRef st.
Proof.
  unfold doStream. intros H. destruct (truthy sid).
  - destruct (BS_stream_restore sid st) as [[[id scene]|]|]; [| |done].
    + destruct (fallback_viewport vp scene) as [vp1|]; [|done].
      destruct (apply_deletes dids scene) as [b|]; [|done].
      injection H as H. simpl.
      rewrite <- (stream_render_restored vp1 draw (Some b)
                    (Some (id, scene)) st).
      by rewrite H.
    + injection H as H. simpl.
      rewrite <- (stream_render_restored vp draw None None st).
      by rewrite H.
  - injection H as H.
    rewrite <- (stream_render_restored vp draw None (restoredRef st) st).
    by rewrite H.
Qed.


(** X7. When the checkpoint of a chunk cannot be loaded (there is no
    loader, or it answers [null]), the cache stays as it was: with an
    empty cache the chunk is drawn without a base, and with a cache that
    holds the scene of another checkpoint the chunk is drawn over that
    scene. *)
Theorem failed_load_keeps_previous_base
    (sid : jsval) (dids : gset jsstring) (vp : option (ViewportRect jsval))
    (draw : list json) (st st' : View) (effs : list effect) :
  truthy sid = true →
  (∀ id0 sc, restoredRef st = Some (id0, sc) → strict_equal id0 sid = false) →
  (∀ load id, loadCheckpoint = Some load → sid = Some id →
              truthy (Some (load id)) = false) →
  BS_doStream sid dids vp draw st = Some (st', effs) →
  restoredRef st' = restoredRef st
  ∧ ∀ els vp' b, (els, vp', b) ∈ renders effs →
      b = (λ r, List.filter (λ el, negb (targeted dids el)) r.2)
            <$> restoredRef st.
Proof.
  intros Hsid Hmiss Hfail Hd.
  assert (Hres : BS_stream_restore sid st = Some (restoredRef st)).
  { unfold stream_restore.
    destruct loadCheckpoint as [load|]; [|by repeat case_match].
    destruct sid as [id|]; [|by repeat case_match].
    rewrite (Hfail load id eq_refl eq_refl). by repeat case_match. }
  split.
  - apply doStream_restored in Hd. by rewrite Hd, Hsid, Hres.
  - intros els vp' b Hin. unfold doStream in Hd. rewrite Hsid, Hres in Hd.
    destruct (restoredRef st) as [[id0 sc]|]; simpl.
    + destruct (fallback_viewport vp sc) as [vp1|]; [|done].
      destruct (apply_deletes dids sc) as [b'|] eqn:Hb; [|done].
      apply apply_deletes_filter in Hb. injection Hd as Hd.
      rewrite (surjective_pairing (stream_render _ _ _ _ _ _)) in Hd.
      simplify_eq. by apply stream_render_base in Hin as [-> _].
    + injection Hd as Hd.
      rewrite (surjective_pairing (stream_render _ _ _ _ _ _)) in Hd.
      simplify_eq. by apply stream_render_base in Hin as [-> _].
Qed.

End Base.

Lemma deleted_base_elements_dropped_witness :
  let keep := λ l : list json,
    omap (λ e, match e with JObj o => Some o | _ => None end) l in
  let box := JObj [(lit "type", JStr (lit "rectangle")); (lit "id", JStr (lit "a"))] in
  let caption :=
    JObj [(lit "type", JStr (lit "text")); (lit "id", JStr (lit "t"));
          (lit "containerId", JStr (lit "a"))] in
  let disc := JObj [(lit "type", JStr (lit "ellipse")); (lit "id", JStr (lit "c"))] in
  let saved := JObj [(lit "elements", JArr [box; caption; disc])] in
  let new := JObj [(lit "type", JStr (lit "diamond")); (lit "id", JStr (lit "d"))] in
  let ex := mkExtracted None [new] (Some (JStr (lit "cp1"))) {[ lit "a" ]} in
  ∃ load id raw scene new',
    Some (λ _ : json, saved) = Some load ∧ restoreId ex = Some id
    ∧ prop (load id) "elements" = Some (JArr raw)
    ∧ convertRawElements keep None raw = Some scene
    ∧ [disc] = List.filter (λ el, negb (targeted (deleteIds ex) el)) scene
    ∧ convertRawElements keep None (drawElements ex) = Some new'
    ∧ onElements ([disc] ++ new')
      ∈ [captureInitialElements [disc; new]; onElements [disc; new];
         renderSvgPreview [new] None (Some [disc])].
Proof.
  intros keep box caption disc saved new ex.
  apply (proj1 (deleted_base_elements_dropped keep None
                  (Some (λ _, saved)) (λ _, 7) None)
           ex (mkView [] None 0) (mkView [new] None 0)
           [captureInitialElements [disc; new]; onElements [disc; new];
            renderSvgPreview [new] None (Some [disc])]
           [new] [disc] None).
  - vm_compute. reflexivity.
  - vm_compute. apply list_elem_of_here.
Defined.


Lemma failed_load_keeps_previous_base_witness :
  let keep := λ l : list json,
    omap (λ e, match e with JObj o => Some o | _ => None end) l in
  let box := JObj [(lit "type", JStr (lit "rectangle")); (lit "id", JStr (lit "a"))] in
  let new := JObj [(lit "type", JStr (lit "diamond")); (lit "id", JStr (lit "d"))] in
  let st := mkView [] (Some (Some (JStr (lit "cp1")), [box])) 0 in
  let run :=
    default (st, [])
      (doStream keep None (Some (λ _, JNull)) (λ _, 7)
         (Some (JStr (lit "cp2"))) ∅ None [new] st) in
  restoredRef run.1 = restoredRef st
  ∧ ∀ els vp' b, (els, vp', b) ∈ renders run.2 →
      b = (λ r, List.filter (λ el, negb (targeted ∅ el)) r.2)
            <$> restoredRef st.
Proof.
  intros keep box new st run.
  apply (failed_load_keeps_previous_base keep None (Some (λ _, JNull))
           (λ _, 7) (Some (JStr (lit "cp2"))) ∅ None [new] st run.1 run.2).
  - reflexivity.
  - intros id0 sc [= <- <-]. reflexivity.
  - intros load id [= <-] [= <-]. reflexivity.
  - vm_compute. reflexivity.
Defined.

(** ** The static 4:3 fix and the user zoom *)

Section ZoomAndFix.

Local Open Scope Q_scope.

Lemma Math_max_spec (a b : Q) : a <= Math_max a b ∧ b <= Math_max a b
                                ∧ (Math_max a b = a ∨ Math_max a b = b).
Proof.
  unfold Math_max. destruct (Qle_bool a b) eqn:E.
  - apply Qle_bool_iff in E. repeat split; [done|lra|by right].
  - assert (¬ a <= b) by (rewrite <- Qle_bool_iff; congruence).
    repeat split; [lra|lra|by left].
Qed.

Lemma Math_min_spec (a b : Q) : Math_min a b <= a ∧ Math_min a b <= b
                                ∧ (Math_min a b = a ∨ Math_min a b = b).
Proof.
  unfold Math_min. destruct (Qle_bool a b) eqn:E.
  - apply Qle_bool_iff in E. repeat split; [lra|done|by left].
  - assert (¬ a <= b) by (rewrite <- Qle_bool_iff; congruence).
    repeat split; [lra|lra|by right].
Qed.

Lemma clamp_range (s : Q) :
  1 # 4 <= Math_max (1 # 4) (Math_min 8 s) <= 8.
Proof.
  destruct (Math_max_spec (1 # 4) (Math_min 8 s)) as (H1 & H2 & [E|E]);
    rewrite E in *.
  - lra.
  - destruct (Math_min_spec 8 s) as (H3 & _). lra.
Qed.


Lemma zoomAfter_range (zoom : Zoom.t) (ev : pointerEvent) :
  1 # 4 <= Zoom.scale zoom <= 8 →
  1 # 4 <= Zoom.scale (zoomAfter zoom ev) <= 8.
Proof.
  intros Hr. destruct ev as [c svg base e|svg base]; simpl.
  - unfold handleWheel.
    destruct (negb (Wheel.ctrlKey e || Wheel.metaKey e) && _); [done|].
    simpl. destruct (Wheel.ctrlKey e || Wheel.metaKey e).
    + destruct base; simpl; apply clamp_range.
    + by destruct base.
  - lra.
Qed.

(** X9. Whatever wheel and double-click events arrive, and whatever the
    container and the base view box are when they do, the scale of the
    user zoom stays between 1/4 and 8. *)
Theorem zoom_scale_stays_in_range (evs : list pointerEvent) :
  1 # 4 <= Zoom.scale (zoomAfterAll evs) <= 8.
Proof.
  unfold zoomAfterAll.
  assert (H : 1 # 4 <= Zoom.scale noZoom <= 8) by (simpl; lra).
  revert H. generalize noZoom.
  induction evs as [|ev evs IH]; intros z Hz; [done|].
  simpl. by apply IH, zoomAfter_range.
Qed.




End ZoomAndFix.





(** ** [computeSceneBounds] on a scene with numeric coordinates *)

Lemma least_snoc (n : Num.t) (xs : list Q) (x : Q) :
  least n xs → least (Num.min n (Num.Fin x)) (xs ++ [x]).
Proof.
  unfold least. destruct xs as [|x0 xs].
  - intros ->. simpl. exists x. split; [done|]. split; [apply list_elem_of_here|].
    intros x' ->%list_elem_of_singleton. apply Qle_refl.
  - intros (m & -> & Hin & Hle). simpl.
    destruct (Qle_bool m x) eqn:E.
    + apply Qle_bool_iff in E. exists m. split; [done|].
      split; [apply (elem_of_app (x0 :: xs)); by left|].
      intros x' [Hx'| ->%list_elem_of_singleton]%(elem_of_app (x0 :: xs));
        [by apply Hle|done].
    + assert (x <= m)%Q as Hxm.
      { apply Qnot_lt_le. intros Hlt. apply Qlt_le_weak, Qle_bool_iff in Hlt.
        congruence. }
      exists x. split; [done|].
      split; [apply (elem_of_app (x0 :: xs)); right; apply list_elem_of_here|].
      intros x' [Hx'| ->%list_elem_of_singleton]%(elem_of_app (x0 :: xs)).
      * eapply Qle_trans; [exact Hxm|by apply Hle].
      * apply Qle_refl.
Qed.

Section Bounds.

Variable StringToNumber : jsstring → Num.t.

Local Abbreviation SB_bounds_point := (bounds_point StringToNumber).
Local Abbreviation SB_bounds_body := (bounds_body StringToNumber).
Local Abbreviation SB_computeSceneBounds :=
  (computeSceneBounds StringToNumber).

Lemma finite_Some (n : Num.t) (q : Q) : finite n = Some q → n = Num.Fin q.
Proof. destruct n; try done. by intros [= ->]. Qed.

Lemma bounds_points_least (lx ly : jsstring) (x y : Q) (points : list json)
    (offs : list (Q * Q)) (acc : Num.t * Num.t) (xs ys : list Q) :
  number_value lx = Num.Fin x → number_value ly = Num.Fin y →
  mapM (offset_point x y) points = Some offs →
  least acc.1 xs → least acc.2 ys →
  ∃ acc',
    for_of (SB_bounds_point (Some (JNum lx)) (Some (JNum ly))) points acc
    = Some acc'
    ∧ least acc'.1 (xs ++ offs.*1) ∧ least acc'.2 (ys ++ offs.*2).
Proof.
  intros Hlx Hly. revert offs acc xs ys.
  induction points as [|pt points IH]; intros offs acc xs ys Hm Hx Hy.
  - injection Hm as <-. exists acc. simpl. by rewrite !app_nil_r.
  - simpl in Hm.
    destruct (offset_point _ _ pt) as [[px py]|] eqn:Hpt; simpl in Hm; [|done].
    destruct (mapM _ points) as [offs'|] eqn:Hm'; simpl in Hm; [|done].
    injection Hm as <-.
    destruct pt as [| | | |[|[| |a| | |] [|[| |b| | |] rest]]|]; try done.
    unfold offset_point in Hpt.
    destruct (finite (Num.add (Num.Fin x) (number_value a))) as [qx|] eqn:Ex;
      [|done].
    destruct (finite (Num.add (Num.Fin y) (number_value b))) as [qy|] eqn:Ey;
      [|done].
    injection Hpt as -> ->.
    apply finite_Some in Ex. apply finite_Some in Ey.
    cbn [for_of].
    unfold bounds_point at 1. cbn [at_index lookup list_lookup].
    assert (plus StringToNumber (Some (JNum lx)) (Some (JNum a))
            = Some (Num.Fin px)) as ->.
    { unfold plus. cbn [is_textual orb ToNumber]. by rewrite Hlx, Ex. }
    assert (plus StringToNumber (Some (JNum ly)) (Some (JNum b))
            = Some (Num.Fin py)) as ->.
    { unfold plus. cbn [is_textual orb ToNumber]. by rewrite Hly, Ey. }
    destruct (IH offs'
                (Num.min acc.1 (Num.Fin px), Num.min acc.2 (Num.Fin py))
                (xs ++ [px]) (ys ++ [py]) eq_refl)
      as (acc' & Hf & Hx' & Hy'); [by apply least_snoc..|].
    exists acc'. split; [done|].
    rewrite !fmap_cons. cbn [fst snd].
    by rewrite !(cons_middle _ _ (_ <$> offs')), !app_assoc.
Qed.

Lemma bounds_body_least (el : json) (pts : list (Q * Q))
    (acc : Num.t * Num.t) (xs ys : list Q) :
  element_points el = Some pts →
  least acc.1 xs → least acc.2 ys →
  ∃ acc', SB_bounds_body acc el = Some acc'
          ∧ least acc'.1 (xs ++ pts.*1) ∧ least acc'.2 (ys ++ pts.*2).
Proof.
  intros Hp Hx Hy.
  assert (Hbody : SB_bounds_body acc el
                  = match prop el "x" with
                    | None | Some JNull => Some acc
                    | _ =>
                        match ToNumber StringToNumber (prop el "x"),
                              ToNumber StringToNumber (prop el "y") with
                        | Some nx, Some ny =>
                            let acc' :=
                              (Num.min acc.1 nx, Num.min acc.2 ny) in
                            match prop el "points" with
                            | Some (JArr points) =>
                                for_of (SB_bounds_point (prop el "x")
                                          (prop el "y")) points acc'
                            | _ => Some acc'
                            end
                        | _, _ => None
                        end
                    end)
    by (by destruct el).
  assert (Hpts : element_points el
                 = match prop el "x", prop el "y" with
                   | None, _ | Some JNull, _ => Some []
                   | Some (JNum lx), Some (JNum ly) =>
                       x ← finite (number_value lx);
                       y ← finite (number_value ly);
                       match prop el "points" with
                       | Some (JArr points) =>
                           cons (x, y) <$> mapM (offset_point x y) points
                       | _ => Some [(x, y)]
                       end
                   | _, _ => None
                   end)
    by (by destruct el).
  rewrite Hbody. rewrite Hpts in Hp. clear Hbody Hpts.
  destruct (prop el "x") as [[| |lx| | |]|]; try done;
    try (injection Hp as <-; exists acc; simpl; by rewrite !app_nil_r).
  destruct (prop el "y") as [[| |ly| | |]|]; try done.
  destruct (finite (number_value lx)) as [x|] eqn:Ex; [|done].
  destruct (finite (number_value ly)) as [y|] eqn:Ey; [|done].
  cbn [mbind option_bind] in Hp.
  apply finite_Some in Ex. apply finite_Some in Ey.
  cbn [ToNumber]. rewrite Ex, Ey. cbn zeta.
  pose proof (least_snoc _ _ x Hx) as Hx'.
  pose proof (least_snoc _ _ y Hy) as Hy'.
  destruct (prop el "points") as [[| | | |points|]|];
    try (injection Hp as <-; eexists; split; [done|]; by split).
  destruct (mapM _ points) as [offs|] eqn:Hm; simpl in Hp; [|done].
  injection Hp as <-.
  destruct (bounds_points_least lx ly x y points offs
              (Num.min acc.1 (Num.Fin x), Num.min acc.2 (Num.Fin y))
              _ _ Ex Ey Hm Hx' Hy') as (acc' & Hf & Hx'' & Hy'').
  exists acc'. split; [done|].
  rewrite !fmap_cons. cbn [fst snd].
  by rewrite !(cons_middle _ _ (_ <$> offs)), !app_assoc.
Qed.

Lemma bounds_loop_least (els : list json) (pss : list (list (Q * Q)))
    (acc : Num.t * Num.t) (xs ys : list Q) :
  mapM element_points els = Some pss →
  least acc.1 xs → least acc.2 ys →
  ∃ acc', for_of SB_bounds_body els acc = Some acc'
          ∧ least acc'.1 (xs ++ (mjoin pss).*1)
          ∧ least acc'.2 (ys ++ (mjoin pss).*2).
Proof.
  revert pss acc xs ys.
  induction els as [|el els IH]; intros pss acc xs ys Hm Hx Hy.
  - injection Hm as <-. exists acc. simpl. by rewrite !app_nil_r.
  - simpl in Hm.
    destruct (element_points el) as [pts|] eqn:Hel; simpl in Hm; [|done].
    destruct (mapM _ els) as [pss'|] eqn:Hm'; simpl in Hm; [|done].
    injection Hm as <-.
    destruct (bounds_body_least el pts acc xs ys Hel Hx Hy)
      as (acc1 & Hb & Hx1 & Hy1).
    destruct (IH pss' acc1 _ _ eq_refl Hx1 Hy1) as (acc' & Hf & Hx' & Hy').
    exists acc'. cbn [for_of]. rewrite Hb. split; [done|].
    change (mjoin (pts :: pss')) with (pts ++ mjoin pss').
    by rewrite !fmap_app, !app_assoc.
Qed.

(** X13. For a scene whose positioned elements have numbers as [x] and
    [y] and pairs of numbers as points, all of them finite as binary64
    numbers and with finite sums, [computeSceneBounds] returns the least
    [x] and the least [y] over the origins of the elements and their
    points (the origin moved by the pair, as binary64 addition gives
    it), each taken by one of them, and [(0, 0)] when no element is
    positioned; so [sceneToSvgViewBox] puts every such point at the
    export padding or beyond it. *)
Theorem scene_bounds_are_the_least_corner (els : list json)
    (pts : list (Q * Q)) :
  scene_points els = Some pts →
  ∃ minX minY,
    SB_computeSceneBounds els = Some (minX, minY)
    ∧ (pts = [] → minX = 0%Q ∧ minY = 0%Q)
    ∧ (pts ≠ [] → minX ∈ pts.*1 ∧ minY ∈ pts.*2)
    ∧ ∀ p, p ∈ pts →
        (minX <= p.1)%Q ∧ (minY <= p.2)%Q
        ∧ ∀ w h,
            (EXPORT_PADDING
             <= VP.x (sceneToSvgViewBox (VP.mk p.1 p.2 w h) minX minY))%Q
            ∧ (EXPORT_PADDING
               <= VP.y (sceneToSvgViewBox (VP.mk p.1 p.2 w h) minX minY))%Q.
Proof.
  unfold scene_points. intros Hs.
  destruct (mapM element_points els) as [pss|] eqn:Hm; [|done].
  simpl in Hs. simplify_eq.
  destruct (bounds_loop_least els pss (Num.PosInf, Num.PosInf) [] [] Hm
              eq_refl eq_refl) as ([ax ay] & Hf & Hx & Hy).
  unfold computeSceneBounds. rewrite Hf. simpl in Hx, Hy.
  eexists _, _. split; [done|].
  unfold least in Hx, Hy.
  destruct (mjoin pss) as [|p0 pts] eqn:Hj.
  - simpl in *. subst. split; [done|]. split; [done|].
    intros p Hp. by apply elem_of_nil in Hp.
  - rewrite fmap_cons in Hx, Hy.
    destruct Hx as (mx & -> & Hinx & Hlex).
    destruct Hy as (my & -> & Hiny & Hley).
    simpl. split; [done|]. split; [done|].
    intros p Hp.
    assert (mx <= p.1)%Q as Hpx
      by (apply Hlex; rewrite <- fmap_cons; by apply list_elem_of_fmap_2).
    assert (my <= p.2)%Q as Hpy
      by (apply Hley; rewrite <- fmap_cons; by apply list_elem_of_fmap_2).
    split; [done|]. split; [done|].
    intros w h. unfold sceneToSvgViewBox, EXPORT_PADDING. simpl. split; lra.
Qed.

Lemma min_NaN_r (a : Num.t) : Num.min a Num.NaN = Num.NaN.
Proof. by destruct a. Qed.

Lemma bounds_points_NaN (x y : jsval) (points : list json) (ax : Num.t)
    (acc' : Num.t * Num.t) :
  for_of (SB_bounds_point x y) points (ax, Num.NaN) = Some acc' →
  acc'.2 = Num.NaN.
Proof.
  revert ax. induction points as [|pt points IH]; intros ax H.
  - by injection H as <-.
  - cbn [for_of] in H. unfold bounds_point at 1 in H.
    destruct (at_index pt 0); [|done]. destruct (at_index pt 1); [|done].
    destruct (plus _ _ _); [|done]. destruct (plus _ _ _); [|done].
    by apply IH in H.
Qed.

Lemma bounds_body_NaN (el : json) (ax : Num.t) (acc' : Num.t * Num.t) :
  SB_bounds_body (ax, Num.NaN) el = Some acc' → acc'.2 = Num.NaN.
Proof.
  unfold bounds_body. intros H. destruct el; try done;
    repeat case_match; simplify_eq; try done;
    by eapply bounds_points_NaN.
Qed.

Lemma bounds_loop_NaN (els : list json) (ax : Num.t)
    (acc' : Num.t * Num.t) :
  for_of SB_bounds_body els (ax, Num.NaN) = Some acc' → acc'.2 = Num.NaN.
Proof.
  revert ax. induction els as [|el els IH]; intros ax H.
  - by injection H as <-.
  - cbn [for_of] in H.
    destruct (SB_bounds_body (ax, Num.NaN) el) as [[ax1 ay1]|] eqn:Hb; [|done].
    apply bounds_body_NaN in Hb. simpl in Hb. subst ay1. by apply IH in H.
Qed.

Lemma for_of_app {A S : Type} (body : S → A → option S) (l1 l2 : list A)
    (s : S) :
  for_of body (l1 ++ l2) s
  = match for_of body l1 s with
    | Some s' => for_of body l2 s'
    | None => None
    end.
Proof.
  revert s. induction l1 as [|a l1 IH]; intros s; [done|].
  simpl. by destruct (body s a).
Qed.

(** X23. One positioned element without [y] undoes the vertical bound:
    when an element has an [x] and no [y] property, the least [y] is not
    a number any more, and [computeSceneBounds] returns 0 for [minY]
    whatever the other elements are (when it returns at all). *)
Theorem missing_y_resets_the_bound (pre post : list json) (el : json)
    (minX minY : Q) :
  nullish_or (prop el "x") None ≠ None → prop el "y" = None →
  SB_computeSceneBounds (pre ++ el :: post) = Some (minX, minY) →
  minY = 0%Q.
Proof.
  intros Hx Hy. unfold computeSceneBounds. rewrite for_of_app.
  destruct (for_of SB_bounds_body pre _) as [[ax ay]|]; [|done].
  cbn [for_of].
  destruct (SB_bounds_body (ax, ay) el) as [[ax1 ay1]|] eqn:Hb; [|done].
  assert (ay1 = Num.NaN) as ->.
  { unfold bounds_body in Hb. rewrite Hy in Hb. cbn [ToNumber] in Hb.
    destruct el; try done;
      destruct (prop _ "x") as [[]|]; try done;
      repeat case_match; simplify_eq; try done;
      rewrite ?min_NaN_r in *; simplify_eq; try done;
      by eapply (bounds_points_NaN _ _ _ _ (_, _)). }
  destruct (for_of SB_bounds_body post _) as [[ax2 ay2]|] eqn:Hp; [|done].
  apply bounds_loop_NaN in Hp. simpl in Hp. subst ay2.
  by intros [= _ <-].
Qed.

End Bounds.

Lemma scene_bounds_are_the_least_corner_witness :
  let els :=
    [JObj [(lit "type", JStr (lit "rectangle")); (lit "x", JNum (lit "10"));
           (lit "y", JNum (lit "-5"))];
     JObj [(lit "type", JStr (lit "arrow")); (lit "x", JNum (lit "100"));
           (lit "y", JNum (lit "50"));
           (lit "points", JArr [JArr [JNum (lit "0"); JNum (lit "0")];
                                JArr [JNum (lit "-200"); JNum (lit "30")]])];
     JObj [(lit "type", JStr (lit "delete")); (lit "ids", JStr (lit "a"))]] in
  ∃ minX minY,
    computeSceneBounds (λ _, Num.NaN) els = Some (minX, minY)
    ∧ minX ∈ [10; 100; 100; -100]%Q ∧ minY ∈ [-5; 50; 50; 80]%Q.
Proof.
  intros els.
  destruct (scene_bounds_are_the_least_corner (λ _, Num.NaN) els
              [(10, -5); (100, 50); (100, 50); (-100, 80)]%Q eq_refl)
    as (minX & minY & Hc & _ & Hin & _).
  exists minX, minY. split; [exact Hc|]. by apply Hin.
Defined.

Lemma missing_y_resets_the_bound_witness :
  let box :=
    JObj [(lit "type", JStr (lit "rectangle")); (lit "x", JNum (lit "10"));
          (lit "y", JNum (lit "-5"))] in
  let disc := JObj [(lit "type", JStr (lit "ellipse")); (lit "x", JNum (lit "3"))] in
  (default (1, 1)%Q (computeSceneBounds (λ _, Num.NaN) ([box] ++ disc :: []))).2
  = 0%Q.
Proof.
  intros box disc.
  eapply (missing_y_resets_the_bound (λ _, Num.NaN) [box] [] disc).
  - done.
  - reflexivity.
  - vm_compute. reflexivity.
Defined.

(** ** The viewport that a render shows *)

Section Present.

Local Open Scope Q_scope.

Lemma Qplus_0_r_eq (r : Q) : r + 0 = r.
Proof.
  destruct r as [n d]. unfold Qplus. simpl.
  by rewrite Z.mul_1_r, Z.add_0_r, Pos.mul_1_r.
Qed.

Lemma sub_same (r : Q) : Num.sub (Num.Fin r) (Num.Fin r) = Num.Fin 0.
Proof.
  unfold Num.sub, Num.neg, Num.add, Num.of_Q.
  assert (Qeq_bool (r + - r) 0 = true) as ->; [|done].
  apply Qeq_bool_iff. ring.
Qed.

(** A tick towards the place where the view is leaves it there. *)
Lemma lerp_same (r : Q) :
  Num.of_Q r = Num.Fin r → lerp (Num.Fin r) (Num.Fin r) = Num.Fin r.
Proof.
  intros Hr. unfold lerp. rewrite sub_same.
  destruct LERP_SPEED_near as (c & -> & _).
  assert (Num.mul (Num.Fin 0) (Num.Fin c) = Num.Fin 0) as ->.
  { unfold Num.mul, Num.of_Q.
    assert (Qeq_bool (0 * c) 0 = true) as ->; [|done].
    apply Qeq_bool_iff. ring. }
  unfold Num.add. by rewrite Qplus_0_r_eq.
Qed.

Lemma lerp_rect_same (vp : ViewportRect Q) :
  is_binary64 vp → lerp_rect (fin_rect vp) (fin_rect vp) = fin_rect vp.
Proof.
  intros (Hx & Hy & Hw & Hh). unfold lerp_rect, fin_rect.
  cbn [VP.x VP.y VP.width VP.height]. by rewrite !lerp_same.
Qed.

Lemma delta_same (vp : ViewportRect Q) :
  delta (fin_rect vp) (fin_rect vp) = Num.Fin 0.
Proof.
  unfold delta, fin_rect. cbn [VP.x VP.y VP.width VP.height].
  by rewrite !sub_same.
Qed.

(** X14. What a render does to the animated viewport, for viewports
    whose fields are binary64 numbers.  The first viewport is shown at
    once: one frame runs and leaves it in place.  A later viewport
    becomes the target and the animation runs from where the view is;
    when both rectangles are within [2 ^ 40] of zero it stops after at
    most [frame_bound] frames, with a total difference of at most
    129/256.  A render without a viewport reports the default rectangle,
    but it moves the view only if none was shown before: it clears the
    target and cancels the frame, so the view stays where the animation
    had brought it. *)
Theorem viewport_after_render (s : Animation) (vp : ViewportRect Q) :
  (animatedVP s = None → is_binary64 vp →
     (presentViewport (Some (fin_rect vp)) s).2 = fin_rect vp
     ∧ ∀ fuel, (1 ≤ fuel)%nat →
         frames fuel (presentViewport (Some (fin_rect vp)) s).1
         = (1%nat,
            mkAnimation (Some (fin_rect vp)) (Some (fin_rect vp)) false))
  ∧ (∀ cur, animatedVP s = Some (fin_rect cur) →
       within (2 ^ 40) cur → within (2 ^ 40) vp →
       (presentViewport (Some (fin_rect vp)) s).2 = fin_rect vp
       ∧ ∃ (k : nat) (final : ViewportRect Q),
           (1 ≤ k ≤ frame_bound cur vp)%nat
           ∧ distance final vp <= 129 # 256
           ∧ ∀ fuel, (k ≤ fuel)%nat →
               frames fuel (presentViewport (Some (fin_rect vp)) s).1
               = (k, mkAnimation (Some (fin_rect final))
                       (Some (fin_rect vp)) false))
  ∧ ((presentViewport None s).2 = defaultViewport
     ∧ animatedVP (presentViewport None s).1
       = Some (default defaultViewport (animatedVP s))
     ∧ ∀ fuel,
         frames fuel (presentViewport None s).1
         = (0%nat, (presentViewport None s).1)).
Proof.
  split; [|split].
  - intros Hs Hvp. split; [done|].
    intros [|fuel] Hf; [lia|]. unfold presentViewport. rewrite Hs.
    change (_, fin_rect vp).1
      with (start_animation (fin_rect vp) (fin_rect vp)).
    rewrite frames_step, lerp_rect_same, delta_same by done. done.
  - intros cur Hs Hc Hv. split; [done|]. unfold presentViewport. rewrite Hs.
    change (_, fin_rect vp).1
      with (start_animation (fin_rect cur) (fin_rect vp)).
    change (2 ^ 40) with 1099511627776 in *.
    destruct (frames_stop _ cur vp Hv (within_apart _ _ Hc Hv)
                (frame_bound_enough cur vp))
      as (k & final & Hk & Hfin & _ & Hrun).
    by exists k, final.
  - split; [done|]. split; [done|]. by intros [|fuel].
Qed.

End Present.

Lemma viewport_after_render_witness :
  let vp := (VP.mk 40 30 800 600 : ViewportRect Q)%Q in
  let first := (VP.mk 0 0 1024 768 : ViewportRect Q)%Q in
  (∀ fuel, (1 ≤ fuel)%nat →
     frames fuel
       (presentViewport (Some (fin_rect vp)) (mkAnimation None None false)).1
     = (1%nat, mkAnimation (Some (fin_rect vp)) (Some (fin_rect vp)) false))
  ∧ ∃ (k : nat) (final : ViewportRect Q),
      (1 ≤ k ≤ frame_bound first vp)%nat
      ∧ (distance final vp <= 129 # 256)%Q
      ∧ ∀ fuel, (k ≤ fuel)%nat →
          frames fuel
            (presentViewport (Some (fin_rect vp))
               (mkAnimation (Some (fin_rect first)) None false)).1
          = (k, mkAnimation (Some (fin_rect final)) (Some (fin_rect vp)) false).
Proof.
  intros vp first. split.
  - apply (proj1 (viewport_after_render (mkAnimation None None false) vp)
             eq_refl).
    by vm_compute.
  - apply (proj1 (proj2 (viewport_after_render
                           (mkAnimation (Some (fin_rect first)) None false) vp))
             first eq_refl); by vm_compute.
Defined.

(** ** The Redis store and the choice of the store *)

Lemma stringify_object_nonempty (o : obj) : JSON_stringify (JObj o) ≠ [].
Proof. done. Qed.



(** X16. The store that [createVercelStore] chooses, against the
    configuration that [getRedis] accepts.  A configuration that
    [getRedis] accepts always makes [createVercelStore] choose the Redis
    store.  The memory store is chosen exactly when neither URL variable
    holds a non-empty text; the tokens play no part in the choice.  And an
    empty [KV_REST_API_URL] makes [getRedis] fail even when
    [UPSTASH_REDIS_REST_URL] is set, although the Redis store is chosen
    then. *)
Theorem redis_chosen_when_configured (env : gmap string jsstring) :
  (∀ cfg, RedisCheckpointStore.getRedis env = Some cfg →
          createVercelStore env = RedisStore)
  ∧ (createVercelStore env = MemoryStore
     ↔ (env !! "KV_REST_API_URL"%string = None
        ∨ env !! "KV_REST_API_URL"%string = Some [])
       ∧ (env !! "UPSTASH_REDIS_REST_URL"%string = None
          ∨ env !! "UPSTASH_REDIS_REST_URL"%string = Some []))
  ∧ (env !! "KV_REST_API_URL"%string = Some [] →
     RedisCheckpointStore.getRedis env = None
     ∧ ∀ u, u ≠ [] → env !! "UPSTASH_REDIS_REST_URL"%string = Some u →
            createVercelStore env = RedisStore).
Proof.
  unfold createVercelStore, RedisCheckpointStore.getRedis,
    RedisCheckpointStore.env_var.
  destruct (env !! "KV_REST_API_URL"%string) as [[|c kv]|];
    destruct (env !! "UPSTASH_REDIS_REST_URL"%string) as [[|d up]|];
    simpl; (split; [|split]); try done; try naive_solver.
  all: try (intros cfg; repeat case_match; done).
Qed.

Lemma redis_chosen_when_configured_witness :
  createVercelStore
    {[ "KV_REST_API_URL"%string := lit "https://kv";
       "KV_REST_API_TOKEN"%string := lit "secret" ]}
  = RedisStore.
Proof.
  apply (proj1 (redis_chosen_when_configured
                  {[ "KV_REST_API_URL"%string := lit "https://kv";
                     "KV_REST_API_TOKEN"%string := lit "secret" ]})
           (lit "https://kv", lit "secret")).
  by vm_compute.
Defined.

(** ** The file store *)

Lemma plain_below (c : N) : c < 55296 → plain c.
Proof.
  intros H. unfold plain, is_high, is_low.
  rewrite !andb_false_iff, !N.leb_gt. lia.
Qed.

Lemma utf8_plain_cons (c : N) (s : jsstring) :
  plain c → utf8_round_trip (c :: s) = c :: utf8_round_trip s.
Proof. intros [Hh Hl]. simpl. by rewrite Hh, Hl. Qed.

Lemma utf8_plain_app (a b : jsstring) :
  Forall plain a → utf8_round_trip (a ++ b) = a ++ utf8_round_trip b.
Proof.
  induction 1 as [|c a Hc _ IH]; [done|].
  rewrite <- app_comm_cons, utf8_plain_cons by done. by rewrite IH.
Qed.

Lemma high_not_replacement (c : N) : is_high c = true → c ≠ 65533.
Proof. unfold is_high. rewrite andb_true_iff, !N.leb_le. lia. Qed.

Lemma low_not_replacement (c : N) : is_low c = true → c ≠ 65533.
Proof. unfold is_low. rewrite andb_true_iff, !N.leb_le. lia. Qed.

(** A text that the round trip keeps is kept in front of any other. *)
Lemma utf8_kept_app (n : nat) (a b : jsstring) :
  (length a ≤ n)%nat → utf8_round_trip a = a →
  utf8_round_trip (a ++ b) = a ++ utf8_round_trip b.
Proof.
  revert a. induction n as [|n IH]; intros a Hn Ha.
  - destruct a; [done|simpl in Hn; lia].
  - destruct a as [|c r]; [done|]. simpl in Hn.
    destruct (is_high c) eqn:Hh.
    + destruct r as [|d r'].
      * simpl in Ha. rewrite Hh in Ha. injection Ha as Ha.
        by destruct (high_not_replacement c Hh).
      * destruct (is_low d) eqn:Hl.
        -- simpl in Ha |- *. rewrite Hh, Hl in Ha |- *.
           injection Ha as Ha.
           rewrite IH; [reflexivity|simpl in Hn; lia|exact Ha].
        -- simpl in Ha. rewrite Hh, Hl in Ha. injection Ha as Ha _.
           by destruct (high_not_replacement c Hh).
    + destruct (is_low c) eqn:Hl.
      * simpl in Ha. rewrite Hh, Hl in Ha. injection Ha as Ha _.
        by destruct (low_not_replacement c Hl).
      * simpl in Ha |- *. rewrite Hh, Hl in Ha |- *. injection Ha as Ha.
        rewrite IH; [reflexivity|lia|exact Ha].
Qed.

Lemma utf8_kept_app' (a b : jsstring) :
  utf8_round_trip a = a → utf8_round_trip b = b →
  utf8_round_trip (a ++ b) = a ++ b.
Proof. intros Ha Hb. by rewrite (utf8_kept_app (length a)), Hb. Qed.

Lemma utf8_plain (a : jsstring) : Forall plain a → utf8_round_trip a = a.
Proof.
  intros Ha. rewrite <- (app_nil_r a) at 1. rewrite utf8_plain_app by done.
  apply app_nil_r.
Qed.

Ltac plain_units :=
  repeat (apply List.Forall_cons); try apply List.Forall_nil;
  try done; try (by apply plain_below).

Lemma hexdigit_plain (d : N) : d < 16 → plain (hexdigit d).
Proof.
  intros Hd. apply plain_below. unfold hexdigit. destruct (d <? 10); lia.
Qed.

Lemma escape_u_plain (c : N) : Forall plain (escape_u c).
Proof.
  unfold escape_u. plain_units; apply hexdigit_plain, N.mod_lt; lia.
Qed.

Lemma escape_unit_plain (c : N) : plain c → Forall plain (escape_unit c).
Proof.
  intros Hc. unfold escape_unit.
  repeat case_match; try apply escape_u_plain; plain_units.
Qed.

Lemma quote_units_kept (n : nat) (s : jsstring) :
  (length s ≤ n)%nat → utf8_round_trip (quote_units s) = quote_units s.
Proof.
  revert s. induction n as [|n IH]; intros s Hn.
  - destruct s; [done|simpl in Hn; lia].
  - destruct s as [|c r]; [done|]. simpl in Hn. cbn [quote_units].
    destruct (is_high c) eqn:Hh.
    + destruct r as [|d r'].
      * apply utf8_plain, escape_u_plain.
      * destruct (is_low d) eqn:Hl.
        -- simpl. rewrite Hh, Hl. rewrite IH; [done|simpl in Hn; lia].
        -- rewrite utf8_plain_app by apply escape_u_plain.
           rewrite IH; [done|lia].
    + destruct (is_low c) eqn:Hl.
      * rewrite utf8_plain_app by apply escape_u_plain.
        rewrite IH; [done|lia].
      * rewrite utf8_plain_app by (by apply escape_unit_plain).
        rewrite IH; [done|lia].
Qed.

Lemma quoteJSON_kept (s : jsstring) :
  utf8_round_trip (quoteJSON s) = quoteJSON s.
Proof.
  unfold quoteJSON. rewrite utf8_plain_cons by (by apply plain_below).
  f_equal. apply utf8_kept_app'; [by apply (quote_units_kept (length s))|].
  apply utf8_plain. plain_units.
Qed.

Lemma join_kept (parts : list jsstring) :
  Forall (λ p, utf8_round_trip p = p) parts →
  utf8_round_trip (join [Ch.comma] parts) = join [Ch.comma] parts.
Proof.
  induction 1 as [|p ps Hp Hps IH]; [done|].
  destruct ps as [|q ps]; [done|].
  change (join [Ch.comma] (p :: q :: ps))
    with (p ++ Ch.comma :: join [Ch.comma] (q :: ps)).
  apply utf8_kept_app'; [done|].
  rewrite utf8_plain_cons by (by apply plain_below). by rewrite IH.
Qed.

Lemma numchar_plain (c : N) : is_numchar c = true → plain c.
Proof.
  intros H. apply plain_below. unfold is_numchar, is_digit in H.
  repeat (apply orb_true_iff in H as [H|H]);
    rewrite ?andb_true_iff, ?N.leb_le, ?N.eqb_eq in H;
    unfold Ch.minus, Ch.plus, Ch.dot in *; lia.
Qed.

(** The text of a JSON value is written and read back as it is. *)
Lemma stringify_kept (v : json) :
  serializable v = true →
  utf8_round_trip (JSON_stringify v) = JSON_stringify v.
Proof.
  induction v as [|b|l|s|l IH|o IH] using json_ind; intros Hser.
  - apply utf8_plain. plain_units.
  - destruct b; apply utf8_plain; plain_units.
  - cbn [JSON_stringify serializable] in *.
    destruct (valid_number_shape l Hser) as (c & r & -> & Hc & Hr).
    apply utf8_plain. constructor.
    + apply numchar_plain. unfold is_numchar.
      apply orb_true_iff in Hc as [Hc|Hc]; rewrite Hc;
        by rewrite ?orb_true_r.
    + eapply Forall_impl; [exact Hr|]. apply numchar_plain.
  - apply quoteJSON_kept.
  - cbn [JSON_stringify serializable] in *.
    rewrite utf8_plain_cons by (by apply plain_below). f_equal.
    apply utf8_kept_app'.
    + apply join_kept, Forall_forall. intros p Hp.
      apply list_elem_of_In, in_map_iff in Hp as (w & <- & Hw).
      eapply (proj1 (Forall_forall _ _) IH); [by apply list_elem_of_In|].
      by eapply (proj1 (forallb_forall _ _) Hser).
    + apply utf8_plain. plain_units.
  - cbn [JSON_stringify serializable] in *.
    apply andb_true_iff in Hser as [_ Hser].
    rewrite utf8_plain_cons by (by apply plain_below). f_equal.
    apply utf8_kept_app'.
    + apply join_kept, Forall_forall. intros p Hp.
      apply list_elem_of_In, in_map_iff in Hp as ([k w] & <- & Hw).
      apply utf8_kept_app'; [apply quoteJSON_kept|].
      rewrite utf8_plain_cons by (by apply plain_below). f_equal.
      apply (proj1 (Forall_forall _ _) IH (k, w)); [by apply list_elem_of_In|].
      by apply (proj1 (forallb_forall _ _) Hser (k, w)).
    + apply utf8_plain. plain_units.
Qed.

Section FileStore.

Variable path_join : jsstring → jsstring → jsstring.
Variable dir : jsstring.
Variable writable : jsstring → bool.

Local Abbreviation FS_file := (FileCheckpointStore.file path_join dir).
Local Abbreviation FS_save :=
  (FileCheckpointStore.save path_join dir writable).
Local Abbreviation FS_load := (FileCheckpointStore.load path_join dir).


End FileStore.


(** ** The partial path against the classifier *)

Lemma filter_prefix {A} (f : A → bool) (l1 l2 : list A) :
  l1 `prefix_of` l2 → List.filter f l1 `prefix_of` List.filter f l2.
Proof. intros [k ->]. rewrite List.filter_app. by eexists. Qed.

Lemma excludeIncompleteLastItem_prefix {A} (l : list A) :
  excludeIncompleteLastItem l `prefix_of` l.
Proof.
  unfold excludeIncompleteLastItem, slice_drop_last.
  repeat case_match; try apply prefix_nil. apply prefix_take.
Qed.

Lemma existsb_prefix {A} (f : A → bool) (l1 l2 : list A) :
  l1 `prefix_of` l2 → existsb f l2 = false → existsb f l1 = false.
Proof.
  intros [k ->]. rewrite existsb_app. by intros [? _]%orb_false_iff.
Qed.

Section Directives.

Variable convertToExcalidrawElements : list json → list obj.
Variable Excalifont : jsval.
Variable loadCheckpoint : option (json → json).
Variable random : nat → N.

Lemma scan_body_kind (acc : jsval * gset jsstring) (el : json) :
  is_null el = false →
  scan_body acc el
  = match kind_of el with
    | KRestore => Some (prop el "id", acc.2)
    | KDelete =>
        (λ ids, (acc.1, acc.2 ∪ list_to_set ids)) <$> delete_targets el
    | _ => Some acc
    end.
Proof.
  intros Hn. unfold scan_body, kind_of, tag_kind, type_is.
  destruct el; try done;
    destruct (prop _ "type") as [[| | |s| |]|]; try done;
    repeat case_bool_decide; repeat case_decide; try done; try congruence;
    try (by destruct (delete_targets _)).
  all: exfalso; subst s;
    match goal with H : lit _ = lit _ |- _ => vm_compute in H; discriminate end.
Qed.

Lemma scan_loop_throws (els : list json) (acc : jsval * gset jsstring) :
  existsb throws els = true → for_of scan_body els acc = None.
Proof.
  revert acc. induction els as [|el els IH]; intros acc H; [done|].
  simpl in H. cbn [for_of]. apply orb_true_iff in H as [H|H].
  - unfold throws in H. apply orb_true_iff in H as [H|H].
    + by destruct el.
    + apply andb_true_iff in H as [Hk Hd].
      apply bool_decide_eq_true in Hk. apply bool_decide_eq_true in Hd.
      destruct (is_null el) eqn:Hn; [by destruct el|].
      by rewrite scan_body_kind, Hk, Hd.
  - destruct (scan_body acc el); [by apply IH|done].
Qed.

Lemma scan_loop (els : list json) (acc : jsval * gset jsstring) :
  existsb throws els = false →
  for_of scan_body els acc
  = Some (default acc.1
            (last ((λ el, prop el "id") <$> of_kind kind_of KRestore els)),
          acc.2 ∪ ⋃ ((λ el, list_to_set (default [] (delete_targets el)))
                       <$> of_kind kind_of KDelete els)).
Proof.
  revert acc. induction els as [|el els IH]; intros [r d] Hn.
  - simpl. by rewrite (right_id_L ∅ (∪)).
  - simpl in Hn. apply orb_false_iff in Hn as [Hel Hels].
    unfold throws in Hel. apply orb_false_iff in Hel as [Hnull Hdel].
    rewrite !of_kind_cons. cbn [for_of]. rewrite scan_body_kind by done.
    destruct (kind_of el) eqn:Hk.
    3: { rewrite bool_decide_eq_true_2 in Hdel by done. simpl in Hdel.
         apply bool_decide_eq_false in Hdel.
         destruct (delete_targets el) as [ids|] eqn:Hd; [|done]. simpl.
         rewrite IH by done; simpl; repeat case_decide; try done; simpl.
         f_equal; f_equal. rewrite Hd. simpl. by rewrite (assoc_L (∪)). }
    all: rewrite IH by done; simpl; repeat case_decide; try done; simpl;
      f_equal; f_equal.
    rewrite last_cons. unfold fmap.
    by match goal with |- context [last ?l] => destruct (last l) end.
Qed.

(** X18. The restore identifier and the delete identifiers that the
    partial path reads in the whole chunk, before it drops the last
    element, are the ones that the classifier finds in the same
    elements, which the final path uses; the scan throws where the
    classifier does. *)
Theorem stream_directives_agree_with_classifier (parsed : list json) :
  streamDirectives parsed
  = (λ ex, (restoreId ex, deleteIds ex)) <$> extractViewportAndElements parsed.
Proof.
  rewrite extract_classified. unfold streamDirectives.
  destruct (existsb throws parsed) eqn:Hn.
  - by rewrite scan_loop_throws.
  - rewrite scan_loop by done. simpl. by rewrite (left_id_L ∅ (∪)).
Qed.

End Directives.

Lemma union_list_prefix (l1 l2 : list (gset jsstring)) :
  l1 `prefix_of` l2 → ⋃ l1 ⊆ ⋃ l2.
Proof. intros [k ->]. rewrite union_list_app_L. set_solver. Qed.

(** When [l] holds the first elements of [arr], the drawables of [l]
    without its last element are the first drawables of [arr]. *)
Lemma drawn_prefix (arr l : list json) :
  l `prefix_of` arr → existsb throws arr = false →
  ∃ exp exf,
    extractViewportAndElements (excludeIncompleteLastItem l) = Some exp
    ∧ extractViewportAndElements arr = Some exf
    ∧ deleteIds exp ⊆ deleteIds exf
    ∧ (∀ i el, drawElements exp !! i = Some el →
         ∃ d, of_kind kind_of KDrawable arr !! i = Some d
              ∧ el = tombstone (deleteIds exp) d
              ∧ drawElements exf !! i = Some (tombstone (deleteIds exf) d))
    ∧ (deleteIds exf = ∅ → drawElements exp `prefix_of` drawElements exf).
Proof.
  intros Hl Hn.
  assert (Hp : excludeIncompleteLastItem l `prefix_of` arr)
    by (etrans; [apply excludeIncompleteLastItem_prefix|done]).
  rewrite !extract_classified, Hn, (existsb_prefix _ _ _ Hp Hn).
  eexists _, _. split; [done|]. split; [done|].
  unfold classified. cbn [deleteIds drawElements].
  pose proof (filter_prefix (λ el, bool_decide (kind_of el = KDrawable)) _ _ Hp)
    as [kd Hd].
  pose proof (filter_prefix (λ el, bool_decide (kind_of el = KDelete)) _ _ Hp)
    as Hdel.
  fold (of_kind kind_of KDrawable (excludeIncompleteLastItem l)) in Hd.
  fold (of_kind kind_of KDrawable arr) in Hd.
  fold (of_kind kind_of KDelete (excludeIncompleteLastItem l)) in Hdel.
  fold (of_kind kind_of KDelete arr) in Hdel.
  assert (Hsub : (⋃ ((λ el, list_to_set (default [] (delete_targets el)))
                       <$> of_kind kind_of KDelete (excludeIncompleteLastItem l))
                  : gset jsstring)
                 ⊆ ⋃ ((λ el, list_to_set (default [] (delete_targets el)))
                        <$> of_kind kind_of KDelete arr)).
  { apply union_list_prefix. destruct Hdel as [k ->].
    rewrite fmap_app. by eexists. }
  split; [done|]. split.
  - intros i el Hi. rewrite list_lookup_fmap in Hi.
    destruct (of_kind kind_of KDrawable (excludeIncompleteLastItem l) !! i)
      as [d|] eqn:Ed; [|done].
    simpl in Hi. injection Hi as <-. exists d.
    assert (of_kind kind_of KDrawable arr !! i = Some d) as Hid
      by (rewrite Hd; by apply lookup_app_l_Some).
    split; [done|]. split; [done|]. by rewrite list_lookup_fmap, Hid.
  - intros Hempty.
    assert ((⋃ ((λ el, list_to_set (default [] (delete_targets el)))
                  <$> of_kind kind_of KDelete (excludeIncompleteLastItem l))
             : gset jsstring) = ∅) as ->.
    { apply leibniz_equiv. rewrite Hempty in Hsub. set_solver. }
    rewrite Hempty, Hd, fmap_app. by eexists.
Qed.


Section Truncation.

#[local] Arguments N.eqb : simpl never.
#[local] Arguments N.leb : simpl never.
#[local] Arguments N.ltb : simpl never.

(** The elements recovered from the start of a text are the first
    elements of the array that the whole text holds. *)
Lemma recovered_is_prefix (s t : jsstring) (arr : list json) :
  JSON_parse s = Some (JArr arr) → t `prefix_of` s →
  ∃ l, parsePartialElements (Some t) = JArr l ∧ l `prefix_of` arr.
Proof.
  intros Hs [y ->]. unfold parsePartialElements.
  destruct (startsWith (trim t) (lit "[")) eqn:Hb; simpl;
    [|exists []; split; [done|apply prefix_nil]].
  apply trim_starts_with_bracket in Hb.
  unfold JSON_parse in Hs. rewrite steps_app in Hs.
  destruct (steps (PExp EValue []) t) as [stt|] eqn:Et; [|done].
  destruct (steps stt y) as [sts|] eqn:Ey; [|done].
  pose proof (bracket_opens t stt Hb Et) as Hh0.
  unfold JSON_parse at 1. rewrite Et.
  destruct (finish stt) as [v|] eqn:Ef.
  { destruct (finish_holds [] stt v Hh0 Ef) as (d & -> & _).
    exists d. split; [done|].
    destruct stt; simpl in Ef; repeat case_match; simplify_eq.
    apply steps_done in Ey. subst sts. simpl in Hs. by simplify_eq. }
  destruct (lastIndexOf t Ch.rbrace <? 0)%Z eqn:El;
    [exists []; split; [done|apply prefix_nil]|].
  assert (Hin : Ch.rbrace ∈ t).
  { destruct (decide (Ch.rbrace ∈ t)) as [|Hn]; [done|].
    apply lastIndexOf_negative in Hn. congruence. }
  destruct (last_occurrence _ _ Hin) as (p & q & -> & Hq).
  rewrite substring0_last by done. change (lit "]") with [Ch.rbracket].
  destruct (JSON_parse ((p ++ [Ch.rbrace]) ++ [Ch.rbracket])) as [v|] eqn:Ep;
    [|exists []; split; [done|apply prefix_nil]].
  assert (Hbx : starts_with_bracket (p ++ [Ch.rbrace]))
    by (by apply (starts_with_bracket_cut p q)).
  destruct (parse_bracket_array _ _
              (starts_with_bracket_app _ [Ch.rbracket] Hbx) Ep) as [l ->].
  exists l. split; [done|].
  rewrite (cons_middle Ch.rbrace p q), app_assoc, steps_app in Et.
  unfold JSON_parse in Ep. rewrite steps_app in Ep.
  destruct (steps (PExp EValue []) (p ++ [Ch.rbrace])) as [stx|] eqn:Ex;
    [|done].
  simpl in Ep. destruct (step stx Ch.rbracket) as [st'|] eqn:Es; [|done].
  assert (st' = PDone (JArr l)) as ->
    by (destruct st'; simpl in Ep; repeat case_match; by simplify_eq).
  assert (Hh : holds l stx).
  { apply step_rbracket_done; [by eapply bracket_opens| |done].
    rewrite steps_app in Ex.
    destruct (steps (PExp EValue []) p) as [stp|]; [|done]. simpl in Ex.
    destruct (step stp Ch.rbrace) as [st1|] eqn:E1; [|done]. simplify_eq.
    by eapply step_rbrace_not_number. }
  destruct (finish_holds l sts (JArr arr)) as (d & Hd & Hpre); [|done|].
  - eapply steps_holds; [|exact Ey]. by eapply steps_holds.
  - by simplify_eq.
Qed.

End Truncation.

(** X19. What is drawn while the text streams in is the beginning of what
    the final render draws.  For a text that holds an array that the
    classifier takes (no [null], no delete directive whose identifiers
    have no text) and for every chunk that is a start of it, the drawables
    that the
    partial path keeps (those of the recovered elements but the last) are
    the first drawables of the whole array, in the same positions; the
    delete identifiers known so far are among the final ones, so an
    element may be drawn while it streams and hidden in the end; without
    delete directives the partial drawing is a prefix of the final one. *)
Theorem streaming_draws_a_prefix (s t : jsstring) (arr : list json) :
  JSON_parse s = Some (JArr arr) → (∀ el, el ∈ arr → ¬ rejected el) →
  t `prefix_of` s →
  ∃ l exp exf,
    parsePartialElements (Some t) = JArr l
    ∧ extractViewportAndElements (excludeIncompleteLastItem l) = Some exp
    ∧ extractViewportAndElements arr = Some exf
    ∧ deleteIds exp ⊆ deleteIds exf
    ∧ (∀ i el, drawElements exp !! i = Some el →
         ∃ d, of_kind kind_of KDrawable arr !! i = Some d
              ∧ el = tombstone (deleteIds exp) d
              ∧ drawElements exf !! i = Some (tombstone (deleteIds exf) d))
    ∧ (deleteIds exf = ∅ → drawElements exp `prefix_of` drawElements exf).
Proof.
  intros Hs Hn Ht.
  destruct (recovered_is_prefix s t arr Hs Ht) as (l & Hl & Hpre).
  destruct (drawn_prefix arr l Hpre (not_rejected_throws _ Hn))
    as (exp & exf & H).
  by exists l, exp, exf.
Qed.

Lemma streaming_draws_a_prefix_witness :
  ∃ l exp exf,
    parsePartialElements
      (Some (text "[{'type':'rectangle','id':'a'},{'type':'ellipse','id':'b'},{'type':'dia"))
    = JArr l
    ∧ extractViewportAndElements (excludeIncompleteLastItem l) = Some exp
    ∧ extractViewportAndElements
        [JObj [(lit "type", JStr (lit "rectangle")); (lit "id", JStr (lit "a"))];
         JObj [(lit "type", JStr (lit "ellipse")); (lit "id", JStr (lit "b"))];
         JObj [(lit "type", JStr (lit "diamond")); (lit "id", JStr (lit "c"))]]
      = Some exf
    ∧ (deleteIds exf = ∅ → drawElements exp `prefix_of` drawElements exf).
Proof.
  destruct (streaming_draws_a_prefix
              (text "[{'type':'rectangle','id':'a'},{'type':'ellipse','id':'b'},{'type':'diamond','id':'c'}]")
              (text "[{'type':'rectangle','id':'a'},{'type':'ellipse','id':'b'},{'type':'dia")
              [JObj [(lit "type", JStr (lit "rectangle")); (lit "id", JStr (lit "a"))];
               JObj [(lit "type", JStr (lit "ellipse")); (lit "id", JStr (lit "b"))];
               JObj [(lit "type", JStr (lit "diamond")); (lit "id", JStr (lit "c"))]])
    as (l & exp & exf & Hl & Hp & Hf & _ & _ & Hpre).
  - vm_compute. reflexivity.
  - intros el Hin Hr. apply throws_spec in Hr.
    repeat (apply elem_of_cons in Hin as [->|Hin]; [by vm_compute in Hr|]).
    by apply elem_of_nil in Hin.
  - exists (text "mond','id':'c'}]"). vm_compute. reflexivity.
  - by exists l, exp, exf.
Defined.

(** ** The forwarded path *)

Lemma startsWith_spec (s p : jsstring) :
  startsWith s p = true ↔ ∃ r, s = p ++ r.
Proof.
  revert s. induction p as [|c p IH]; intros s; simpl.
  - split; [eauto|done].
  - destruct s as [|d s].
    + split; [done|]. by intros [r ?].
    + rewrite andb_true_iff, N.eqb_eq, IH. split.
      * intros [-> [r ->]]. by exists r.
      * intros [r [= -> ->]]. eauto.
Qed.

Lemma replace_first_head (pat rep s : jsstring) :
  startsWith s pat = true →
  replace_first pat rep s = rep ++ drop (length pat) s.
Proof. intros H. destruct s; unfold replace_first; by rewrite H. Qed.

(** X20. The handler of the hosted server forwards a request whose path
    starts with [/api/] with that first [/api] removed and nothing else
    changed, so that [/api/mcp] is served as [/mcp]; any other request is
    forwarded as it is. *)
Theorem api_prefix_is_removed_once (pathname : jsstring) :
  match forwardedPath pathname with
  | Some p => ∃ rest, pathname = lit "/api/" ++ rest ∧ p = lit "/" ++ rest
  | None => ∀ rest, pathname ≠ lit "/api/" ++ rest
  end.
Proof.
  unfold forwardedPath.
  destruct (startsWith pathname (lit "/api/")) eqn:Hs.
  - destruct (proj1 (startsWith_spec _ _) Hs) as [rest ->].
    exists rest. split; [done|]. by rewrite replace_first_head.
  - intros rest ->. rewrite (proj2 (startsWith_spec _ _)) in Hs by eauto.
    done.
Qed.

(** ** The checkpoints of the earlier variant *)

Section LegacyCheckpoint.

Variable convertToExcalidrawElements : list json → list obj.
Variable Excalifont : jsval.

Local Abbreviation LV_doFinal :=
  (LegacyView.doFinal convertToExcalidrawElements Excalifont None).
Local Abbreviation LV_convertNew :=
  (LegacyView.convertNew convertToExcalidrawElements Excalifont).


End LegacyCheckpoint.


(** ** The checkpoint loader *)

Lemma stringify_nonempty (v : json) :
  serializable v = true → JSON_stringify v ≠ [].
Proof.
  destruct v as [|[]|l| | |]; try done. cbn [JSON_stringify serializable].
  by destruct l.
Qed.


